(** * Lexer, symbol table and recursive-descent parser for
      E -> T E',  E' -> + T E' | eps,  T -> F T',  T' -> * F T' | eps,  F -> ( E ) | id

    Shallow embedding of [core/token.py], [core/lexer.py], [core/symbol_table.py],
    [core/parser.py] and [utils/errors.py], and of the steps the front ends
    [app.py] and [ui/gui.py] run on these objects.

    Modelling conventions.
    - A Python [str] is a [string]; a character [c : ascii] stands for the code
      point [nat_of_ascii c], so the strings of the model are exactly the
      Python strings over U+0000..U+00FF.  The [str] predicates below are
      CPython's on that range.
    - Python integers that are indices or counters are [nat]; evaluated
      expression values are [Z].
    - Objects mutated in place are threaded explicitly: every method takes the
      object and returns the updated object next to its outcome.
    - An exception is an outcome [Raise e]; the object returned next to it
      carries the mutations done before the exception was raised.
    - The interpreter's recursion limit is a parameter: the parsing routines
      and [parse] take the call depth the interpreter still allows, and
      reaching it is the outcome [Exhausted] ([RecursionError]).  Only the
      depth of the mutual recursion is counted; the calls a routine body
      makes that do not recurse are taken to fit.  [evaluate] is given no
      depth: it makes one call per node of a tree that the routines built
      with one call per inner node and the calls of [_consume_token] per
      leaf, so it nests no deeper than the derivation did.
    - The derivation trace [parse_steps] and the always-empty lists [errors]
      and [warnings] of the parser are write-only and are left out. *)

From Stdlib Require Import ZArith String Ascii List Lia Bool.
From stdpp Require Import base decidable option list strings countable gmap pretty.

Local Open Scope string_scope.
Local Open Scope list_scope.
Local Open Scope nat_scope.

#[local] Set Warnings "-register-all".

(* ===================================================================== *)
(** ** Python [str] builtins on U+0000..U+00FF *)
(* ===================================================================== *)

Module PyStr.

Definition code (c : ascii) : nat := nat_of_ascii c.

Definition between (lo hi n : nat) : bool := (lo <=? n) && (n <=? hi).

(** [c.isspace()] *)
Definition isspace (c : ascii) : bool :=
  let n := code c in
  between 9 13 n || between 28 32 n || (n =? 133) || (n =? 160).

(** [c.isdecimal()]: the digits [int()] accepts. *)
Definition isdecimal (c : ascii) : bool := between 48 57 (code c).

(** [c.isdigit()]: the decimal digits and the superscripts U+00B2, U+00B3,
    U+00B9. *)
Definition isdigit (c : ascii) : bool :=
  let n := code c in
  between 48 57 n || between 178 179 n || (n =? 185).

(** [c.isalpha()] *)
Definition isalpha (c : ascii) : bool :=
  let n := code c in
  between 65 90 n || between 97 122 n || (n =? 170) || (n =? 181)
  || (n =? 186) || between 192 214 n || between 216 246 n
  || between 248 255 n.

(** [c.isalnum()]: alphabetic, or numeric (digits and the vulgar fractions
    U+00BC..U+00BE). *)
Definition isalnum (c : ascii) : bool :=
  isalpha c || isdigit c || between 188 190 (code c).

Definition isupper_char (c : ascii) : bool :=
  let n := code c in
  between 65 90 n || between 192 214 n || between 216 222 n.

Definition islower_char (c : ascii) : bool :=
  let n := code c in
  between 97 122 n || (n =? 170) || (n =? 181) || (n =? 186)
  || between 223 246 n || between 248 255 n.

Definition chars (s : string) : list ascii := list_ascii_of_string s.

(** [s.isdigit()], [s.isalpha()]: non-empty and every character qualifies. *)
Definition str_isdigit (s : string) : bool :=
  negb (String.length s =? 0) && forallb isdigit (chars s).

Definition str_isalpha (s : string) : bool :=
  negb (String.length s =? 0) && forallb isalpha (chars s).

(** [s.isupper()]: no lowercase character and at least one uppercase one;
    [s.islower()] symmetrically. *)
Definition str_isupper (s : string) : bool :=
  negb (existsb islower_char (chars s)) && existsb isupper_char (chars s).

Definition str_islower (s : string) : bool :=
  negb (existsb isupper_char (chars s)) && existsb islower_char (chars s).

(** [int(s)] for a string on which [s.isdigit()] holds (the only use in the
    sources): the decimal value when every character is a decimal digit,
    [None] (a [ValueError]) otherwise. *)
Fixpoint int_digits (acc : Z) (cs : list ascii) : option Z :=
  match cs with
  | [] => Some acc
  | c :: cs' =>
      if isdecimal c
      then int_digits (10 * acc + Z.of_nat (code c - 48))%Z cs'
      else None
  end.

Definition int (s : string) : option Z :=
  match chars s with
  | [] => None
  | cs => int_digits 0%Z cs
  end.

(** [s.strip()] *)
Fixpoint lstrip_chars (cs : list ascii) : list ascii :=
  match cs with
  | [] => []
  | c :: cs' => if isspace c then lstrip_chars cs' else cs
  end.

Definition strip_chars (cs : list ascii) : list ascii :=
  rev (lstrip_chars (rev (lstrip_chars cs))).

Definition strip (s : string) : string :=
  string_of_list_ascii (strip_chars (chars s)).

(** [str(c)]: the one-character string. *)
Definition of_char (c : ascii) : string := String c EmptyString.

(** [", ".join(l)] *)
Fixpoint join (sep : string) (l : list string) : string :=
  match l with
  | [] => ""
  | [s] => s
  | s :: l' => s +:+ sep +:+ join sep l'
  end.

End PyStr.

(* ===================================================================== *)
(** ** [core/token.py] *)
(* ===================================================================== *)

(** [TokenType]: the string constants of the class, as an enumeration. *)
Inductive TokenType : Set :=
| PLUS | MULTIPLY | LPAREN | RPAREN | ID | INVALID | EOF.

Module TokenType.

(** The Python string behind each constant. *)
Definition name (k : TokenType) : string :=
  match k with
  | PLUS => "PLUS" | MULTIPLY => "MULTIPLY" | LPAREN => "LPAREN"
  | RPAREN => "RPAREN" | ID => "ID" | INVALID => "INVALID" | EOF => "EOF"
  end.

Definition eqb (a b : TokenType) : bool :=
  match a, b with
  | PLUS, PLUS | MULTIPLY, MULTIPLY | LPAREN, LPAREN | RPAREN, RPAREN
  | ID, ID | INVALID, INVALID | EOF, EOF => true
  | _, _ => false
  end.

(** [t in [TokenType.PLUS, TokenType.MULTIPLY]] *)
Definition is_operator (k : TokenType) : bool :=
  match k with PLUS | MULTIPLY => true | _ => false end.

End TokenType.

Module Token.

Record Token : Set := mk {
  type : TokenType;
  value : string;
  position : nat;
  line : nat;
  column : nat
}.

(** [Token(token_type, value, position)] with the defaults [line=1],
    [column=None]. *)
Definition new (token_type : TokenType) (value : string) (position : nat) : Token :=
  {| type := token_type; value := value; position := position;
     line := 1; column := position + 1 |}.

(** [__str__] *)
Definition str (t : Token) : string :=
  "Token(" +:+ TokenType.name (type t) +:+ ", '" +:+ value t +:+ "', pos:"
  +:+ pretty (position t) +:+ ")".

Definition is_valid (t : Token) : bool :=
  negb (TokenType.eqb (type t) INVALID).

End Token.

Abbreviation Token := Token.Token.

(* ===================================================================== *)
(** ** [utils/errors.py] and the builtin exceptions the core can raise *)
(* ===================================================================== *)

Inductive Exn : Set :=
| EmptyInputError
| LexicalError (message : string) (position : nat) (character : string)
| ParserSyntaxError (message : string) (position : option nat)
    (token : option Token) (expected : option string)
| UnexpectedEndOfInputError (expected : string)
| SemanticError (message : string) (position : option nat)
    (token : option Token) (context : string)
| ValueError (message : string)
| TypeError
| AttributeError.

(** The outcome of a call: a returned value, an exception the program
    raised, or [Exhausted]: the [RecursionError] the interpreter raises when
    the call depth it allows is used up (only the parsing routines can give
    it, see [Parser]). *)
Inductive Outcome (A : Type) : Type :=
| Return (a : A)
| Raise (e : Exn)
| Exhausted.
Arguments Return {A} a.
Arguments Raise {A} e.
Arguments Exhausted {A}.

Module Errors.

(** [isinstance(e, (ParserSyntaxError, SemanticError))];
    [UnexpectedEndOfInputError] is a subclass of [ParserSyntaxError]. *)
Definition is_syntax_or_semantic (e : Exn) : bool :=
  match e with
  | ParserSyntaxError _ _ _ _ | UnexpectedEndOfInputError _
  | SemanticError _ _ _ _ => true
  | _ => false
  end.

(** The error taxonomy of [utils/errors.py] (subclasses of [ParseError]). *)
Definition is_ParseError (e : Exn) : bool :=
  match e with
  | ValueError _ | TypeError | AttributeError => false
  | _ => true
  end.

End Errors.

(* ===================================================================== *)
(** ** [core/lexer.py] *)
(* ===================================================================== *)

Module Lexer.

Record Lexer : Set := mk {
  input_string : string;
  position : nat;
  current_char : option ascii;
  tokens : list Token;
  errors : list Exn
}.

(** [Lexer()] *)
Definition new : Lexer :=
  {| input_string := ""; position := 0; current_char := None;
     tokens := []; errors := [] |}.

Definition _advance (self : Lexer) : Lexer :=
  let position' := position self + 1 in
  {| input_string := input_string self;
     position := position';
     current_char :=
       if String.length (input_string self) <=? position' then None
       else String.get position' (input_string self);
     tokens := tokens self;
     errors := errors self |}.

(** The [while] loop of [_skip_whitespace]; [fuel] bounds the number of
    iterations. *)
Fixpoint _skip_whitespace (fuel : nat) (self : Lexer) : Lexer :=
  match fuel with
  | 0 => self
  | S fuel' =>
      match current_char self with
      | Some c =>
          if PyStr.isspace c then _skip_whitespace fuel' (_advance self)
          else self
      | None => self
      end
  end.

Definition record_error (self : Lexer) (e : Exn) : Lexer :=
  {| input_string := input_string self; position := position self;
     current_char := current_char self; tokens := tokens self;
     errors := errors self ++ [e] |}.

Definition append_token (self : Lexer) (t : Token) : Lexer :=
  {| input_string := input_string self; position := position self;
     current_char := current_char self; tokens := tokens self ++ [t];
     errors := errors self |}.

(** [_get_next_token]; [char] is [self.current_char], which the caller's
    loop guard has checked not to be [None]. *)
Definition _get_next_token (char : ascii) (self : Lexer) : Lexer * Token :=
  let position := position self in
  if Ascii.eqb char "+" then (_advance self, Token.new PLUS "+" position)
  else if Ascii.eqb char "*" then (_advance self, Token.new MULTIPLY "*" position)
  else if Ascii.eqb char "(" then (_advance self, Token.new LPAREN "(" position)
  else if Ascii.eqb char ")" then (_advance self, Token.new RPAREN ")" position)
  else if PyStr.isalnum char then
    (_advance self, Token.new ID (PyStr.of_char char) position)
  else
    let error :=
      LexicalError ("Invalid character '" +:+ PyStr.of_char char +:+ "' found")
        position (PyStr.of_char char) in
    (_advance (record_error self error),
     Token.new INVALID (PyStr.of_char char) position).

(** The main [while self.current_char is not None] loop of [tokenize]. *)
Fixpoint tokenize_loop (fuel : nat) (self : Lexer) : Lexer :=
  match fuel with
  | 0 => self
  | S fuel' =>
      match current_char self with
      | None => self
      | Some c =>
          if PyStr.isspace c then
            tokenize_loop fuel'
              (_skip_whitespace
                 (String.length (input_string self) - position self) self)
          else
            let '(self', token) := _get_next_token c self in
            tokenize_loop fuel' (append_token self' token)
      end
  end.

(** [tokenize].  Both loops advance the cursor at every iteration, so the
    length of the stripped input bounds their iterations (lemma
    [tokenize_loop_spec]). *)
Definition tokenize (self : Lexer) (input : string)
  : Lexer * Outcome (list Token) :=
  let s := PyStr.strip input in
  let self :=
    {| input_string := s; position := 0; current_char := current_char self;
       tokens := []; errors := [] |} in
  if String.length s =? 0 then (self, Raise EmptyInputError)
  else
    let self :=
      {| input_string := s; position := 0; current_char := String.get 0 s;
         tokens := []; errors := [] |} in
    let self := tokenize_loop (String.length s) self in
    match errors self with
    | e :: _ => (self, Raise e)
    | [] => (self, Return (tokens self))
    end.

(** [is_valid_character] *)
Definition is_valid_character (char : ascii) : bool :=
  PyStr.isalnum char
  || (Ascii.eqb char "+" || Ascii.eqb char "*" || Ascii.eqb char "("
      || Ascii.eqb char ")")
  || PyStr.isspace char.

(** [has_errors] *)
Definition has_errors (self : Lexer) : bool := 0 <? length (errors self).

(** The loop body of [get_token_statistics]. *)
Definition count_token (stats : gmap string nat) (token : Token)
  : gmap string nat :=
  let type_name := TokenType.name (Token.type token) in
  match stats !! type_name with
  | Some n => <[type_name := n + 1]> stats
  | None => <[type_name := 1]> stats
  end.

(** [get_token_statistics]: the dictionary from type strings to counts. *)
Definition get_token_statistics (self : Lexer) : gmap string nat :=
  match tokens self with
  | [] => ∅
  | _ => fold_left count_token (tokens self) ∅
  end.

End Lexer.

(* ===================================================================== *)
(** ** [core/parser.py]: the parse tree *)
(* ===================================================================== *)

(** A [ParseTreeNode] object.  A node owns its children (the parser attaches
    every node to exactly one parent), so the tree is a value. *)
Inductive ParseTreeNode : Set :=
| Node (rule : string) (children : list ParseTreeNode) (token : option Token)
       (value : option Z) (depth : nat) (node_id : option nat).

Module ParseTreeNode.

Definition rule (n : ParseTreeNode) : string :=
  match n with Node r _ _ _ _ _ => r end.
Definition children (n : ParseTreeNode) : list ParseTreeNode :=
  match n with Node _ cs _ _ _ _ => cs end.
Definition token (n : ParseTreeNode) : option Token :=
  match n with Node _ _ t _ _ _ => t end.
Definition value (n : ParseTreeNode) : option Z :=
  match n with Node _ _ _ v _ _ => v end.
Definition depth (n : ParseTreeNode) : nat :=
  match n with Node _ _ _ _ d _ => d end.
Definition node_id (n : ParseTreeNode) : option nat :=
  match n with Node _ _ _ _ _ i => i end.

(** [ParseTreeNode(rule, token=token)] *)
Definition new (rule : string) (token : option Token) : ParseTreeNode :=
  Node rule [] token None 0 None.

Definition set_node_id (n : ParseTreeNode) (i : nat) : ParseTreeNode :=
  match n with Node r cs t v d _ => Node r cs t v d (Some i) end.

Definition set_depth (n : ParseTreeNode) (d : nat) : ParseTreeNode :=
  match n with Node r cs t v _ i => Node r cs t v d i end.

Definition set_children (n : ParseTreeNode) (cs : list ParseTreeNode)
  : ParseTreeNode :=
  match n with Node r _ t v d i => Node r cs t v d i end.

(** [add_child]: a node object is always truthy. *)
Definition add_child (self child : ParseTreeNode) : ParseTreeNode :=
  set_children self (children self ++ [set_depth child (depth self + 1)]).

(** [a + b if b is not None else a] *)
Definition add_unless_none (a b : option Z) : Outcome (option Z) :=
  match b with
  | None => Return a
  | Some y =>
      match a with
      | Some x => Return (Some (x + y)%Z)
      | None => Raise TypeError
      end
  end.

(** [a * b if b is not None else a] *)
Definition mul_unless_none (a b : option Z) : Outcome (option Z) :=
  match b with
  | None => Return a
  | Some y =>
      match a with
      | Some x => Return (Some (x * y)%Z)
      | None => Raise TypeError
      end
  end.

(** [a * b if b is not None and b != 1 else a] *)
Definition mul_unless_none_or_one (a b : option Z) : Outcome (option Z) :=
  match b with
  | None => Return a
  | Some y =>
      if (y =? 1)%Z then Return a
      else
        match a with
        | Some x => Return (Some (x * y)%Z)
        | None => Raise TypeError
        end
  end.

(** The tail of a branch of [evaluate]: store the computed value and return
    it, or propagate the exception with [self.value] untouched. *)
Definition store (r : string) (cs : list ParseTreeNode) (t : option Token)
    (v : option Z) (d : nat) (i : option nat) (o : Outcome (option Z))
  : ParseTreeNode * Outcome (option Z) :=
  match o with
  | Return v' => (Node r cs t v' d i, Return v')
  | o' => (Node r cs t v d i, o')
  end.

(** [evaluate]: returns the node with the values cached by the call, and
    the returned value or the exception raised. *)
Fixpoint evaluate (self : ParseTreeNode)
  : ParseTreeNode * Outcome (option Z) :=
  match self with
  | Node r cs t v d i =>
      let unchanged := (Node r cs t v d i, Return v) in
      let terminal_or_rules (by_rule : ParseTreeNode * Outcome (option Z)) :=
        match t with
        | Some tok =>
            if TokenType.eqb (Token.type tok) ID then
              if PyStr.str_isdigit (Token.value tok) then
                match PyStr.int (Token.value tok) with
                | Some z => (Node r cs t (Some z) d i, Return (Some z))
                | None =>
                    (Node r cs t v d i,
                     Raise (ValueError
                              ("invalid literal for int() with base 10: '"
                               +:+ Token.value tok +:+ "'")))
                end
              else (Node r cs t (Some 1%Z) d i, Return (Some 1%Z))
            else by_rule
        | None => by_rule
        end in
      terminal_or_rules
        (if String.eqb r "E" then
           match cs with
           | c0 :: c1 :: rest =>
               match evaluate c0 with
               | (c0', Return t_val) =>
                   match evaluate c1 with
                   | (c1', Return e_prime_val) =>
                       store r (c0' :: c1' :: rest) t v d i
                         (add_unless_none t_val e_prime_val)
                   | (c1', o) => (Node r (c0' :: c1' :: rest) t v d i, o)
                   end
               | (c0', o) => (Node r (c0' :: c1 :: rest) t v d i, o)
               end
           | _ => unchanged
           end
         else if String.eqb r "E'" then
           match cs with
           | [] => (Node r cs t (Some 0%Z) d i, Return (Some 0%Z))
           | [_] => unchanged
           | [c0; c1] =>
               match evaluate c1 with
               | (c1', Return t_val) =>
                   store r [c0; c1'] t v d i (Return t_val)
               | (c1', o) => (Node r [c0; c1'] t v d i, o)
               end
           | c0 :: c1 :: c2 :: rest =>
               match evaluate c1 with
               | (c1', Return t_val) =>
                   match evaluate c2 with
                   | (c2', Return e_prime_val) =>
                       store r (c0 :: c1' :: c2' :: rest) t v d i
                         (add_unless_none t_val e_prime_val)
                   | (c2', o) =>
                       (Node r (c0 :: c1' :: c2' :: rest) t v d i, o)
                   end
               | (c1', o) => (Node r (c0 :: c1' :: c2 :: rest) t v d i, o)
               end
           end
         else if String.eqb r "T" then
           match cs with
           | c0 :: c1 :: rest =>
               match evaluate c0 with
               | (c0', Return f_val) =>
                   match evaluate c1 with
                   | (c1', Return t_prime_val) =>
                       store r (c0' :: c1' :: rest) t v d i
                         (mul_unless_none_or_one f_val t_prime_val)
                   | (c1', o) => (Node r (c0' :: c1' :: rest) t v d i, o)
                   end
               | (c0', o) => (Node r (c0' :: c1 :: rest) t v d i, o)
               end
           | _ => unchanged
           end
         else if String.eqb r "T'" then
           match cs with
           | [] => (Node r cs t (Some 1%Z) d i, Return (Some 1%Z))
           | [_] => unchanged
           | [c0; c1] =>
               match evaluate c1 with
               | (c1', Return f_val) =>
                   store r [c0; c1'] t v d i (Return f_val)
               | (c1', o) => (Node r [c0; c1'] t v d i, o)
               end
           | c0 :: c1 :: c2 :: rest =>
               match evaluate c1 with
               | (c1', Return f_val) =>
                   match evaluate c2 with
                   | (c2', Return t_prime_val) =>
                       store r (c0 :: c1' :: c2' :: rest) t v d i
                         (mul_unless_none f_val t_prime_val)
                   | (c2', o) =>
                       (Node r (c0 :: c1' :: c2' :: rest) t v d i, o)
                   end
               | (c1', o) => (Node r (c0 :: c1' :: c2 :: rest) t v d i, o)
               end
           end
         else if String.eqb r "F" then
           match cs with
           | [c0] =>
               match evaluate c0 with
               | (c0', Return x) => store r [c0'] t v d i (Return x)
               | (c0', o) => (Node r [c0'] t v d i, o)
               end
           | c0 :: c1 :: c2 :: rest =>
               match evaluate c1 with
               | (c1', Return x) =>
                   store r (c0 :: c1' :: c2 :: rest) t v d i (Return x)
               | (c1', o) => (Node r (c0 :: c1' :: c2 :: rest) t v d i, o)
               end
           | _ => unchanged
           end
         else unchanged)
  end.

(** The connectors and indentation of [get_tree_string].  The box-drawing
    characters U+2514, U+251C, U+2500 and U+2502 lie outside U+0000..U+00FF
    and are written as their UTF-8 bytes. *)
Definition connector (is_last : bool) : string :=
  if is_last then "└── " else "├── ".
Definition indent (is_last : bool) : string :=
  if is_last then "    " else "│   ".
Definition newline : string := String "010"%char EmptyString.

(** [get_tree_string(prefix, is_last)] *)
Fixpoint get_tree_string (self : ParseTreeNode) (prefix : string)
    (is_last : bool) : string :=
  match self with
  | Node r cs t v _ _ =>
      let result :=
        match t with
        | Some tok =>
            prefix +:+ connector is_last +:+ r +:+ ": '" +:+ Token.value tok
            +:+ "'"
        | None => prefix +:+ connector is_last +:+ r
        end in
      let result :=
        match v with
        | Some z => result +:+ " = " +:+ pretty z
        | None => result
        end in
      let result := result +:+ newline in
      let child_prefix := prefix +:+ indent is_last in
      result +:+
      (fix over_children (l : list ParseTreeNode) : string :=
         match l with
         | [] => ""
         | child :: l' =>
             get_tree_string child child_prefix
               (match l' with [] => true | _ => false end)
             +:+ over_children l'
         end) cs
  end.

(** The terminal leaves (the nodes built from a token), left to right. *)
Fixpoint leaves (n : ParseTreeNode) : list Token :=
  match n with
  | Node _ cs t _ _ _ =>
      match t with
      | Some tok => [tok]
      | None => []
      end
      ++ (fix over_children (l : list ParseTreeNode) : list Token :=
            match l with
            | [] => []
            | child :: l' => leaves child ++ over_children l'
            end) cs
  end.

End ParseTreeNode.

(* ===================================================================== *)
(** ** [core/parser.py]: the parser *)
(* ===================================================================== *)

Module Parser.

Record Parser : Set := mk {
  tokens : list Token;
  current_index : nat;
  current_token : option Token;
  parse_tree_root : option ParseTreeNode;
  node_counter : nat
}.

(** [Parser()] *)
Definition new : Parser :=
  {| tokens := []; current_index := 0; current_token := None;
     parse_tree_root := None; node_counter := 0 |}.

(** A method of the parser: it reads and updates [self] and returns, raises
    or runs into the recursion limit. *)
Definition M (A : Type) : Type := Parser -> Parser * Outcome A.

Definition ret {A} (a : A) : M A := fun self => (self, Return a).
Definition raise {A} (e : Exn) : M A := fun self => (self, Raise e).
Definition exhausted {A} : M A := fun self => (self, Exhausted).
Definition bind {A B} (m : M A) (k : A -> M B) : M B :=
  fun self =>
    match m self with
    | (self', Return a) => k a self'
    | (self', Raise e) => (self', Raise e)
    | (self', Exhausted) => (self', Exhausted)
    end.

Notation "'let*' x ':=' m 'in' k" := (bind m (fun x => k))
  (at level 10, x name, m at level 200, k at level 200, only parsing).

Definition get_current_token : M (option Token) :=
  fun self => (self, Return (current_token self)).

(** [_get_node_id] *)
Definition _get_node_id : M nat :=
  fun self =>
    let self' :=
      {| tokens := tokens self; current_index := current_index self;
         current_token := current_token self;
         parse_tree_root := parse_tree_root self;
         node_counter := node_counter self + 1 |} in
    (self', Return (node_counter self')).

(** [_consume_token(expected_type)] *)
Definition _consume_token (expected_type : TokenType) : M unit :=
  fun self =>
    match current_token self with
    | None =>
        (self, Raise (UnexpectedEndOfInputError (TokenType.name expected_type)))
    | Some tok =>
        if negb (TokenType.eqb (Token.type tok) expected_type) then
          (self,
           Raise (ParserSyntaxError
                    ("Expected " +:+ TokenType.name expected_type)
                    (Some (Token.position tok)) (Some tok)
                    (Some (TokenType.name expected_type))))
        else
          let current_index' := current_index self + 1 in
          ({| tokens := tokens self;
              current_index := current_index';
              current_token :=
                if current_index' <? length (tokens self)
                then tokens self !! current_index'
                else None;
              parse_tree_root := parse_tree_root self;
              node_counter := node_counter self |},
           Return tt)
    end.

(** [ParseTreeNode(rule, token=token)] followed by
    [node.node_id = self._get_node_id()]. *)
Definition new_node (rule : string) (token : option Token) : M ParseTreeNode :=
  let node := ParseTreeNode.new rule token in
  let* id := _get_node_id in
  ret (ParseTreeNode.set_node_id node id).

(** The five mutually recursive routines.  [depth] is the number of nested
    activations of these routines for which the interpreter's stack still
    has room: every call passes [depth - 1] to the routines it calls, and
    the call of a routine with [depth = 0] is the one at which the
    interpreter raises [RecursionError], the outcome [Exhausted].  No
    routine catches an exception, so [Exhausted] goes up to [parse] like
    one.  The least [depth] for which a call does not give [Exhausted] is
    the recursion depth it reaches. *)
Fixpoint _parse_E (depth : nat) : M ParseTreeNode :=
  match depth with
  | 0 => exhausted
  | S depth' =>
      let* node := new_node "E" None in
      let* t_node := _parse_T depth' in
      let node := ParseTreeNode.add_child node t_node in
      let* e_prime_node := _parse_E_prime depth' in
      let node := ParseTreeNode.add_child node e_prime_node in
      ret node
  end

with _parse_E_prime (depth : nat) : M ParseTreeNode :=
  match depth with
  | 0 => exhausted
  | S depth' =>
      let* node := new_node "E'" None in
      let* current := get_current_token in
      match current with
      | Some tok =>
          if TokenType.eqb (Token.type tok) PLUS then
            let* plus_node := new_node "+" current in
            let node := ParseTreeNode.add_child node plus_node in
            let* _ := _consume_token PLUS in
            let* t_node := _parse_T depth' in
            let node := ParseTreeNode.add_child node t_node in
            let* e_prime_node := _parse_E_prime depth' in
            let node := ParseTreeNode.add_child node e_prime_node in
            ret node
          else ret node
      | None => ret node
      end
  end

with _parse_T (depth : nat) : M ParseTreeNode :=
  match depth with
  | 0 => exhausted
  | S depth' =>
      let* node := new_node "T" None in
      let* f_node := _parse_F depth' in
      let node := ParseTreeNode.add_child node f_node in
      let* t_prime_node := _parse_T_prime depth' in
      let node := ParseTreeNode.add_child node t_prime_node in
      ret node
  end

with _parse_T_prime (depth : nat) : M ParseTreeNode :=
  match depth with
  | 0 => exhausted
  | S depth' =>
      let* node := new_node "T'" None in
      let* current := get_current_token in
      match current with
      | Some tok =>
          if TokenType.eqb (Token.type tok) MULTIPLY then
            let* mult_node := new_node "*" current in
            let node := ParseTreeNode.add_child node mult_node in
            let* _ := _consume_token MULTIPLY in
            let* f_node := _parse_F depth' in
            let node := ParseTreeNode.add_child node f_node in
            let* t_prime_node := _parse_T_prime depth' in
            let node := ParseTreeNode.add_child node t_prime_node in
            ret node
          else ret node
      | None => ret node
      end
  end

with _parse_F (depth : nat) : M ParseTreeNode :=
  match depth with
  | 0 => exhausted
  | S depth' =>
      let* current := get_current_token in
      match current with
      | None => raise (UnexpectedEndOfInputError "'(' or identifier")
      | Some tok =>
          let* node := new_node "F" None in
          if TokenType.eqb (Token.type tok) LPAREN then
            let* lparen_node := new_node "(" current in
            let node := ParseTreeNode.add_child node lparen_node in
            let* _ := _consume_token LPAREN in
            let* e_node := _parse_E depth' in
            let node := ParseTreeNode.add_child node e_node in
            let* current' := get_current_token in
            let* rparen_node := new_node ")" current' in
            let node := ParseTreeNode.add_child node rparen_node in
            let* _ := _consume_token RPAREN in
            ret node
          else if TokenType.eqb (Token.type tok) ID then
            let* id_node := new_node "id" current in
            let node := ParseTreeNode.add_child node id_node in
            let* _ := _consume_token ID in
            ret node
          else
            raise (ParserSyntaxError "Expected '(' or identifier"
                     (Some (Token.position tok)) (Some tok)
                     (Some "'(' or identifier"))
      end
  end.

(** The [for i in range(len(self.tokens) - 1)] loop of
    [_perform_semantic_analysis]. *)
Fixpoint check_consecutive_operators (tokens : list Token) : Outcome unit :=
  match tokens with
  | current :: ((next_token :: _) as rest) =>
      if TokenType.is_operator (Token.type current)
         && TokenType.is_operator (Token.type next_token)
      then
        Raise (SemanticError
                 ("Consecutive operators '" +:+ Token.value current
                  +:+ "' and '" +:+ Token.value next_token
                  +:+ "' are not allowed")
                 (Some (Token.position current)) (Some current)
                 "operator sequence")
      else check_consecutive_operators rest
  | _ => Return tt
  end.

(** The [for token in self.tokens] loop over the parentheses; it returns
    the final [paren_count]. *)
Fixpoint check_parentheses (paren_count : Z) (tokens : list Token)
  : Outcome Z :=
  match tokens with
  | [] => Return paren_count
  | token :: rest =>
      if TokenType.eqb (Token.type token) LPAREN then
        check_parentheses (paren_count + 1)%Z rest
      else if TokenType.eqb (Token.type token) RPAREN then
        let paren_count := (paren_count - 1)%Z in
        if (paren_count <? 0)%Z then
          Raise (SemanticError "Unmatched closing parenthesis"
                   (Some (Token.position token)) (Some token)
                   "parentheses balance")
        else check_parentheses paren_count rest
      else check_parentheses paren_count rest
  end.

(** [_perform_semantic_analysis], as a function of [self.tokens]. *)
Definition _perform_semantic_analysis (tokens : list Token) : Outcome unit :=
  match tokens with
  | [] => Return tt
  | first :: _ =>
      match check_consecutive_operators tokens with
      | Return _ =>
          if TokenType.is_operator (Token.type first) then
            Raise (SemanticError
                     ("Expression cannot start with operator '"
                      +:+ Token.value first +:+ "'")
                     (Some (Token.position first)) (Some first)
                     "expression start")
          else
            let last := List.last tokens first in
            if TokenType.is_operator (Token.type last) then
              Raise (SemanticError
                       ("Expression cannot end with operator '"
                        +:+ Token.value last +:+ "'")
                       (Some (Token.position last)) (Some last)
                       "expression end")
            else
              match check_parentheses 0%Z tokens with
              | Return paren_count =>
                  if (paren_count >? 0)%Z then
                    Raise (SemanticError
                             (pretty paren_count
                              +:+ " unmatched opening parenthesis(es)")
                             None None "parentheses balance")
                  else Return tt
              | Raise e => Raise e
              | Exhausted => Exhausted
              end
      | o => o
      end
  end.

Definition set_parse_tree_root (root : option ParseTreeNode) : M unit :=
  fun self =>
    ({| tokens := tokens self; current_index := current_index self;
        current_token := current_token self; parse_tree_root := root;
        node_counter := node_counter self |},
     Return tt).

(** The derivation phase: the [try] block of [parse] up to the check that
    every token was consumed. *)
Definition derive (depth : nat) : M ParseTreeNode :=
  let* root := _parse_E depth in
  let* _ := set_parse_tree_root (Some root) in
  fun self =>
    if current_index self <? length (tokens self) then
      let remaining_tokens :=
        map Token.value (drop (current_index self) (tokens self)) in
      (self,
       Raise (ParserSyntaxError
                ("Unexpected tokens at end of input: "
                 +:+ PyStr.join ", " remaining_tokens)
                (option_map Token.position (current_token self))
                (current_token self) None))
    else (self, Return root).

(** The evaluation step of [parse]: [self.parse_tree_root.evaluate()]; the
    root object is updated in place. *)
Definition evaluate_root (root : ParseTreeNode) : M (option Z) :=
  fun self =>
    let '(root', o) := ParseTreeNode.evaluate root in
    ({| tokens := tokens self; current_index := current_index self;
        current_token := current_token self;
        parse_tree_root := Some root';
        node_counter := node_counter self |}, o).

(** The body of the [try] statement of [parse]. *)
Definition parse_body (depth : nat) : M bool :=
  let* root := derive depth in
  let* _ := evaluate_root root in
  ret true.

(** The two [except] clauses of [parse].  [ParserSyntaxError] and
    [SemanticError] are re-raised.  For any other exception, the
    [RecursionError] of the interpreter among them, the handler builds the
    builtin [SyntaxError] (the parser module does not import a class of
    that name) and calls [get_detailed_message] on it, which the builtin
    does not have: the handler raises [AttributeError]. *)
Definition handle {A} (r : Parser * Outcome A) : Parser * Outcome A :=
  match r with
  | (self, Raise e) =>
      if Errors.is_syntax_or_semantic e then (self, Raise e)
      else (self, Raise AttributeError)
  | (self, Exhausted) => (self, Raise AttributeError)
  | _ => r
  end.

(** [parse(tokens)], run by an interpreter whose recursion limit leaves the
    derivation the call depth [depth].  The source sets no limit of its
    own, so [depth] is what the interpreter's limit (1000 frames unless
    changed) leaves for the nesting of the routines where [parse] is
    called. *)
Definition parse (depth : nat) (self : Parser) (tokens : list Token)
  : Parser * Outcome bool :=
  let self :=
    {| tokens := tokens; current_index := 0;
       current_token := current_token self;
       parse_tree_root := parse_tree_root self; node_counter := 0 |} in
  match tokens with
  | [] => (self, Raise (UnexpectedEndOfInputError "expression"))
  | first :: _ =>
      let self :=
        {| tokens := tokens; current_index := 0;
           current_token := Some first;
           parse_tree_root := parse_tree_root self; node_counter := 0 |} in
      match _perform_semantic_analysis tokens with
      | Return _ => handle (parse_body depth self)
      | Raise e => (self, Raise e)
      | Exhausted => (self, Exhausted)
      end
  end.

(** [get_evaluation_result] *)
Definition get_evaluation_result (self : Parser) : Parser * option Z :=
  match parse_tree_root self with
  | None => (self, None)
  | Some root =>
      match evaluate_root root self with
      | (self', Return v) => (self', v)
      | (self', _) => (self', None)
      end
  end.


End Parser.

(* ===================================================================== *)
(** ** [core/symbol_table.py] *)
(* ===================================================================== *)

(** A value of the [attributes] dictionary of an entry. *)
Inductive AttrValue : Set :=
| AStr (s : string)
| AInt (z : Z).

Module SymbolTableEntry.

Record SymbolTableEntry : Set := mk {
  token_value : string;
  token_type : TokenType;
  count : nat;
  positions : list nat;
  first_occurrence : nat;
  attributes : list (string * AttrValue)
}.

(** [_get_token_attributes]: the dictionary as the list of its items in
    insertion order; [int(token.value)] can raise [ValueError]. *)
Definition _get_token_attributes (token : Token)
  : Outcome (list (string * AttrValue)) :=
  let attributes : list (string * AttrValue) := [] in
  if TokenType.eqb (Token.type token) ID then
    if PyStr.str_isdigit (Token.value token) then
      let attributes := attributes ++ [("category", AStr "NUMERIC")] in
      match PyStr.int (Token.value token) with
      | Some z => Return (attributes ++ [("value", AInt z)])
      | None =>
          Raise (ValueError ("invalid literal for int() with base 10: '"
                             +:+ Token.value token +:+ "'"))
      end
    else if PyStr.str_isalpha (Token.value token) then
      let attributes := attributes ++ [("category", AStr "ALPHABETIC")] in
      if PyStr.str_isupper (Token.value token) then
        Return (attributes ++ [("case", AStr "UPPERCASE")])
      else if PyStr.str_islower (Token.value token) then
        Return (attributes ++ [("case", AStr "LOWERCASE")])
      else Return attributes
    else Return attributes
  else if TokenType.is_operator (Token.type token) then
    Return
      (attributes
       ++ [("category", AStr "OPERATOR");
           ("precedence",
            AInt (if TokenType.eqb (Token.type token) MULTIPLY
                  then 2 else 1)%Z);
           ("associativity", AStr "LEFT")])
  else if TokenType.eqb (Token.type token) LPAREN
          || TokenType.eqb (Token.type token) RPAREN then
    Return (attributes ++ [("category", AStr "DELIMITER")])
  else Return attributes.

(** [SymbolTableEntry(token)] *)
Definition new (token : Token) : Outcome SymbolTableEntry :=
  match _get_token_attributes token with
  | Return attributes =>
      Return {| token_value := Token.value token;
                token_type := Token.type token;
                count := 1;
                positions := [Token.position token];
                first_occurrence := Token.position token;
                attributes := attributes |}
  | Raise e => Raise e
  | Exhausted => Exhausted
  end.

(** [add_occurrence] *)
Definition add_occurrence (self : SymbolTableEntry) (token : Token)
  : SymbolTableEntry :=
  {| token_value := token_value self; token_type := token_type self;
     count := count self + 1;
     positions := positions self ++ [Token.position token];
     first_occurrence := first_occurrence self;
     attributes := attributes self |}.

End SymbolTableEntry.

Abbreviation SymbolTableEntry := SymbolTableEntry.SymbolTableEntry.

Module SymbolTable.

(** [entries] is the dictionary from key strings to entries;
    [token_types_count] is the [defaultdict(int)] keyed by the type
    strings. *)
Record SymbolTable : Type := mk {
  entries : gmap string SymbolTableEntry;
  total_tokens : nat;
  unique_tokens : nat;
  token_types_count : gmap string nat
}.

(** [SymbolTable()] *)
Definition new : SymbolTable :=
  {| entries := ∅; total_tokens := 0; unique_tokens := 0;
     token_types_count := ∅ |}.

(** [f"{token_value}_{token_type}"] *)
Definition key (token_value : string) (token_type : TokenType) : string :=
  token_value +:+ "_" +:+ TokenType.name token_type.

(** [add_token] *)
Definition add_token (self : SymbolTable) (token : Token)
  : SymbolTable * Outcome unit :=
  if negb (Token.is_valid token) then (self, Return tt)
  else
    let total_tokens' := total_tokens self + 1 in
    let type_name := TokenType.name (Token.type token) in
    let token_types_count' :=
      <[type_name := default 0 (token_types_count self !! type_name) + 1]>
        (token_types_count self) in
    let key := key (Token.value token) (Token.type token) in
    match entries self !! key with
    | Some entry =>
        ({| entries :=
              <[key := SymbolTableEntry.add_occurrence entry token]>
                (entries self);
            total_tokens := total_tokens';
            unique_tokens := unique_tokens self;
            token_types_count := token_types_count' |},
         Return tt)
    | None =>
        match SymbolTableEntry.new token with
        | Return entry =>
            ({| entries := <[key := entry]> (entries self);
                total_tokens := total_tokens';
                unique_tokens := unique_tokens self + 1;
                token_types_count := token_types_count' |},
             Return tt)
        | Raise e =>
            ({| entries := entries self;
                total_tokens := total_tokens';
                unique_tokens := unique_tokens self;
                token_types_count := token_types_count' |},
             Raise e)
        | Exhausted =>
            ({| entries := entries self;
                total_tokens := total_tokens';
                unique_tokens := unique_tokens self;
                token_types_count := token_types_count' |},
             Exhausted)
        end
    end.

(** [get_entry] *)
Definition get_entry (self : SymbolTable) (token_value : string)
    (token_type : TokenType) : option SymbolTableEntry :=
  entries self !! key token_value token_type.

(** [clear] *)
Definition clear (self : SymbolTable) : SymbolTable :=
  {| entries := ∅; total_tokens := 0; unique_tokens := 0;
     token_types_count := ∅ |}.

(** [self.token_types_count[token_type]], read without the insertion a
    [defaultdict] does on a miss. *)
Definition type_count (self : SymbolTable) (token_type : TokenType) : nat :=
  default 0 (token_types_count self !! TokenType.name token_type).

(** A call on the table. *)
Inductive Call : Set :=
| AddToken (token : Token)
| Clear.

(** One call, and a sequence of calls made one after the other; an
    exception raised by a call is caught by the caller, who goes on with
    the table as the call left it. *)
Definition call (self : SymbolTable) (c : Call) : SymbolTable :=
  match c with
  | AddToken token => fst (add_token self token)
  | Clear => clear self
  end.

Definition calls (self : SymbolTable) (l : list Call) : SymbolTable :=
  fold_left call l self.

(** The sum of the counts of all entries. *)
Definition sum_counts (self : SymbolTable) : nat :=
  map_fold (fun _ entry acc => SymbolTableEntry.count entry + acc) 0
    (entries self).

(** [has_entries] *)
Definition has_entries (self : SymbolTable) : bool :=
  0 <? size (entries self).

(** [self.token_types_count[token_type]]: a read of the [defaultdict],
    which stores a zero under a key it does not have. *)
Definition read_type_count (self : SymbolTable) (token_type : TokenType)
  : SymbolTable * nat :=
  match token_types_count self !! TokenType.name token_type with
  | Some n => (self, n)
  | None =>
      ({| entries := entries self; total_tokens := total_tokens self;
          unique_tokens := unique_tokens self;
          token_types_count :=
            <[TokenType.name token_type := 0]> (token_types_count self) |},
       0)
  end.

(** The dictionary [get_statistics] returns. *)
Record Statistics : Type := mk_statistics {
  stat_total_tokens : nat;
  stat_unique_tokens : nat;
  stat_token_types : gmap string nat;
  identifier_count : nat;
  operator_count : nat;
  delimiter_count : nat
}.

(** [get_statistics]: the items of the dictionary are computed in the order
    they are written, so ['token_types'] is the copy [dict(...)] made
    before the five reads. *)
Definition get_statistics (self : SymbolTable) : SymbolTable * Statistics :=
  let total := total_tokens self in
  let unique := unique_tokens self in
  let token_types := token_types_count self in
  let '(self, n_id) := read_type_count self ID in
  let '(self, n_plus) := read_type_count self PLUS in
  let '(self, n_multiply) := read_type_count self MULTIPLY in
  let '(self, n_lparen) := read_type_count self LPAREN in
  let '(self, n_rparen) := read_type_count self RPAREN in
  (self,
   {| stat_total_tokens := total; stat_unique_tokens := unique;
      stat_token_types := token_types;
      identifier_count := n_id;
      operator_count := n_plus + n_multiply;
      delimiter_count := n_lparen + n_rparen |}).

(** The dictionary [get_token_coverage] returns. *)
Record Coverage : Set := mk_coverage {
  has_identifiers : bool;
  has_operators : bool;
  has_parentheses : bool;
  parentheses_balanced : bool
}.

(** [get_token_coverage]; [or] and [and] read their second operand only
    when the first does not decide. *)
Definition get_token_coverage (self : SymbolTable) : SymbolTable * Coverage :=
  let '(self, n_id) := read_type_count self ID in
  let '(self, n_plus) := read_type_count self PLUS in
  let '(self, operators) :=
    if 0 <? n_plus then (self, true)
    else
      let '(self, n_multiply) := read_type_count self MULTIPLY in
      (self, 0 <? n_multiply) in
  let '(self, n_lparen) := read_type_count self LPAREN in
  let '(self, parentheses) :=
    if 0 <? n_lparen then
      let '(self, n_rparen) := read_type_count self RPAREN in
      (self, 0 <? n_rparen)
    else (self, false) in
  let '(self, n_lparen) := read_type_count self LPAREN in
  let '(self, n_rparen) := read_type_count self RPAREN in
  (self,
   {| has_identifiers := 0 <? n_id;
      has_operators := operators;
      has_parentheses := parentheses;
      parentheses_balanced := n_lparen =? n_rparen |}).

End SymbolTable.

Abbreviation SymbolTable := SymbolTable.SymbolTable.

(* ===================================================================== *)
(** ** The analysis the front ends run *)
(* ===================================================================== *)

(** [analyze_expression] of [app.py] and of [ui/gui.py] and
    [process_single_expression] of [ui/gui.py] run the same statements on
    their lexer, symbol table and parser inside their [try]: tokenize the
    expression, clear the symbol table, add every token to it, parse the
    tokens.  An exception of any of the calls leaves the [try] at once.
    What the front ends do around these calls and with the outcome
    (widgets, result dictionaries, messages) is not modelled. *)
Module Analysis.

(** [for token in tokens: symbol_table.add_token(token)] *)
Fixpoint add_tokens (symbol_table : SymbolTable) (tokens : list Token)
  : SymbolTable * Outcome unit :=
  match tokens with
  | [] => (symbol_table, Return tt)
  | token :: tokens' =>
      match SymbolTable.add_token symbol_table token with
      | (symbol_table', Return _) => add_tokens symbol_table' tokens'
      | (symbol_table', Raise e) => (symbol_table', Raise e)
      | (symbol_table', Exhausted) => (symbol_table', Exhausted)
      end
  end.

(** The three objects of a front end. *)
Record State : Type := mk {
  lexer : Lexer.Lexer;
  symbol_table : SymbolTable;
  parser : Parser.Parser
}.

(** [tokens = lexer.tokenize(expression)]; [symbol_table.clear()]; the loop
    above; [parse_success = parser.parse(tokens)], with the call depth
    [depth] for the derivation.  Returns the tokens and [parse_success]. *)
Definition analyze (depth : nat) (self : State) (expression : string)
  : State * Outcome (list Token * bool) :=
  match Lexer.tokenize (lexer self) expression with
  | (lexer', Return tokens) =>
      let cleared := SymbolTable.clear (symbol_table self) in
      match add_tokens cleared tokens with
      | (symbol_table', Return _) =>
          match Parser.parse depth (parser self) tokens with
          | (parser', Return parse_success) =>
              ({| lexer := lexer'; symbol_table := symbol_table';
                  parser := parser' |}, Return (tokens, parse_success))
          | (parser', Raise e) =>
              ({| lexer := lexer'; symbol_table := symbol_table';
                  parser := parser' |}, Raise e)
          | (parser', Exhausted) =>
              ({| lexer := lexer'; symbol_table := symbol_table';
                  parser := parser' |}, Exhausted)
          end
      | (symbol_table', Raise e) =>
          ({| lexer := lexer'; symbol_table := symbol_table';
              parser := parser self |}, Raise e)
      | (symbol_table', Exhausted) =>
          ({| lexer := lexer'; symbol_table := symbol_table';
              parser := parser self |}, Exhausted)
      end
  | (lexer', Raise e) =>
      ({| lexer := lexer'; symbol_table := symbol_table self;
          parser := parser self |}, Raise e)
  | (lexer', Exhausted) =>
      ({| lexer := lexer'; symbol_table := symbol_table self;
          parser := parser self |}, Exhausted)
  end.

End Analysis.


(* ===================================================================== *)
(** ** Definitions used to state and prove the properties *)
(* ===================================================================== *)

(** The lexer read one character at a time over the list of characters of
    the stripped input. *)
Module Scan.

(** The kind [_get_next_token] gives a character that is not whitespace. *)
Definition kind_of (c : ascii) : TokenType :=
  if Ascii.eqb c "+" then PLUS
  else if Ascii.eqb c "*" then MULTIPLY
  else if Ascii.eqb c "(" then LPAREN
  else if Ascii.eqb c ")" then RPAREN
  else if PyStr.isalnum c then ID
  else INVALID.

Definition token_at (p : nat) (c : ascii) : Token :=
  Token.new (kind_of c) (PyStr.of_char c) p.

Definition error_at (p : nat) (c : ascii) : Exn :=
  LexicalError ("Invalid character '" +:+ PyStr.of_char c +:+ "' found")
    p (PyStr.of_char c).

Fixpoint tokens_from (p : nat) (cs : list ascii) : list Token :=
  match cs with
  | [] => []
  | c :: cs' =>
      if PyStr.isspace c then tokens_from (S p) cs'
      else token_at p c :: tokens_from (S p) cs'
  end.

Fixpoint errors_from (p : nat) (cs : list ascii) : list Exn :=
  match cs with
  | [] => []
  | c :: cs' =>
      if PyStr.isspace c || Lexer.is_valid_character c
      then errors_from (S p) cs'
      else error_at p c :: errors_from (S p) cs'
  end.

(** The cursor invariant of the lexer: [current_char] is the character at
    [position], or [None] past the end. *)
Definition synced (l : Lexer.Lexer) : Prop :=
  Lexer.current_char l
  = PyStr.chars (Lexer.input_string l) !! Lexer.position l.

End Scan.

(** A character the grammar has no token for: not alphanumeric, not one of
    [+ * ( )], not whitespace. *)
Definition invalid_char (c : ascii) : Prop :=
  PyStr.isalnum c = false
  /\ (c ∉ ["+"%char; "*"%char; "("%char; ")"%char])
  /\ PyStr.isspace c = false.

(** The kind the lexer gives a character that has a token. *)
Inductive char_kind (c : ascii) : TokenType -> Prop :=
| kind_plus : c = "+"%char -> char_kind c PLUS
| kind_multiply : c = "*"%char -> char_kind c MULTIPLY
| kind_lparen : c = "("%char -> char_kind c LPAREN
| kind_rparen : c = ")"%char -> char_kind c RPAREN
| kind_identifier : PyStr.isalnum c = true -> char_kind c ID.

(** The characters of a list that are not whitespace, each with its 0-based
    offset in the list, left to right. *)
Definition non_whitespace (cs : list ascii) : list (nat * ascii) :=
  filter (fun ic => PyStr.isspace ic.2 = false) (imap pair cs).

(** The characters of a list that have no token, each with its offset. *)
Definition invalid_chars (cs : list ascii) : list (nat * ascii) :=
  filter (fun ic => Lexer.is_valid_character ic.2 = false) (imap pair cs).

(** An operator token: kind [PLUS] or [MULTIPLY]. *)
Definition is_op (t : Token) : Prop :=
  TokenType.is_operator (Token.type t) = true.

(** Tokens [i] and [i + 1] are both operators. *)
Definition consecutive_operators_at (toks : list Token) (i : nat) : Prop :=
  exists a b, toks !! i = Some a /\ toks !! S i = Some b /\ is_op a /\ is_op b.

(** The running open-parenthesis counter after a list of tokens. *)
Definition paren_delta (t : Token) : Z :=
  match Token.type t with
  | LPAREN => 1
  | RPAREN => -1
  | _ => 0
  end.

Fixpoint paren_count (toks : list Token) : Z :=
  match toks with
  | [] => 0
  | t :: toks' => paren_delta t + paren_count toks'
  end.

(** The counter never goes negative along the list. *)
Definition never_negative (toks : list Token) : Prop :=
  forall j, (0 <= paren_count (take j toks))%Z.

Definition has_consecutive_operators (toks : list Token) : Prop :=
  exists i, consecutive_operators_at toks i.

Definition starts_with_operator (toks : list Token) : Prop :=
  exists t, head toks = Some t /\ is_op t.

Definition ends_with_operator (toks : list Token) : Prop :=
  exists t, last toks = Some t /\ is_op t.

(** The five errors of the semantic pre-checks. *)
Definition consecutive_operators_error (a b : Token) : Exn :=
  SemanticError
    ("Consecutive operators '" +:+ Token.value a +:+ "' and '"
     +:+ Token.value b +:+ "' are not allowed")
    (Some (Token.position a)) (Some a) "operator sequence".

Definition starts_with_operator_error (first : Token) : Exn :=
  SemanticError
    ("Expression cannot start with operator '" +:+ Token.value first +:+ "'")
    (Some (Token.position first)) (Some first) "expression start".

Definition ends_with_operator_error (last : Token) : Exn :=
  SemanticError
    ("Expression cannot end with operator '" +:+ Token.value last +:+ "'")
    (Some (Token.position last)) (Some last) "expression end".

Definition unmatched_closing_error (tok : Token) : Exn :=
  SemanticError "Unmatched closing parenthesis"
    (Some (Token.position tok)) (Some tok) "parentheses balance".

Definition unmatched_opening_error (n : Z) : Exn :=
  SemanticError (pretty n +:+ " unmatched opening parenthesis(es)")
    None None "parentheses balance".

(** What the pre-checks of a token list that is not empty come to: the first
    violated rule in the order of the checks, or no violation. *)
Inductive semantic_verdict (toks : list Token) : Outcome unit -> Prop :=
| verdict_consecutive i a b :
    toks !! i = Some a -> toks !! S i = Some b -> is_op a -> is_op b ->
    (forall j, j < i -> ~ consecutive_operators_at toks j) ->
    semantic_verdict toks (Raise (consecutive_operators_error a b))
| verdict_start first :
    ~ has_consecutive_operators toks ->
    head toks = Some first -> is_op first ->
    semantic_verdict toks (Raise (starts_with_operator_error first))
| verdict_end last_token :
    ~ has_consecutive_operators toks -> ~ starts_with_operator toks ->
    last toks = Some last_token -> is_op last_token ->
    semantic_verdict toks (Raise (ends_with_operator_error last_token))
| verdict_closing i tok :
    ~ has_consecutive_operators toks -> ~ starts_with_operator toks ->
    ~ ends_with_operator toks ->
    toks !! i = Some tok ->
    (forall j, j <= i -> (0 <= paren_count (take j toks))%Z) ->
    (paren_count (take (S i) toks) < 0)%Z ->
    semantic_verdict toks (Raise (unmatched_closing_error tok))
| verdict_opening :
    ~ has_consecutive_operators toks -> ~ starts_with_operator toks ->
    ~ ends_with_operator toks ->
    never_negative toks -> (0 < paren_count toks)%Z ->
    semantic_verdict toks (Raise (unmatched_opening_error (paren_count toks)))
| verdict_pass :
    ~ has_consecutive_operators toks -> ~ starts_with_operator toks ->
    ~ ends_with_operator toks ->
    never_negative toks -> paren_count toks = 0%Z ->
    semantic_verdict toks (Return tt).

(** The non-terminals of the grammar. *)
Inductive Sym : Set := sE | sE' | sT | sT' | sF.

(** A terminal leaf: a node without children built from a token of the
    given kind, not yet evaluated. *)
Definition terminal (rule : string) (kind : TokenType) (n : ParseTreeNode)
    (tok : Token) : Prop :=
  exists d i, n = Node rule [] (Some tok) None d i /\ Token.type tok = kind.

(** [derives X n ts]: the node [n] is an unevaluated parse tree of the
    non-terminal [X] whose terminals, left to right, are the tokens [ts]. *)
Inductive derives : Sym -> ParseTreeNode -> list Token -> Prop :=
| derives_E t e ts1 ts2 d i :
    derives sT t ts1 -> derives sE' e ts2 ->
    derives sE (Node "E" [t; e] None None d i) (ts1 ++ ts2)
| derives_E'_eps d i :
    derives sE' (Node "E'" [] None None d i) []
| derives_E'_plus p tok t e ts1 ts2 d i :
    terminal "+" PLUS p tok -> derives sT t ts1 -> derives sE' e ts2 ->
    derives sE' (Node "E'" [p; t; e] None None d i) (tok :: ts1 ++ ts2)
| derives_T f t' ts1 ts2 d i :
    derives sF f ts1 -> derives sT' t' ts2 ->
    derives sT (Node "T" [f; t'] None None d i) (ts1 ++ ts2)
| derives_T'_eps d i :
    derives sT' (Node "T'" [] None None d i) []
| derives_T'_times m tok f t' ts1 ts2 d i :
    terminal "*" MULTIPLY m tok -> derives sF f ts1 -> derives sT' t' ts2 ->
    derives sT' (Node "T'" [m; f; t'] None None d i) (tok :: ts1 ++ ts2)
| derives_F_id n tok d i :
    terminal "id" ID n tok ->
    derives sF (Node "F" [n] None None d i) [tok]
| derives_F_paren l ltok e r rtok ts d i :
    terminal "(" LPAREN l ltok -> derives sE e ts ->
    terminal ")" RPAREN r rtok ->
    derives sF (Node "F" [l; e; r] None None d i) (ltok :: ts ++ [rtok]).

(** The cursor invariant of the parser: [current_token] is the token at
    [current_index], or [None] past the end. *)
Definition in_sync (p : Parser.Parser) : Prop :=
  Parser.current_token p = Parser.tokens p !! Parser.current_index p.

(** Between the parser states [p] and [p'] exactly the tokens [ts] were
    consumed, in order, and nothing else of the parser changed but the node
    counter. *)
Definition consumed (p p' : Parser.Parser) (ts : list Token) : Prop :=
  Parser.tokens p' = Parser.tokens p
  /\ Parser.parse_tree_root p' = Parser.parse_tree_root p
  /\ in_sync p'
  /\ Parser.current_index p' = Parser.current_index p + length ts
  /\ drop (Parser.current_index p) (Parser.tokens p)
     = ts ++ drop (Parser.current_index p') (Parser.tokens p).

(** The parser after [_get_node_id], and after a successful
    [_consume_token]. *)
Definition bump (p : Parser.Parser) : Parser.Parser :=
  {| Parser.tokens := Parser.tokens p;
     Parser.current_index := Parser.current_index p;
     Parser.current_token := Parser.current_token p;
     Parser.parse_tree_root := Parser.parse_tree_root p;
     Parser.node_counter := Parser.node_counter p + 1 |}.

Definition advance (p : Parser.Parser) : Parser.Parser :=
  {| Parser.tokens := Parser.tokens p;
     Parser.current_index := Parser.current_index p + 1;
     Parser.current_token :=
       if Parser.current_index p + 1 <? length (Parser.tokens p)
       then Parser.tokens p !! (Parser.current_index p + 1)
       else None;
     Parser.parse_tree_root := Parser.parse_tree_root p;
     Parser.node_counter := Parser.node_counter p |}.

(** The node [new_node] builds in state [p]. *)
Definition fresh (rule : string) (token : option Token) (p : Parser.Parser)
  : ParseTreeNode :=
  Node rule [] token None 0 (Some (Parser.node_counter p + 1)).

(** The shape of a token list at whose end a routine found no token: it ends
    with an operator, or it has an opening parenthesis whose closing one is
    still missing after a balanced rest. *)
Definition eof_shape (ts : list Token) : Prop :=
  (exists t, last ts = Some t /\ is_op t)
  \/ (exists pre tok post,
        ts = pre ++ tok :: post /\ Token.type tok = LPAREN
        /\ paren_count post = 0%Z).

(** What is known when a routine raises [e] in state [p'] after the tokens
    [ts] were consumed: at an unexpected end of input no token is left and
    [ts] has the shape above (or is empty, when [strict] is off); a syntax
    error carries the current token, which is the one found. *)
Definition raise_post (strict : bool) (e : Exn) (p' : Parser.Parser)
    (ts : list Token) : Prop :=
  match e with
  | UnexpectedEndOfInputError _ =>
      Parser.current_token p' = None
      /\ ((strict = false /\ ts = []) \/ eof_shape ts)
  | ParserSyntaxError _ pos (Some tok) (Some _) =>
      Parser.current_token p' = Some tok /\ pos = Some (Token.position tok)
  | _ => False
  end.

(** The routines of [E'] and [T'] raise only after they consumed their
    operator. *)
Definition strict_sym (X : Sym) : bool :=
  match X with
  | sE' | sT' => true
  | _ => false
  end.

(** What a parsing routine for the non-terminal [X] does between the states
    [p] and [p']. *)
Definition routine_post (X : Sym) (p p' : Parser.Parser)
    (o : Outcome ParseTreeNode) : Prop :=
  match o with
  | Exhausted => True
  | Return node => exists ts, consumed p p' ts /\ derives X node ts
  | Raise e => exists ts, consumed p p' ts /\ raise_post (strict_sym X) e p' ts
  end.

(** A call depth that is enough for the derivation of a token list: three
    levels for every token and three more. *)
Definition depth_for (tokens : list Token) : nat := 3 * length tokens + 3.

(** The number of tokens not yet consumed. *)
Definition remaining (p : Parser.Parser) : nat :=
  length (Parser.tokens p) - Parser.current_index p.

(** The parser as [parse] sets it up before the derivation. *)
Definition started (self : Parser.Parser) (toks : list Token) : Parser.Parser :=
  {| Parser.tokens := toks; Parser.current_index := 0;
     Parser.current_token := head toks;
     Parser.parse_tree_root := Parser.parse_tree_root self;
     Parser.node_counter := 0 |}.

(** The parenthesis nesting depth of a token list: the largest value the
    running open-parenthesis counter takes ([cur] is the counter so far). *)
Fixpoint nesting_from (cur : nat) (toks : list Token) : nat :=
  match toks with
  | [] => cur
  | t :: toks' =>
      match Token.type t with
      | LPAREN => Nat.max cur (nesting_from (S cur) toks')
      | RPAREN => Nat.max cur (nesting_from (Nat.pred cur) toks')
      | _ => nesting_from cur toks'
      end
  end.

Definition nesting_depth (toks : list Token) : nat := nesting_from 0 toks.

(** The tokens of [+1+1...+1] with [n] operators, at offsets [pos],
    [pos + 1], ..., and the tokens of [1+1+...+1]. *)
Fixpoint plus_chain (pos n : nat) : list Token :=
  match n with
  | 0 => []
  | S n' =>
      Token.new PLUS "+" pos :: Token.new ID "1" (pos + 1)
      :: plus_chain (pos + 2) n'
  end.

Definition sum_chain (n : nat) : list Token :=
  Token.new ID "1" 0 :: plus_chain 1 n.

(** An evaluated [id] leaf: its cached value is the integer of its text when
    the text is all digits, and the placeholder [1] otherwise. *)
Definition id_leaf (n : ParseTreeNode) (tok : Token) (z : Z) : Prop :=
  exists d i,
    n = Node "id" [] (Some tok) (Some z) d i
    /\ Token.type tok = ID
    /\ ((PyStr.str_isdigit (Token.value tok) = true
         /\ PyStr.int (Token.value tok) = Some z)
        \/ (PyStr.str_isdigit (Token.value tok) = false /\ z = 1%Z)).

(** [evaluated X n z]: the node [n] is a parse tree of the non-terminal [X]
    whose cached value is [z], and the cached values of [n] and of all the
    nodes below it follow the evaluation rules of the grammar. *)
Inductive evaluated : Sym -> ParseTreeNode -> Z -> Prop :=
| evaluated_E t e tv ev d i :
    evaluated sT t tv -> evaluated sE' e ev ->
    evaluated sE (Node "E" [t; e] None (Some (tv + ev)%Z) d i) (tv + ev)
| evaluated_E'_eps d i :
    evaluated sE' (Node "E'" [] None (Some 0%Z) d i) 0
| evaluated_E'_plus p tok t e tv ev d i :
    terminal "+" PLUS p tok -> evaluated sT t tv -> evaluated sE' e ev ->
    evaluated sE' (Node "E'" [p; t; e] None (Some (tv + ev)%Z) d i) (tv + ev)
| evaluated_T_times f t' fv tv d i :
    evaluated sF f fv -> evaluated sT' t' tv -> tv <> 1%Z ->
    evaluated sT (Node "T" [f; t'] None (Some (fv * tv)%Z) d i) (fv * tv)
| evaluated_T_one f t' fv d i :
    evaluated sF f fv -> evaluated sT' t' 1 ->
    evaluated sT (Node "T" [f; t'] None (Some fv) d i) fv
| evaluated_T'_eps d i :
    evaluated sT' (Node "T'" [] None (Some 1%Z) d i) 1
| evaluated_T'_times m tok f t' fv tv d i :
    terminal "*" MULTIPLY m tok -> evaluated sF f fv -> evaluated sT' t' tv ->
    evaluated sT' (Node "T'" [m; f; t'] None (Some (fv * tv)%Z) d i) (fv * tv)
| evaluated_F_id n tok z d i :
    id_leaf n tok z ->
    evaluated sF (Node "F" [n] None (Some z) d i) z
| evaluated_F_paren l ltok e r rtok z d i :
    terminal "(" LPAREN l ltok -> evaluated sE e z ->
    terminal ")" RPAREN r rtok ->
    evaluated sF (Node "F" [l; e; r] None (Some z) d i) z.

(** What [evaluate] gives on a tree built by the parser: a value and a tree
    that follows the rules, or the [ValueError] of [int()]. *)
Definition evaluate_post (X : Sym) (n' : ParseTreeNode)
    (o : Outcome (option Z)) : Prop :=
  (exists z, o = Return (Some z) /\ evaluated X n' z)
  \/ (exists msg, o = Raise (ValueError msg)).

(** The tree after [k] calls of [evaluate]. *)
Fixpoint evaluate_times (k : nat) (n : ParseTreeNode) : ParseTreeNode :=
  match k with
  | 0 => n
  | S k' => fst (ParseTreeNode.evaluate (evaluate_times k' n))
  end.

(** The texts of the terminal leaves of a tree, left to right, joined. *)
Definition leaf_text (n : ParseTreeNode) : string :=
  String.concat "" (map Token.value (ParseTreeNode.leaves n)).

(** The tokens of [2*(x+7)], a sample input. *)
Definition sample_tokens : list Token :=
  [Token.new ID "2" 0; Token.new MULTIPLY "*" 1; Token.new LPAREN "(" 2;
   Token.new ID "x" 3; Token.new PLUS "+" 4; Token.new ID "7" 5;
   Token.new RPAREN ")" 6].

(** The five token kinds of the grammar. *)
Definition grammar_kind (k : TokenType) : bool :=
  match k with
  | PLUS | MULTIPLY | LPAREN | RPAREN | ID => true
  | INVALID | EOF => false
  end.


Global Instance TokenType_eq_dec : EqDecision TokenType.
Proof. solve_decision. Defined.

(** The valid tokens added to a symbol table since the last [clear], in the
    order of the calls. *)
Definition live_step (acc : list Token) (c : SymbolTable.Call) : list Token :=
  match c with
  | SymbolTable.AddToken t => if Token.is_valid t then acc ++ [t] else acc
  | SymbolTable.Clear => []
  end.

Definition live (l : list SymbolTable.Call) : list Token :=
  fold_left live_step l [].

(** The occurrences of the pair [(v, k)] in a list of tokens. *)
Definition occurrences (v : string) (k : TokenType) (toks : list Token)
  : list Token :=
  filter (fun t => Token.value t = v /\ Token.type t = k) toks.

(** The entry [e] records the occurrences [occ] of the pair [(v, k)]. *)
Definition entry_matches (e : SymbolTableEntry) (v : string) (k : TokenType)
    (occ : list Token) : Prop :=
  SymbolTableEntry.token_value e = v
  /\ SymbolTableEntry.token_type e = k
  /\ SymbolTableEntry.count e = length occ
  /\ SymbolTableEntry.positions e = map Token.position occ.

(** The invariant of the symbol table with respect to the tokens [toks]
    added since the last [clear]. *)
Definition table_invariant (st : SymbolTable) (toks : list Token) : Prop :=
  (forall v k,
      match occurrences v k toks with
      | [] => SymbolTable.get_entry st v k = None
      | occ => exists e, SymbolTable.get_entry st v k = Some e
                         /\ entry_matches e v k occ
      end)
  /\ (forall s e,
        SymbolTable.entries st !! s = Some e ->
        s = SymbolTable.key (SymbolTableEntry.token_value e)
              (SymbolTableEntry.token_type e))
  /\ SymbolTable.total_tokens st = length toks
  /\ SymbolTable.unique_tokens st = size (SymbolTable.entries st)
  /\ SymbolTable.sum_counts st = SymbolTable.total_tokens st
  /\ (forall k,
        SymbolTable.type_count st k
        = length (filter (fun t => Token.type t = k) toks)).

(** The call returns: building the entry of its token does not raise. *)
Definition call_returns (c : SymbolTable.Call) : Prop :=
  match c with
  | SymbolTable.AddToken t =>
      Token.is_valid t = true -> exists e, SymbolTableEntry.new t = Return e
  | SymbolTable.Clear => True
  end.

(** The one-character string U+00B2 (superscript two): [isalnum()] and
    [isdigit()] hold for it, and [int()] rejects it. *)
Definition superscript_two : string := String "178"%char EmptyString.

(* ===================================================================== *)
(** ** Definitions for the further properties *)
(* ===================================================================== *)

(** The kind and text of a token, without its position. *)
Definition kind_and_text (t : Token) : TokenType * string :=
  (Token.type t, Token.value t).

(** The characters of a string that are not whitespace, in order. *)
Definition visible (s : string) : list ascii :=
  filter (fun c => PyStr.isspace c = false) (PyStr.chars s).

(** The number of tokens of a kind. *)
Definition count_kind (k : TokenType) (toks : list Token) : nat :=
  length (filter (fun t => Token.type t = k) toks).

(** The texts of a token list, joined. *)
Definition text_of (toks : list Token) : string :=
  String.concat "" (map Token.value toks).

(** The tokens with the same kinds and texts at the offsets 0, 1, 2, ... *)
Definition renumber (toks : list Token) : list Token :=
  imap (fun i t => Token.new (Token.type t) (Token.value t) i) toks.

(** The value [evaluate] gives an [id] leaf built from the token: the
    integer of a text that is all digits ([None] when [int()] rejects it),
    and 1 for any other text. *)
Definition id_value (tok : Token) : option Z :=
  if PyStr.str_isdigit (Token.value tok) then PyStr.int (Token.value tok)
  else Some 1%Z.

(** [denotes X ts z]: the grammar derives the token list [ts] from the
    non-terminal [X], and the arithmetic value of that derivation is [z]
    ([+] adds, [*] multiplies, the empty [E'] is 0 and the empty [T'] is
    1). *)
Inductive denotes : Sym -> list Token -> Z -> Prop :=
| denotes_E ts1 ts2 v1 v2 :
    denotes sT ts1 v1 -> denotes sE' ts2 v2 ->
    denotes sE (ts1 ++ ts2) (v1 + v2)
| denotes_E'_eps :
    denotes sE' [] 0
| denotes_E'_plus tok ts1 ts2 v1 v2 :
    Token.type tok = PLUS -> denotes sT ts1 v1 -> denotes sE' ts2 v2 ->
    denotes sE' (tok :: ts1 ++ ts2) (v1 + v2)
| denotes_T ts1 ts2 v1 v2 :
    denotes sF ts1 v1 -> denotes sT' ts2 v2 ->
    denotes sT (ts1 ++ ts2) (v1 * v2)
| denotes_T'_eps :
    denotes sT' [] 1
| denotes_T'_times tok ts1 ts2 v1 v2 :
    Token.type tok = MULTIPLY -> denotes sF ts1 v1 -> denotes sT' ts2 v2 ->
    denotes sT' (tok :: ts1 ++ ts2) (v1 * v2)
| denotes_F_id tok z :
    Token.type tok = ID -> id_value tok = Some z ->
    denotes sF [tok] z
| denotes_F_paren ltok ts rtok z :
    Token.type ltok = LPAREN -> denotes sE ts z ->
    Token.type rtok = RPAREN ->
    denotes sF (ltok :: ts ++ [rtok]) z.

(** The parsing routine of a non-terminal. *)
Definition routine (X : Sym) : nat -> Parser.M ParseTreeNode :=
  match X with
  | sE => Parser._parse_E
  | sE' => Parser._parse_E_prime
  | sT => Parser._parse_T
  | sT' => Parser._parse_T_prime
  | sF => Parser._parse_F
  end.




(** The shape of a phrase of [X] that the pre-checks look at. *)
Definition phrase_shape (X : Sym) (ts : list Token) : Prop :=
  paren_count ts = 0%Z
  /\ never_negative ts
  /\ ~ has_consecutive_operators ts
  /\ (forall t, last ts = Some t -> ~ is_op t)
  /\ (strict_sym X = false -> exists t, head ts = Some t /\ ~ is_op t).

(** [parse] on the parser [self], with the call depth [depth], accepts the
    token list, and [get_evaluation_result] then reports the value [z]. *)
Definition accepted (depth : nat) (self : Parser.Parser)
    (toks : list Token) (z : Z) : Prop :=
  exists p',
    Parser.parse depth self toks = (p', Return true)
    /\ Parser.get_evaluation_result p' = (p', Some z).

(** The tokens of [2+3]. *)
Definition sum_tokens : list Token :=
  [Token.new ID "2" 0; Token.new PLUS "+" 1; Token.new ID "3" 2].

(** The tree without its cached values. *)
Fixpoint clear_values (n : ParseTreeNode) : ParseTreeNode :=
  match n with
  | Node r cs t _ d i => Node r (map clear_values cs) t None d i
  end.

(** An identifier token [evaluate] and the symbol table can read: its
    digits, if it is made of digits, are ones [int()] accepts. *)
Definition readable (t : Token) : Prop :=
  Token.type t = ID -> id_value t <> None.

(** A front end with new objects. *)
Definition new_state : Analysis.State :=
  {| Analysis.lexer := Lexer.new; Analysis.symbol_table := SymbolTable.new;
     Analysis.parser := Parser.new |}.

(** The key of the entry of a character that has a token. *)
Definition key_of_char (c : ascii) : string :=
  SymbolTable.key (PyStr.of_char c) (Scan.kind_of c).

(** The node ids of a tree in the order of a pre-order walk. *)
Fixpoint node_ids (n : ParseTreeNode) : list (option nat) :=
  match n with
  | Node _ cs _ _ _ i => i :: flat_map node_ids cs
  end.

(** The ids [first + 1], ..., [first + n]. *)
Definition ids_after (first n : nat) : list (option nat) :=
  map Some (seq (S first) n).

(** Between the states [p] and [p'] the nodes of the tree were numbered,
    in pre-order, with the next ids of the counter. *)
Definition numbered (p p' : Parser.Parser) (node : ParseTreeNode) : Prop :=
  exists n,
    Parser.node_counter p' = Parser.node_counter p + n
    /\ node_ids node = ids_after (Parser.node_counter p) n.

(* ===================================================================== *)
(** ** Strings as lists of characters *)
(* ===================================================================== *)

Lemma chars_length (s : string) : String.length s = length (PyStr.chars s).
Proof. induction s as [|c s IH]; simpl; [done | by rewrite IH]. Qed.

Lemma chars_get (s : string) (n : nat) : String.get n s = PyStr.chars s !! n.
Proof.
  revert n; induction s as [|c s IH]; intros [|n]; simpl; done.
Qed.

Lemma chars_of_list (cs : list ascii) :
  PyStr.chars (string_of_list_ascii cs) = cs.
Proof. apply list_ascii_of_string_of_list_ascii. Qed.

Lemma chars_strip (s : string) :
  PyStr.chars (PyStr.strip s) = PyStr.strip_chars (PyStr.chars s).
Proof. apply chars_of_list. Qed.

(* ===================================================================== *)
(** ** The lexer loops *)
(* ===================================================================== *)

Section LexerLoops.

Import Lexer Scan.

Lemma advance_synced (l : Lexer) : synced (_advance l).
Proof.
  unfold synced, _advance; simpl.
  rewrite chars_get, chars_length.
  destruct (Nat.leb_spec (length (PyStr.chars (input_string l))) (position l + 1));
    [|done].
  symmetry; by apply lookup_ge_None_2.
Qed.

Lemma drop_at {A} (l : list A) (p : nat) (x : A) :
  l !! p = Some x -> drop p l = x :: drop (S p) l.
Proof.
  revert p; induction l as [|y l IH]; intros [|p] H; simpl in *; try done.
  - by inversion H.
  - by apply IH.
Qed.

(** [_skip_whitespace] moves the cursor over whitespace only, and with
    enough fuel it stops on a character that is not whitespace or at the
    end. *)
Lemma skip_whitespace_spec (fuel : nat) (l : Lexer) :
  synced l ->
  length (PyStr.chars (input_string l)) - position l <= fuel ->
  let l' := _skip_whitespace fuel l in
  synced l'
  /\ input_string l' = input_string l
  /\ tokens l' = tokens l /\ errors l' = errors l
  /\ position l <= position l'
  /\ tokens_from (position l) (drop (position l) (PyStr.chars (input_string l)))
     = tokens_from (position l') (drop (position l') (PyStr.chars (input_string l)))
  /\ errors_from (position l) (drop (position l) (PyStr.chars (input_string l)))
     = errors_from (position l') (drop (position l') (PyStr.chars (input_string l)))
  /\ (forall c, current_char l = Some c -> PyStr.isspace c = true ->
      position l < position l').
Proof.
  revert l; induction fuel as [|fuel IH]; intros l Hs Hfuel; simpl.
  - repeat split; try done.
    intros c Hc _. unfold synced in Hs. rewrite Hc in Hs.
    symmetry in Hs. apply lookup_lt_Some in Hs. lia.
  - destruct (current_char l) as [c|] eqn:Hc; [|repeat split; done].
    destruct (PyStr.isspace c) eqn:Hsp; [|repeat split; try done; congruence].
    assert (Hlk : PyStr.chars (input_string l) !! position l = Some c)
      by (unfold synced in Hs; congruence).
    pose proof (lookup_lt_Some _ _ _ Hlk) as Hlt.
    destruct (IH (_advance l) (advance_synced l)) as (H1 & H2 & H3 & H4 & H5 & H6 & H7 & _).
    { simpl. lia. }
    simpl in *.
    repeat split; try done; try lia.
    + rewrite <- H6. rewrite (drop_at _ _ _ Hlk). simpl. rewrite Hsp.
      by replace (position l + 1) with (S (position l)) by lia.
    + rewrite <- H7. rewrite (drop_at _ _ _ Hlk). simpl. rewrite Hsp. simpl.
      by replace (position l + 1) with (S (position l)) by lia.
Qed.

Lemma get_next_token_spec (c : ascii) (l : Lexer) :
  PyStr.isspace c = false ->
  let '(l', tok) := _get_next_token c l in
  synced l' /\ input_string l' = input_string l
  /\ position l' = S (position l)
  /\ tokens l' = tokens l
  /\ tok = token_at (position l) c
  /\ errors l' = errors l ++ errors_from (position l) [c].
Proof.
  intros Hsp. cbn [errors_from].
  unfold _get_next_token, token_at, kind_of, is_valid_character.
  rewrite Hsp. cbn [orb].
  destruct (Ascii.eqb c "+") eqn:E1;
    [|destruct (Ascii.eqb c "*") eqn:E2;
      [|destruct (Ascii.eqb c "(") eqn:E3;
        [|destruct (Ascii.eqb c ")") eqn:E4;
          [|destruct (PyStr.isalnum c) eqn:E5]]]];
    rewrite ?orb_true_r, ?orb_false_r; cbn [orb]; cbn [errors fst snd];
    repeat split; rewrite ?app_nil_r;
    try done; try apply advance_synced; try (cbn; lia).
  all: try (apply Ascii.eqb_eq in E1; by subst).
  all: try (apply Ascii.eqb_eq in E2; by subst).
  all: try (apply Ascii.eqb_eq in E3; by subst).
  all: try (apply Ascii.eqb_eq in E4; by subst).
Qed.

(** The main loop: with fuel for every remaining character it exits with
    [current_char = None], having appended the tokens and errors of the
    remaining characters. *)
Lemma tokenize_loop_spec (fuel : nat) (l : Lexer) :
  synced l ->
  length (PyStr.chars (input_string l)) - position l <= fuel ->
  let l' := tokenize_loop fuel l in
  current_char l' = None
  /\ input_string l' = input_string l
  /\ tokens l'
     = tokens l
       ++ tokens_from (position l) (drop (position l) (PyStr.chars (input_string l)))
  /\ errors l'
     = errors l
       ++ errors_from (position l) (drop (position l) (PyStr.chars (input_string l))).
Proof.
  revert l; induction fuel as [|fuel IH]; intros l Hs Hfuel.
  - assert (Hge : length (PyStr.chars (input_string l)) <= position l) by lia.
    simpl. unfold synced in Hs. rewrite Hs.
    rewrite (lookup_ge_None_2 _ _ Hge), (drop_ge _ _ Hge). simpl.
    by rewrite !app_nil_r.
  - simpl. destruct (current_char l) as [c|] eqn:Hc.
    2:{ unfold synced in Hs. rewrite Hc in Hs. symmetry in Hs.
        apply lookup_ge_None_1 in Hs. rewrite (drop_ge _ _ Hs). simpl.
        by rewrite !app_nil_r. }
    assert (Hlk : PyStr.chars (input_string l) !! position l = Some c)
      by (unfold synced in Hs; congruence).
    pose proof (lookup_lt_Some _ _ _ Hlk) as Hlt.
    destruct (PyStr.isspace c) eqn:Hsp.
    + destruct (skip_whitespace_spec
                  (length (PyStr.chars (input_string l)) - position l) l Hs)
        as (H1 & H2 & H3 & H4 & H5 & H6 & H7 & H8); [lia|].
      rewrite chars_length.
      specialize (H8 c Hc Hsp).
      set (l1 := _skip_whitespace _ l) in *.
      destruct (IH l1 H1) as (G1 & G2 & G3 & G4); [rewrite H2; lia|].
      rewrite G1, G2, G3, G4, H2, H3, H4, H6, H7. done.
    + pose proof (get_next_token_spec c l Hsp) as Hn.
      destruct (_get_next_token c l) as [l1 tok].
      destruct Hn as (H1 & H2 & H3 & H4 & H5 & H6).
      destruct (IH (append_token l1 tok)) as (G1 & G2 & G3 & G4).
      { unfold synced in *; simpl; done. }
      { simpl. rewrite H2, H3. lia. }
      simpl in *.
      rewrite G1, G2, G3, G4, H2, H3, H4, H5, H6.
      rewrite (drop_at _ _ _ Hlk). simpl. rewrite Hsp. simpl.
      rewrite <- !app_assoc. simpl.
      repeat split; try done.
      destruct (is_valid_character c); simpl; done.
Qed.

End LexerLoops.

(* ===================================================================== *)
(** ** What [tokenize] returns *)
(* ===================================================================== *)

Section Tokenize.

Import Lexer Scan.

Lemma invalid_char_iff (c : ascii) :
  invalid_char c <-> is_valid_character c = false.
Proof.
  unfold invalid_char, is_valid_character.
  rewrite !orb_false_iff, !list_elem_of_In. simpl.
  rewrite !Ascii.eqb_neq. intuition congruence.
Qed.

Lemma isspace_valid (c : ascii) :
  PyStr.isspace c = true -> is_valid_character c = true.
Proof. unfold is_valid_character. intros ->. apply orb_true_r. Qed.

Lemma kind_of_invalid (c : ascii) :
  PyStr.isspace c = false ->
  kind_of c = INVALID <-> is_valid_character c = false.
Proof.
  intros Hsp. unfold kind_of, is_valid_character. rewrite Hsp.
  destruct (Ascii.eqb c "+"), (Ascii.eqb c "*"), (Ascii.eqb c "("),
    (Ascii.eqb c ")"), (PyStr.isalnum c); simpl; split; congruence.
Qed.

Lemma kind_of_char_kind (c : ascii) :
  kind_of c <> INVALID -> char_kind c (kind_of c).
Proof.
  unfold kind_of.
  destruct (Ascii.eqb_spec c "+"); [by constructor|].
  destruct (Ascii.eqb_spec c "*"); [by constructor|].
  destruct (Ascii.eqb_spec c "("); [by constructor|].
  destruct (Ascii.eqb_spec c ")"); [by constructor|].
  destruct (PyStr.isalnum c) eqn:E; [by constructor|done].
Qed.

Lemma tokens_from_filter (p : nat) (cs : list ascii) :
  tokens_from p cs
  = map (fun ic => token_at ic.1 ic.2)
      (filter (fun ic => PyStr.isspace ic.2 = false)
         (imap (fun i c => (p + i, c)) cs)).
Proof.
  revert p; induction cs as [|c cs IH]; intros p; [done|].
  cbn [tokens_from]. rewrite imap_cons, filter_cons. cbn [fst snd].
  rewrite (imap_ext _ (fun i c => (S p + i, c)))
    by (intros; simpl; f_equal; lia).
  rewrite IH, Nat.add_0_r.
  destruct (PyStr.isspace c) eqn:E; by case_decide.
Qed.

Lemma errors_from_filter (p : nat) (cs : list ascii) :
  errors_from p cs
  = map (fun ic => error_at ic.1 ic.2)
      (filter (fun ic => is_valid_character ic.2 = false)
         (imap (fun i c => (p + i, c)) cs)).
Proof.
  revert p; induction cs as [|c cs IH]; intros p; [done|].
  cbn [errors_from]. rewrite imap_cons, filter_cons. cbn [fst snd].
  rewrite (imap_ext _ (fun i c => (S p + i, c)))
    by (intros; simpl; f_equal; lia).
  rewrite IH, Nat.add_0_r.
  destruct (PyStr.isspace c) eqn:Hsp.
  - rewrite (isspace_valid _ Hsp). by case_decide.
  - cbn [orb]. destruct (is_valid_character c); by case_decide.
Qed.

(** The first recorded error is at the first invalid character. *)
Lemma errors_from_first (p : nat) (cs : list ascii) (e : Exn) (es : list Exn) :
  errors_from p cs = e :: es ->
  exists i c, cs !! i = Some c /\ is_valid_character c = false
    /\ e = error_at (p + i) c
    /\ forall j c', j < i -> cs !! j = Some c' -> is_valid_character c' = true.
Proof.
  revert p; induction cs as [|c cs IH]; intros p H; [done|].
  simpl in H.
  destruct (PyStr.isspace c || is_valid_character c) eqn:E.
  - destruct (IH _ H) as (i & c0 & H1 & H2 & H3 & H4).
    exists (S i), c0. repeat split; try done.
    + rewrite H3. f_equal. lia.
    + intros [|j] c' Hj Hc'; simpl in Hc'.
      * inversion Hc'; subst. apply orb_true_iff in E as [E|E]; [|done].
        by apply isspace_valid.
      * apply (H4 j); [lia|done].
  - apply orb_false_iff in E as [_ E]. inversion H; subst.
    exists 0, c. repeat split; try done.
    + by rewrite Nat.add_0_r.
    + intros; lia.
Qed.

Lemma errors_from_nil (p : nat) (cs : list ascii) :
  errors_from p cs = [] <-> Forall (fun c => is_valid_character c = true) cs.
Proof.
  revert p; induction cs as [|c cs IH]; intros p; simpl; [done|].
  rewrite Forall_cons.
  destruct (PyStr.isspace c) eqn:Hsp; simpl.
  - rewrite IH. pose proof (isspace_valid _ Hsp). tauto.
  - destruct (is_valid_character c); [rewrite IH; tauto|].
    split; [done | intros [? _]; done].
Qed.

Lemma tokens_from_valid (p : nat) (cs : list ascii) :
  Forall (fun c => is_valid_character c = true) cs ->
  Forall (fun t => Token.type t <> INVALID) (tokens_from p cs).
Proof.
  revert p; induction cs as [|c cs IH]; intros p H; simpl; [done|].
  apply Forall_cons in H as [Hc H].
  destruct (PyStr.isspace c) eqn:Hsp; [by apply IH|].
  constructor; [|by apply IH].
  simpl. intros E. apply kind_of_invalid in E; [congruence | done].
Qed.

(** [tokenize] in one equation: the outcome and the lexer it leaves. *)
Lemma tokenize_spec (self : Lexer) (input : string) :
  let cs := PyStr.chars (PyStr.strip input) in
  let '(self', outcome) := tokenize self input in
  match cs with
  | [] => outcome = Raise EmptyInputError
  | _ :: _ =>
      current_char self' = None
      /\ tokens self' = tokens_from 0 cs
      /\ errors self' = errors_from 0 cs
      /\ outcome = match errors_from 0 cs with
                   | e :: _ => Raise e
                   | [] => Return (tokens_from 0 cs)
                   end
  end.
Proof.
  unfold tokenize. rewrite chars_length.
  destruct (PyStr.chars (PyStr.strip input)) as [|c cs] eqn:Hcs; [done|].
  change (length (c :: cs) =? 0) with false. cbv iota.
  match goal with
  | |- context [tokenize_loop ?f ?l] =>
      destruct (tokenize_loop_spec f l) as (H1 & H2 & H3 & H4);
      [ | | set (l' := tokenize_loop f l) in * ]
  end.
  { unfold synced. cbn [current_char input_string position].
    by rewrite chars_get. }
  { cbn [current_char input_string position]. rewrite Hcs. lia. }
  cbn [current_char input_string position tokens errors] in H2, H3, H4.
  rewrite Hcs in H3, H4. rewrite drop_0 in H3, H4.
  rewrite app_nil_l in H3, H4.
  rewrite H4.
  destruct (errors_from 0 (c :: cs)) eqn:He; rewrite ?H3; done.
Qed.

End Tokenize.

(** C3.  The outcome of [tokenize] on any input: [EmptyInputError] exactly
    when the stripped input is empty; a [LexicalError] exactly when the
    stripped input is not empty and has an invalid character, and then the
    error is the one of the leftmost invalid character, while the lexer has
    recorded an error for every invalid character (the scan went on to the
    end); in every other case the token list is returned, and a returned
    list has no token of kind [INVALID]. *)
Theorem tokenize_outcome (self : Lexer.Lexer) (input : string) :
  let trimmed := PyStr.chars (PyStr.strip input) in
  let outcome := snd (Lexer.tokenize self input) in
  (outcome = Raise EmptyInputError <-> length trimmed = 0)
  /\ ((exists message position character,
          outcome = Raise (LexicalError message position character))
      <-> length trimmed <> 0 /\ exists c, c ∈ trimmed /\ invalid_char c)
  /\ (forall message position character,
        outcome = Raise (LexicalError message position character) ->
        exists c,
          trimmed !! position = Some c /\ invalid_char c
          /\ (forall j c', j < position -> trimmed !! j = Some c' ->
              ~ invalid_char c')
          /\ character = PyStr.of_char c
          /\ message = "Invalid character '" +:+ PyStr.of_char c +:+ "' found"
          /\ Lexer.errors (fst (Lexer.tokenize self input))
             = map (fun ic => Scan.error_at ic.1 ic.2) (invalid_chars trimmed))
  /\ ((length trimmed <> 0 /\ forall c, c ∈ trimmed -> ~ invalid_char c)
      <-> exists toks, outcome = Return toks)
  /\ (forall toks, outcome = Return toks ->
      Forall (fun t => Token.type t <> INVALID) toks).
Proof.
  intros trimmed outcome. subst outcome.
  pose proof (Scan_facts := tokenize_spec self input).
  fold trimmed in Scan_facts. simpl in Scan_facts.
  destruct (Lexer.tokenize self input) as [self' outcome]. simpl.
  destruct trimmed as [|c0 cs] eqn:Htr.
  { subst outcome. refine (conj _ (conj _ (conj _ (conj _ _)))); try done.
    - split; [by intros (? & ? & ? & ?) | by intros [? _]].
    - split; [by intros [? _] | by intros [? ?]]. }
  destruct Scan_facts as (Hcur & Htok & Herr & Hout).
  assert (Hvalid : forall l : list ascii,
             Forall (fun c => Lexer.is_valid_character c = true) l
             <-> forall c, c ∈ l -> ~ invalid_char c).
  { intros l. rewrite Forall_forall. split; intros H c Hc.
    - rewrite invalid_char_iff. rewrite (H c Hc). done.
    - specialize (H c Hc). rewrite invalid_char_iff in H.
      by destruct (Lexer.is_valid_character c). }
  destruct (Scan.errors_from 0 (c0 :: cs)) as [|e es] eqn:He.
  - apply errors_from_nil in He. subst outcome.
    refine (conj _ (conj _ (conj _ (conj _ _)))); try done.
    + split; [by intros (? & ? & ? & ?)|].
      intros (_ & c & Hc & Hinv). by destruct (proj1 (Hvalid _) He c Hc).
    + split; [by eauto|]. intros _. split; [done | exact (proj1 (Hvalid _) He)].
    + intros toks [= <-]. exact (tokens_from_valid 0 (c0 :: cs) He).
  - destruct (errors_from_first _ _ _ _ He) as (i & c & Hi & Hc & -> & Hbefore).
    subst outcome. simpl.
    refine (conj _ (conj _ (conj _ (conj _ _)))); try done.
    + split.
      * intros _. split; [done|]. exists c. split.
        -- apply list_elem_of_lookup. eauto.
        -- by apply invalid_char_iff.
      * intros _. unfold Scan.error_at. eauto.
    + intros message position character [= <- <- <-].
      exists c. refine (conj _ (conj _ (conj _ (conj _ (conj _ _))))); try done.
      * by apply invalid_char_iff.
      * intros j c' Hj Hc'. rewrite invalid_char_iff.
        rewrite (Hbefore j c' Hj Hc'). done.
      * rewrite Herr, <- He, errors_from_filter. unfold invalid_chars.
        by rewrite (imap_ext _ pair) by done.
    + split; [|by intros [? ?]].
      intros [_ H]. apply (proj2 (Hvalid _)) in H. apply errors_from_nil with (p := 0) in H.
      congruence.
Qed.

(** C5.  On a successful [tokenize] the returned list has one token per
    character of the stripped input that is not whitespace, in order; the
    token's text is that character, its position is the 0-based offset of
    the character in the stripped input, and its kind is the one of the
    character. *)
Theorem tokenize_tokens (self : Lexer.Lexer) (input : string)
    (toks : list Token) :
  snd (Lexer.tokenize self input) = Return toks ->
  Forall2
    (fun tok ic =>
       Token.value tok = PyStr.of_char ic.2
       /\ Token.position tok = ic.1
       /\ char_kind ic.2 (Token.type tok))
    toks (non_whitespace (PyStr.chars (PyStr.strip input))).
Proof.
  intros Hret.
  pose proof (Scan_facts := tokenize_spec self input).
  cbv zeta in Scan_facts.
  destruct (Lexer.tokenize self input) as [self' outcome]. simpl in Hret.
  subst outcome.
  destruct (PyStr.chars (PyStr.strip input)) as [|c0 cs] eqn:Htr; [done|].
  destruct Scan_facts as (_ & _ & _ & Hout).
  destruct (Scan.errors_from 0 (c0 :: cs)) eqn:Herr; [|done].
  assert (toks = Scan.tokens_from 0 (c0 :: cs)) as -> by congruence.
  apply errors_from_nil in Herr.
  pose proof (tokens_from_valid 0 _ Herr) as Hvalid.
  rewrite tokens_from_filter in Hvalid |- *.
  rewrite (imap_ext (fun i c => (0 + i, c)) pair) in Hvalid |- * by done.
  unfold non_whitespace.
  induction (filter _ _) as [|[i c] l IH]; simpl in *; [constructor|].
  apply Forall_cons in Hvalid as [Hc Hl].
  constructor; [|by apply IH].
  simpl. repeat split; try done. by apply kind_of_char_kind.
Qed.

Lemma tokenize_tokens_witness :
  Forall2
    (fun tok ic =>
       Token.value tok = PyStr.of_char ic.2
       /\ Token.position tok = ic.1
       /\ char_kind ic.2 (Token.type tok))
    [Token.new ID "a" 0; Token.new PLUS "+" 2; Token.new ID "7" 3]
    (non_whitespace (PyStr.chars (PyStr.strip "  a +7 "))).
Proof.
  apply (tokenize_tokens Lexer.new "  a +7 "). vm_compute. reflexivity.
Defined.

(* ===================================================================== *)
(** ** The semantic pre-checks *)
(* ===================================================================== *)

Section SemanticChecks.

Import Parser.

Lemma paren_count_app (l1 l2 : list Token) :
  paren_count (l1 ++ l2) = (paren_count l1 + paren_count l2)%Z.
Proof. induction l1 as [|t l1 IH]; simpl; [done | rewrite IH; lia]. Qed.

Lemma paren_count_take_S (l : list Token) (i : nat) (t : Token) :
  l !! i = Some t ->
  paren_count (take (S i) l) = (paren_count (take i l) + paren_delta t)%Z.
Proof.
  intros H. rewrite (take_S_r _ _ _ H), paren_count_app. simpl. lia.
Qed.

Lemma check_consecutive_operators_step (a b : Token) (toks : list Token) :
  check_consecutive_operators (a :: b :: toks)
  = if TokenType.is_operator (Token.type a)
       && TokenType.is_operator (Token.type b)
    then Raise (SemanticError
                  ("Consecutive operators '" +:+ Token.value a +:+ "' and '"
                   +:+ Token.value b +:+ "' are not allowed")
                  (Some (Token.position a)) (Some a) "operator sequence")
    else check_consecutive_operators (b :: toks).
Proof. reflexivity. Qed.

(** The loop over adjacent pairs: it passes when no two neighbours are
    operators, and otherwise raises at the leftmost such pair. *)
Lemma check_consecutive_operators_spec (toks : list Token) :
  match check_consecutive_operators toks with
  | Return _ => forall i, ~ consecutive_operators_at toks i
  | Raise e =>
      exists i a b,
        toks !! i = Some a /\ toks !! S i = Some b /\ is_op a /\ is_op b
        /\ (forall j, j < i -> ~ consecutive_operators_at toks j)
        /\ e = SemanticError
                 ("Consecutive operators '" +:+ Token.value a +:+ "' and '"
                  +:+ Token.value b +:+ "' are not allowed")
                 (Some (Token.position a)) (Some a) "operator sequence"
  | Exhausted => False
  end.
Proof.
  induction toks as [|a toks IH].
  { simpl. intros i (? & ? & ? & _); done. }
  destruct toks as [|b toks].
  { simpl. intros [|i] (? & ? & ? & ? & _); done. }
  rewrite check_consecutive_operators_step.
  destruct (TokenType.is_operator (Token.type a)
            && TokenType.is_operator (Token.type b)) eqn:E.
  - apply andb_true_iff in E as [Ea Eb].
    exists 0, a, b. repeat split; try done. intros; lia.
  - destruct (check_consecutive_operators (b :: toks)) as [[]|e|].
    + intros [|i] (x & y & Hx & Hy & Ox & Oy).
      * simpl in Hx, Hy. inversion Hx; inversion Hy; subst.
        unfold is_op in *. rewrite Ox, Oy in E. done.
      * apply (IH i). exists x, y. done.
    + destruct IH as (i & x & y & Hx & Hy & Ox & Oy & Hleast & ->).
      exists (S i), x, y. repeat split; try done.
      intros [|j] Hj (x' & y' & Hx' & Hy' & Ox' & Oy').
      * simpl in Hx', Hy'. inversion Hx'; inversion Hy'; subst.
        unfold is_op in *. rewrite Ox', Oy' in E. done.
      * apply (Hleast j); [lia|]. exists x', y'. done.
    + done.
Qed.

(** The loop over the parentheses, entered with a counter that is not
    negative: it returns the final counter when the counter never goes
    negative, and otherwise raises at the first token that would make it
    negative. *)
Lemma check_parentheses_spec (n : Z) (toks : list Token) :
  (0 <= n)%Z ->
  match check_parentheses n toks with
  | Return m =>
      m = (n + paren_count toks)%Z
      /\ forall j, (0 <= n + paren_count (take j toks))%Z
  | Raise e =>
      exists i tok,
        toks !! i = Some tok /\ Token.type tok = RPAREN
        /\ (n + paren_count (take i toks) = 0)%Z
        /\ (forall j, j <= i -> (0 <= n + paren_count (take j toks))%Z)
        /\ e = SemanticError "Unmatched closing parenthesis"
                 (Some (Token.position tok)) (Some tok) "parentheses balance"
  | Exhausted => False
  end.
Proof.
  revert n; induction toks as [|t toks IH]; intros n Hn.
  { simpl. split; [lia|]. intros j. rewrite take_nil. simpl. lia. }
  cbn [check_parentheses]. unfold paren_count; fold paren_count.
  destruct (Token.type t) eqn:Ety; cbn [TokenType.eqb].
  all: try (specialize (IH n Hn);
            destruct (check_parentheses n toks) as [m|e|]; [| |done];
            [ destruct IH as [-> IH]; unfold paren_delta; rewrite Ety;
              split; [lia|];
              intros [|j]; simpl; [lia|]; unfold paren_delta; rewrite Ety;
              specialize (IH j); lia
            | destruct IH as (i & tok & H1 & H2 & H3 & H4 & ->);
              exists (S i), tok; simpl; unfold paren_delta; rewrite Ety;
              repeat split; try done; try lia;
              intros [|j] Hj; simpl; [lia|]; unfold paren_delta; rewrite Ety;
              specialize (H4 j); lia ]).
  - specialize (IH (n + 1)%Z ltac:(lia)).
    destruct (check_parentheses (n + 1) toks) as [m|e|]; [| |done].
    + destruct IH as [-> IH]. unfold paren_delta; rewrite Ety.
      split; [lia|].
      intros [|j]; simpl; [lia|]. unfold paren_delta; rewrite Ety.
      specialize (IH j); lia.
    + destruct IH as (i & tok & H1 & H2 & H3 & H4 & ->).
      exists (S i), tok; simpl. unfold paren_delta; rewrite Ety.
      repeat split; try done; try lia.
      intros [|j] Hj; simpl; [lia|]. unfold paren_delta; rewrite Ety.
      specialize (H4 j); lia.
  - destruct (Z.ltb_spec (n - 1) 0).
    + exists 0, t. simpl. repeat split; try done; try lia.
      intros j Hj. assert (j = 0) as -> by lia. simpl. lia.
    + specialize (IH (n - 1)%Z ltac:(lia)).
      destruct (check_parentheses (n - 1) toks) as [m|e|]; [| |done].
      * destruct IH as [-> IH]. unfold paren_delta; rewrite Ety.
        split; [lia|].
        intros [|j]; simpl; [lia|]. unfold paren_delta; rewrite Ety.
        specialize (IH j); lia.
      * destruct IH as (i & tok & H1 & H2 & H3 & H4 & ->).
        exists (S i), tok; simpl. unfold paren_delta; rewrite Ety.
        repeat split; try done; try lia.
        intros [|j] Hj; simpl; [lia|]. unfold paren_delta; rewrite Ety.
        specialize (H4 j); lia.
Qed.

Lemma list_last_lookup (l : list Token) (d : Token) :
  l <> [] -> l !! (length l - 1) = Some (List.last l d).
Proof.
  induction l as [|x l IH]; [done|]. intros _.
  destruct l as [|y l]; [done|].
  change (List.last (x :: y :: l) d) with (List.last (y :: l) d).
  replace (length (x :: y :: l) - 1) with (S (length (y :: l) - 1))
    by (simpl; lia).
  apply IH. done.
Qed.

End SemanticChecks.

Section SemanticVerdict.

Import Parser.

Lemma semantic_analysis_verdict (toks : list Token) :
  toks <> [] -> semantic_verdict toks (_perform_semantic_analysis toks).
Proof.
  intros Hne. destruct toks as [|first rest]; [done|].
  unfold _perform_semantic_analysis.
  remember (first :: rest) as toks eqn:Htoks.
  pose proof (check_consecutive_operators_spec toks) as Hc.
  destruct (check_consecutive_operators toks) as [[]|e|]; [| |done].
  2:{ destruct Hc as (i & a & b & H1 & H2 & H3 & H4 & H5 & ->).
      by apply (verdict_consecutive toks i a b). }
  assert (Hnc : ~ has_consecutive_operators toks) by (intros [i Hi]; by apply (Hc i)).
  assert (Hhead : head toks = Some first) by (by rewrite Htoks).
  destruct (TokenType.is_operator (Token.type first)) eqn:Hfirst.
  { by apply verdict_start. }
  assert (Hns : ~ starts_with_operator toks).
  { intros (t & Ht & Hop). rewrite Hhead in Ht. inversion Ht; subst t.
    unfold is_op in Hop. congruence. }
  pose proof (list_last_lookup toks first Hne) as Hlast.
  assert (Hlast' : last toks = Some (List.last toks first)).
  { rewrite last_lookup. rewrite <- Hlast. f_equal. lia. }
  destruct (TokenType.is_operator (Token.type (List.last toks first))) eqn:Hend.
  { by apply verdict_end. }
  assert (Hne' : ~ ends_with_operator toks).
  { intros (t & Ht & Hop). rewrite Hlast' in Ht. inversion Ht; subst t.
    unfold is_op in Hop. congruence. }
  pose proof (check_parentheses_spec 0 toks ltac:(lia)) as Hp.
  destruct (check_parentheses 0 toks) as [m|e|]; [| |done].
  - destruct Hp as [-> Hp]. rewrite Z.add_0_l.
    assert (Hnn : never_negative toks).
    { intros j. specialize (Hp j). lia. }
    destruct (Z.gtb_spec (paren_count toks) 0).
    + by apply verdict_opening.
    + apply verdict_pass; try done.
      specialize (Hnn (length toks)). rewrite firstn_all in Hnn. lia.
  - destruct Hp as (i & tok & H1 & H2 & H3 & H4 & ->).
    apply (verdict_closing toks i tok); try done.
    rewrite (paren_count_take_S _ _ _ H1). unfold paren_delta.
    rewrite H2. lia.
Qed.

(** A semantic error is what [parse] raises. *)
Lemma parse_semantic_error (depth : nat) (self : Parser)
    (toks : list Token) (e : Exn) :
  _perform_semantic_analysis toks = Raise e ->
  snd (parse depth self toks) = Raise e.
Proof.
  intros H. unfold parse.
  destruct toks as [|first rest]; [done|]. by rewrite H.
Qed.

(** Two verdicts of the same list agree. *)
Lemma semantic_verdict_unique (toks : list Token) (o1 o2 : Outcome unit) :
  semantic_verdict toks o1 -> semantic_verdict toks o2 -> o1 = o2.
Proof.
  assert (Hcons : forall i a b, toks !! i = Some a -> toks !! S i = Some b ->
                    is_op a -> is_op b -> has_consecutive_operators toks).
  { intros i a b ????. exists i, a, b. done. }
  assert (Hstart : forall t, head toks = Some t -> is_op t ->
                     starts_with_operator toks) by (intros t ??; by exists t).
  assert (Hend : forall t, last toks = Some t -> is_op t ->
                     ends_with_operator toks) by (intros t ??; by exists t).
  assert (Hneg : forall i tok, toks !! i = Some tok ->
                   (paren_count (take (S i) toks) < 0)%Z ->
                   ~ never_negative toks).
  { intros i tok _ Hlt Hnn. specialize (Hnn (S i)). lia. }
  intros [i a b H1 H2 H3 H4 H5|first N1 H1 H2|l N1 N2 H1 H2
         |i tok N1 N2 N3 H1 H2 H3|N1 N2 N3 H1 H2|N1 N2 N3 H1 H2];
  intros [i' a' b' G1 G2 G3 G4 G5|first' M1 G1 G2|l' M1 M2 G1 G2
         |i' tok' M1 M2 M3 G1 G2 G3|M1 M2 M3 G1 G2|M1 M2 M3 G1 G2];
    try (exfalso; eauto; fail); try done; try lia.
  - assert (i = i').
    { destruct (Nat.lt_total i i') as [Hlt|[Heq|Hlt]]; [|done|].
      - destruct (G5 i Hlt). exists a, b. done.
      - destruct (H5 i' Hlt). exists a', b'. done. }
    subst i'. congruence.
  - congruence.
  - congruence.
  - assert (i = i').
    { destruct (Nat.lt_total i i') as [Hlt|[Heq|Hlt]]; [|done|].
      - specialize (G2 (S i) ltac:(lia)). lia.
      - specialize (H2 (S i') ltac:(lia)). lia. }
    subst i'. congruence.
  - exfalso. by apply (Hneg i tok).
  - exfalso. by apply (Hneg i tok).
  - exfalso. by apply (Hneg i' tok').
  - exfalso. by apply (Hneg i' tok').
Qed.

End SemanticVerdict.

(** C4.  The semantic pre-checks of [parse] report the first violated rule
    in the order: empty sequence; two neighbouring operators anywhere (the
    leftmost pair); operator first; operator last; parentheses, where an
    unmatched closing parenthesis is reported at the first token that would
    make the running counter negative, and a counter left positive after the
    whole scan is reported with its value.  The single token [)] gets the
    parenthesis error, and a sequence that starts with an operator and has
    two neighbouring operators gets the consecutive-operators error. *)
Theorem semantic_checks_order (depth : nat) (self : Parser.Parser)
    (toks : list Token) :
  let outcome := snd (Parser.parse depth self toks) in
  (toks = [] -> outcome = Raise (UnexpectedEndOfInputError "expression"))
  /\ (forall i a b,
        toks !! i = Some a -> toks !! S i = Some b -> is_op a -> is_op b ->
        (forall j, j < i -> ~ consecutive_operators_at toks j) ->
        outcome = Raise (consecutive_operators_error a b))
  /\ (forall first,
        ~ has_consecutive_operators toks ->
        head toks = Some first -> is_op first ->
        outcome = Raise (starts_with_operator_error first))
  /\ (forall last_token,
        ~ has_consecutive_operators toks -> ~ starts_with_operator toks ->
        last toks = Some last_token -> is_op last_token ->
        outcome = Raise (ends_with_operator_error last_token))
  /\ (forall i tok,
        ~ has_consecutive_operators toks -> ~ starts_with_operator toks ->
        ~ ends_with_operator toks ->
        toks !! i = Some tok ->
        (forall j, j <= i -> (0 <= paren_count (take j toks))%Z) ->
        (paren_count (take (S i) toks) < 0)%Z ->
        outcome = Raise (unmatched_closing_error tok))
  /\ (toks <> [] ->
      ~ has_consecutive_operators toks -> ~ starts_with_operator toks ->
      ~ ends_with_operator toks ->
      never_negative toks -> (0 < paren_count toks)%Z ->
      outcome = Raise (unmatched_opening_error (paren_count toks)))
  /\ (toks <> [] ->
      ~ has_consecutive_operators toks -> ~ starts_with_operator toks ->
      ~ ends_with_operator toks ->
      never_negative toks -> paren_count toks = 0%Z ->
      Parser._perform_semantic_analysis toks = Return tt)
  /\ (forall p,
        snd (Parser.parse depth self [Token.new RPAREN ")" p])
        = Raise (unmatched_closing_error (Token.new RPAREN ")" p)))
  /\ (starts_with_operator toks -> has_consecutive_operators toks ->
      exists a b, is_op a /\ is_op b
        /\ outcome = Raise (consecutive_operators_error a b)).
Proof.
  intros outcome.
  assert (Hverdict : forall o, toks <> [] -> semantic_verdict toks o ->
                       Parser._perform_semantic_analysis toks = o).
  { intros o Hne Ho.
    apply (semantic_verdict_unique toks); [|done].
    by apply semantic_analysis_verdict. }
  assert (Hraise : forall e, toks <> [] -> semantic_verdict toks (Raise e) ->
                     outcome = Raise e).
  { intros e Hne He. apply parse_semantic_error. by apply Hverdict. }
  refine (conj _ (conj _ (conj _ (conj _ (conj _ (conj _ (conj _ (conj _ _)))))))).
  - intros ->. done.
  - intros i a b H1 H2 H3 H4 H5. apply Hraise.
    + intros ->. done.
    + by apply (verdict_consecutive toks i a b).
  - intros first N1 H1 H2. apply Hraise.
    + intros ->. done.
    + by apply verdict_start.
  - intros l N1 N2 H1 H2. apply Hraise.
    + intros ->. done.
    + by apply verdict_end.
  - intros i tok N1 N2 N3 H1 H2 H3. apply Hraise.
    + intros ->. done.
    + by apply (verdict_closing toks i tok).
  - intros Hne N1 N2 N3 H1 H2. apply Hraise; [done|]. by apply verdict_opening.
  - intros Hne N1 N2 N3 H1 H2. apply Hverdict; [done|]. by apply verdict_pass.
  - intros p. reflexivity.
  - intros (first & Hfirst & _) [i Hi].
    assert (Hne : toks <> []) by (intros ->; done).
    pose proof (semantic_analysis_verdict toks Hne) as Hv.
    inversion Hv as [i' a b H1 H2 H3 H4 H5 Heq|? N1|? N1|? ? N1|N1|N1];
      try (destruct N1; by exists i).
    exists a, b. repeat split; try done.
    apply parse_semantic_error. done.
Qed.

(* ===================================================================== *)
(** ** The parsing routines, one step at a time *)
(* ===================================================================== *)

Section ParserSteps.

Import Parser.

Lemma bind_new_node {B} (rule : string) (token : option Token)
    (k : ParseTreeNode -> M B) (p : Parser) :
  bind (new_node rule token) k p = k (fresh rule token p) (bump p).
Proof. reflexivity. Qed.

Lemma bind_get_current_token {B} (k : option Token -> M B) (p : Parser) :
  bind get_current_token k p = k (current_token p) p.
Proof. reflexivity. Qed.

Lemma bind_consume_token {B} (expected : TokenType) (k : unit -> M B)
    (p : Parser) :
  bind (_consume_token expected) k p
  = match current_token p with
    | None => (p, Raise (UnexpectedEndOfInputError (TokenType.name expected)))
    | Some tok =>
        if TokenType.eqb (Token.type tok) expected then k tt (advance p)
        else (p, Raise (ParserSyntaxError
                          ("Expected " +:+ TokenType.name expected)
                          (Some (Token.position tok)) (Some tok)
                          (Some (TokenType.name expected))))
    end.
Proof.
  unfold bind, _consume_token.
  destruct (current_token p) as [tok|]; [|done].
  destruct (TokenType.eqb (Token.type tok) expected); done.
Qed.

Lemma bind_ext {A B} (m : M A) (k1 k2 : A -> M B) (p : Parser) :
  (forall a p1, k1 a p1 = k2 a p1) -> bind m k1 p = bind m k2 p.
Proof.
  intros H. unfold bind. destruct (m p) as [p1 [a|e|]]; [apply H|done|done].
Qed.

Lemma parse_E_step (d : nat) (p : Parser) :
  _parse_E (S d) p
  = bind (_parse_T d)
      (fun t_node =>
         bind (_parse_E_prime d)
           (fun e_prime_node =>
              ret (ParseTreeNode.add_child
                     (ParseTreeNode.add_child (fresh "E" None p) t_node)
                     e_prime_node)))
      (bump p).
Proof. reflexivity. Qed.

Lemma parse_T_step (d : nat) (p : Parser) :
  _parse_T (S d) p
  = bind (_parse_F d)
      (fun f_node =>
         bind (_parse_T_prime d)
           (fun t_prime_node =>
              ret (ParseTreeNode.add_child
                     (ParseTreeNode.add_child (fresh "T" None p) f_node)
                     t_prime_node)))
      (bump p).
Proof. reflexivity. Qed.

Lemma parse_E_prime_step (d : nat) (p : Parser) :
  _parse_E_prime (S d) p
  = match current_token p with
    | Some tok =>
        if TokenType.eqb (Token.type tok) PLUS then
          bind (_parse_T d)
            (fun t_node =>
               bind (_parse_E_prime d)
                 (fun e_prime_node =>
                    ret (ParseTreeNode.add_child
                           (ParseTreeNode.add_child
                              (ParseTreeNode.add_child (fresh "E'" None p)
                                 (fresh "+" (Some tok) (bump p)))
                              t_node)
                           e_prime_node)))
            (advance (bump (bump p)))
        else (bump p, Return (fresh "E'" None p))
    | None => (bump p, Return (fresh "E'" None p))
    end.
Proof.
  cbn [_parse_E_prime]. rewrite bind_new_node, bind_get_current_token.
  change (current_token (bump p)) with (current_token p).
  destruct (current_token p) as [tok|] eqn:Hcur; [|done].
  destruct (TokenType.eqb (Token.type tok) PLUS) eqn:E; [|done].
  rewrite bind_new_node, bind_consume_token.
  change (current_token (bump (bump p))) with (current_token p).
  by rewrite Hcur, E.
Qed.

Lemma parse_T_prime_step (d : nat) (p : Parser) :
  _parse_T_prime (S d) p
  = match current_token p with
    | Some tok =>
        if TokenType.eqb (Token.type tok) MULTIPLY then
          bind (_parse_F d)
            (fun f_node =>
               bind (_parse_T_prime d)
                 (fun t_prime_node =>
                    ret (ParseTreeNode.add_child
                           (ParseTreeNode.add_child
                              (ParseTreeNode.add_child (fresh "T'" None p)
                                 (fresh "*" (Some tok) (bump p)))
                              f_node)
                           t_prime_node)))
            (advance (bump (bump p)))
        else (bump p, Return (fresh "T'" None p))
    | None => (bump p, Return (fresh "T'" None p))
    end.
Proof.
  cbn [_parse_T_prime]. rewrite bind_new_node, bind_get_current_token.
  change (current_token (bump p)) with (current_token p).
  destruct (current_token p) as [tok|] eqn:Hcur; [|done].
  destruct (TokenType.eqb (Token.type tok) MULTIPLY) eqn:E; [|done].
  rewrite bind_new_node, bind_consume_token.
  change (current_token (bump (bump p))) with (current_token p).
  by rewrite Hcur, E.
Qed.

Lemma parse_F_step (d : nat) (p : Parser) :
  _parse_F (S d) p
  = match current_token p with
    | None => (p, Raise (UnexpectedEndOfInputError "'(' or identifier"))
    | Some tok =>
        if TokenType.eqb (Token.type tok) LPAREN then
          bind (_parse_E d)
            (fun e_node =>
               let node :=
                 ParseTreeNode.add_child
                   (ParseTreeNode.add_child (fresh "F" None p)
                      (fresh "(" (Some tok) (bump p)))
                   e_node in
               fun p2 =>
                 let node :=
                   ParseTreeNode.add_child node
                     (fresh ")" (current_token p2) p2) in
                 match current_token p2 with
                 | None =>
                     (bump p2, Raise (UnexpectedEndOfInputError "RPAREN"))
                 | Some tok2 =>
                     if TokenType.eqb (Token.type tok2) RPAREN
                     then (advance (bump p2), Return node)
                     else (bump p2,
                           Raise (ParserSyntaxError "Expected RPAREN"
                                    (Some (Token.position tok2)) (Some tok2)
                                    (Some "RPAREN")))
                 end)
            (advance (bump (bump p)))
        else if TokenType.eqb (Token.type tok) ID then
          (advance (bump (bump p)),
           Return (ParseTreeNode.add_child (fresh "F" None p)
                     (fresh "id" (Some tok) (bump p))))
        else
          (bump p,
           Raise (ParserSyntaxError "Expected '(' or identifier"
                    (Some (Token.position tok)) (Some tok)
                    (Some "'(' or identifier")))
    end.
Proof.
  cbn [_parse_F]. rewrite bind_get_current_token.
  destruct (current_token p) as [tok|] eqn:Hcur; [|done].
  rewrite bind_new_node.
  destruct (TokenType.eqb (Token.type tok) LPAREN) eqn:E1.
  - rewrite bind_new_node, bind_consume_token.
    change (current_token (bump (bump p))) with (current_token p).
    rewrite Hcur, E1.
    apply bind_ext. intros e p2.
    rewrite bind_get_current_token, bind_new_node, bind_consume_token.
    change (current_token (bump p2)) with (current_token p2).
    destruct (current_token p2) as [tok2|]; [|done].
    destruct (TokenType.eqb (Token.type tok2) RPAREN); done.
  - destruct (TokenType.eqb (Token.type tok) ID) eqn:E2; [|done].
    rewrite bind_new_node, bind_consume_token.
    change (current_token (bump (bump p))) with (current_token p).
    by rewrite Hcur, E2.
Qed.

End ParserSteps.

(* ===================================================================== *)
(** ** What the parsing routines do *)
(* ===================================================================== *)

Section ParserInvariants.

Import Parser.

Lemma TokenType_eqb_eq (a b : TokenType) :
  TokenType.eqb a b = true <-> a = b.
Proof. destruct a, b; simpl; split; congruence. Qed.

Lemma in_sync_advance (p : Parser) : in_sync (advance p).
Proof.
  unfold in_sync, advance; simpl.
  destruct (Nat.ltb_spec (current_index p + 1) (length (tokens p))); [done|].
  symmetry. by apply lookup_ge_None_2.
Qed.

Lemma consumed_refl (p : Parser) : in_sync p -> consumed p p [].
Proof. intros H. unfold consumed. repeat split; try done. Qed.

Lemma consumed_trans (p p1 p2 : Parser) (ts1 ts2 : list Token) :
  consumed p p1 ts1 -> consumed p1 p2 ts2 -> consumed p p2 (ts1 ++ ts2).
Proof.
  intros (A1 & A2 & A3 & A4 & A5) (B1 & B2 & B3 & B4 & B5).
  unfold consumed. rewrite length_app.
  repeat split; try congruence; try lia.
  rewrite A5, <- app_assoc. f_equal. by rewrite A1 in B5.
Qed.

Lemma consumed_advance (p : Parser) (tok : Token) :
  in_sync p -> current_token p = Some tok -> consumed p (advance p) [tok].
Proof.
  intros Hs Hc. unfold consumed. repeat split; try done.
  - apply in_sync_advance.
  - simpl. rewrite Nat.add_1_r. apply drop_at.
    unfold in_sync in Hs. congruence.
Qed.

Lemma consumed_in_sync (p p' : Parser) (ts : list Token) :
  consumed p p' ts -> in_sync p'.
Proof. by intros (_ & _ & H & _). Qed.

Lemma derives_set_depth (X : Sym) (n : ParseTreeNode) (ts : list Token)
    (d : nat) :
  derives X n ts -> derives X (ParseTreeNode.set_depth n d) ts.
Proof. intros H. destruct H; simpl; by constructor. Qed.

Lemma terminal_intro (rule : string) (kind : TokenType) (tok : Token)
    (d : nat) (i : option nat) :
  TokenType.eqb (Token.type tok) kind = true ->
  terminal rule kind (Node rule [] (Some tok) None d i) tok.
Proof.
  intros H. apply TokenType_eqb_eq in H. unfold terminal. eauto.
Qed.

Lemma derives_paren_count (X : Sym) (n : ParseTreeNode) (ts : list Token) :
  derives X n ts -> paren_count ts = 0%Z.
Proof.
  induction 1 as [| |? ? ? ? ? ? ? ? (? & ? & _ & Hk)| |
                  |? ? ? ? ? ? ? ? (? & ? & _ & Hk)
                  |? ? ? ? (? & ? & _ & Hk)
                  |? ? ? ? ? ? ? ? (? & ? & _ & Hl) ? ? (? & ? & _ & Hr)];
    simpl; rewrite ?paren_count_app; simpl; unfold paren_delta;
    rewrite ?Hk, ?Hl, ?Hr; lia.
Qed.

(** A tree of [E], [T] or [F] has at least one terminal. *)
Lemma derives_progress (X : Sym) (n : ParseTreeNode) (ts : list Token) :
  derives X n ts -> strict_sym X = false -> 1 <= length ts.
Proof.
  induction 1; intros HX; try done; rewrite ?length_app; simpl;
    try lia.
  - specialize (IHderives1 eq_refl). lia.
  - specialize (IHderives1 eq_refl). lia.
Qed.

Lemma eof_shape_app (ts1 ts2 : list Token) :
  eof_shape ts2 -> eof_shape (ts1 ++ ts2).
Proof.
  intros [(t & Hl & Hop)|(pre & tok & post & -> & Hk & Hc)].
  - left. exists t. split; [|done].
    destruct ts2 as [|x ts2]; [done|]. by rewrite last_app_cons.
  - right. exists (ts1 ++ pre), tok, post. by rewrite <- app_assoc.
Qed.

Lemma eof_shape_operator (tok : Token) (kind : TokenType) :
  TokenType.eqb (Token.type tok) kind = true ->
  TokenType.is_operator kind = true -> eof_shape [tok].
Proof.
  intros H Hop. apply TokenType_eqb_eq in H. left. exists tok.
  split; [done|]. unfold is_op. by rewrite H.
Qed.

Lemma eof_shape_lparen (tok : Token) (ts : list Token) :
  TokenType.eqb (Token.type tok) LPAREN = true ->
  paren_count ts = 0%Z -> eof_shape (tok :: ts).
Proof.
  intros H Hc. apply TokenType_eqb_eq in H. right. by exists [], tok, ts.
Qed.

Lemma raise_post_app (b : bool) (e : Exn) (p' : Parser)
    (ts1 ts2 : list Token) :
  raise_post true e p' ts2 -> raise_post b e p' (ts1 ++ ts2).
Proof.
  destruct e as [| | |x| | | |]; simpl; try done.
  intros [H [[? _]|Hs]]; [done|]. split; [done|]. right.
  by apply eof_shape_app.
Qed.

Lemma raise_post_after (b : bool) (e : Exn) (p' : Parser)
    (ts1 ts2 : list Token) :
  eof_shape ts1 -> raise_post false e p' ts2 ->
  raise_post b e p' (ts1 ++ ts2).
Proof.
  intros H1. destruct e as [| | |x| | | |]; simpl; try done.
  intros [H [[_ ->]|Hs]]; (split; [done|]); right.
  - by rewrite app_nil_r.
  - by apply eof_shape_app.
Qed.

(** The five routines meet [routine_post], whatever the call depth. *)
Lemma routines_post (d : nat) :
  (forall p p' o, in_sync p -> _parse_E d p = (p', o) ->
                  routine_post sE p p' o)
  /\ (forall p p' o, in_sync p -> _parse_E_prime d p = (p', o) ->
                     routine_post sE' p p' o)
  /\ (forall p p' o, in_sync p -> _parse_T d p = (p', o) ->
                     routine_post sT p p' o)
  /\ (forall p p' o, in_sync p -> _parse_T_prime d p = (p', o) ->
                     routine_post sT' p p' o)
  /\ (forall p p' o, in_sync p -> _parse_F d p = (p', o) ->
                     routine_post sF p p' o).
Proof.
  induction d as [|d (IHE & IHE' & IHT & IHT' & IHF)].
  { repeat split; intros p p' o _ H; inversion H; done. }
  refine (conj _ (conj _ (conj _ (conj _ _)))); intros p p' o Hs H.
  - (* E *)
    rewrite parse_E_step in H. unfold bind in H.
    destruct (_parse_T d (bump p)) as [p1 [t|x|]] eqn:HT;
      apply IHT in HT; try done; [| |by inversion H].
    2:{ inversion H; subst. destruct HT as (ts & Hc & Hr). by exists ts. }
    destruct HT as (ts1 & Hc1 & Hd1).
    destruct (_parse_E_prime d p1) as [p2 [e|x|]] eqn:HE;
      apply IHE' in HE; try (by eapply consumed_in_sync);
      inversion H; subst; [| |done].
    + destruct HE as (ts2 & Hc2 & Hd2). exists (ts1 ++ ts2). split.
      * by apply (consumed_trans _ p1).
      * apply (derives_E _ _ ts1 ts2); by apply derives_set_depth.
    + destruct HE as (ts2 & Hc2 & Hr). exists (ts1 ++ ts2). split.
      * by apply (consumed_trans _ p1).
      * by apply raise_post_app.
  - (* E' *)
    rewrite parse_E_prime_step in H.
    destruct (current_token p) as [tok|] eqn:Hcur.
    2:{ inversion H; subst. exists []. split; [exact (consumed_refl _ Hs)|].
        constructor. }
    destruct (TokenType.eqb (Token.type tok) PLUS) eqn:Hk.
    2:{ inversion H; subst. exists []. split; [exact (consumed_refl _ Hs)|].
        constructor. }
    pose proof (consumed_advance p tok Hs Hcur) as Hc0.
    unfold bind in H.
    destruct (_parse_T d (advance (bump (bump p)))) as [p1 [t|x|]] eqn:HT;
      apply IHT in HT; try apply in_sync_advance; [| |by inversion H].
    2:{ inversion H; subst. destruct HT as (ts & Hc & Hr).
        exists ([tok] ++ ts). split.
        - by apply (consumed_trans _ (advance p)).
        - apply raise_post_after; [|done]. by eapply eof_shape_operator. }
    destruct HT as (ts1 & Hc1 & Hd1).
    destruct (_parse_E_prime d p1) as [p2 [e|x|]] eqn:HE;
      apply IHE' in HE; try (by eapply consumed_in_sync);
      inversion H; subst; [| |done].
    + destruct HE as (ts2 & Hc2 & Hd2). exists ([tok] ++ ts1 ++ ts2). split.
      * apply (consumed_trans _ (advance p)); [done|].
        by apply (consumed_trans _ p1).
      * apply (derives_E'_plus _ tok _ _ ts1 ts2); try by apply derives_set_depth.
        by apply terminal_intro.
    + destruct HE as (ts2 & Hc2 & Hr). exists ([tok] ++ ts1 ++ ts2). split.
      * apply (consumed_trans _ (advance p)); [done|].
        by apply (consumed_trans _ p1).
      * by do 2 apply raise_post_app.
  - (* T *)
    rewrite parse_T_step in H. unfold bind in H.
    destruct (_parse_F d (bump p)) as [p1 [t|x|]] eqn:HT;
      apply IHF in HT; try done; [| |by inversion H].
    2:{ inversion H; subst. destruct HT as (ts & Hc & Hr). by exists ts. }
    destruct HT as (ts1 & Hc1 & Hd1).
    destruct (_parse_T_prime d p1) as [p2 [e|x|]] eqn:HE;
      apply IHT' in HE; try (by eapply consumed_in_sync);
      inversion H; subst; [| |done].
    + destruct HE as (ts2 & Hc2 & Hd2). exists (ts1 ++ ts2). split.
      * by apply (consumed_trans _ p1).
      * apply (derives_T _ _ ts1 ts2); by apply derives_set_depth.
    + destruct HE as (ts2 & Hc2 & Hr). exists (ts1 ++ ts2). split.
      * by apply (consumed_trans _ p1).
      * by apply raise_post_app.
  - (* T' *)
    rewrite parse_T_prime_step in H.
    destruct (current_token p) as [tok|] eqn:Hcur.
    2:{ inversion H; subst. exists []. split; [exact (consumed_refl _ Hs)|].
        constructor. }
    destruct (TokenType.eqb (Token.type tok) MULTIPLY) eqn:Hk.
    2:{ inversion H; subst. exists []. split; [exact (consumed_refl _ Hs)|].
        constructor. }
    pose proof (consumed_advance p tok Hs Hcur) as Hc0.
    unfold bind in H.
    destruct (_parse_F d (advance (bump (bump p)))) as [p1 [t|x|]] eqn:HT;
      apply IHF in HT; try apply in_sync_advance; [| |by inversion H].
    2:{ inversion H; subst. destruct HT as (ts & Hc & Hr).
        exists ([tok] ++ ts). split.
        - by apply (consumed_trans _ (advance p)).
        - apply raise_post_after; [|done]. by eapply eof_shape_operator. }
    destruct HT as (ts1 & Hc1 & Hd1).
    destruct (_parse_T_prime d p1) as [p2 [e|x|]] eqn:HE;
      apply IHT' in HE; try (by eapply consumed_in_sync);
      inversion H; subst; [| |done].
    + destruct HE as (ts2 & Hc2 & Hd2). exists ([tok] ++ ts1 ++ ts2). split.
      * apply (consumed_trans _ (advance p)); [done|].
        by apply (consumed_trans _ p1).
      * apply (derives_T'_times _ tok _ _ ts1 ts2); try by apply derives_set_depth.
        by apply terminal_intro.
    + destruct HE as (ts2 & Hc2 & Hr). exists ([tok] ++ ts1 ++ ts2). split.
      * apply (consumed_trans _ (advance p)); [done|].
        by apply (consumed_trans _ p1).
      * by do 2 apply raise_post_app.
  - (* F *)
    rewrite parse_F_step in H.
    destruct (current_token p) as [tok|] eqn:Hcur.
    2:{ inversion H; subst. exists []. split; [exact (consumed_refl _ Hs)|].
        simpl. split; [done|]. by left. }
    pose proof (consumed_advance p tok Hs Hcur) as Hc0.
    destruct (TokenType.eqb (Token.type tok) LPAREN) eqn:Hk.
    + unfold bind in H.
      destruct (_parse_E d (advance (bump (bump p)))) as [p1 [e|x|]] eqn:HE;
        apply IHE in HE; try apply in_sync_advance; [| |by inversion H].
      2:{ inversion H; subst. destruct HE as (ts & Hc & Hr).
          exists ([tok] ++ ts). split.
          - by apply (consumed_trans _ (advance p)).
          - apply raise_post_after; [|done]. by apply eof_shape_lparen. }
      destruct HE as (ts1 & Hc1 & Hd1).
      pose proof (consumed_in_sync _ _ _ Hc1) as Hs1.
      destruct (current_token p1) as [tok2|] eqn:Hcur2.
      2:{ inversion H; subst. exists ([tok] ++ ts1). split.
          - by apply (consumed_trans _ (advance p)).
          - simpl. split; [done|]. right. apply eof_shape_lparen; [done|].
            by eapply derives_paren_count. }
      destruct (TokenType.eqb (Token.type tok2) RPAREN) eqn:Hk2;
        inversion H; subst.
      * exists ([tok] ++ ts1 ++ [tok2]). split.
        -- apply (consumed_trans _ (advance p)); [done|].
           apply (consumed_trans _ p1); [done|].
           by apply (consumed_advance p1).
        -- apply (derives_F_paren _ tok _ _ tok2 ts1); try by apply derives_set_depth.
           ++ by apply terminal_intro.
           ++ by apply terminal_intro.
      * exists ([tok] ++ ts1). split.
        -- by apply (consumed_trans _ (advance p)).
        -- simpl. done.
    + destruct (TokenType.eqb (Token.type tok) ID) eqn:Hk2;
        inversion H; subst.
      * exists [tok]. split; [done|].
        apply derives_F_id. by apply terminal_intro.
      * exists []. split; [exact (consumed_refl _ Hs)|]. simpl. done.
Qed.

End ParserInvariants.

(* ===================================================================== *)
(** ** Call depth *)
(* ===================================================================== *)

Section CallDepth.

Import Parser.

Lemma consumed_remaining (p p' : Parser) (ts : list Token) :
  consumed p p' ts -> remaining p' + length ts = remaining p.
Proof.
  intros (H1 & _ & _ & H4 & H5). unfold remaining. rewrite H1, H4.
  apply (f_equal length) in H5. rewrite length_app, !length_drop in H5.
  lia.
Qed.

Lemma remaining_advance (p : Parser) (tok : Token) :
  in_sync p -> current_token p = Some tok ->
  S (remaining (advance p)) = remaining p.
Proof.
  intros Hs Hc.
  pose proof (consumed_remaining _ _ _ (consumed_advance p tok Hs Hc)) as H.
  simpl in H. lia.
Qed.

(** Three levels per remaining token, and up to three more, are enough
    for a routine not to run out of call depth. *)
Lemma routines_enough_depth (d : nat) :
  (forall p, in_sync p -> 3 * remaining p + 3 <= d ->
             snd (_parse_E d p) <> Exhausted)
  /\ (forall p, in_sync p -> 3 * remaining p + 1 <= d ->
                snd (_parse_E_prime d p) <> Exhausted)
  /\ (forall p, in_sync p -> 3 * remaining p + 2 <= d ->
                snd (_parse_T d p) <> Exhausted)
  /\ (forall p, in_sync p -> 3 * remaining p + 1 <= d ->
                snd (_parse_T_prime d p) <> Exhausted)
  /\ (forall p, in_sync p -> 3 * remaining p + 1 <= d ->
                snd (_parse_F d p) <> Exhausted).
Proof.
  induction d as [|d (IHE & IHE' & IHT & IHT' & IHF)].
  { repeat split; intros; lia. }
  destruct (routines_post d) as (PE & PE' & PT & PT' & PF).
  refine (conj _ (conj _ (conj _ (conj _ _)))); intros p Hs Hd.
  - rewrite parse_E_step. unfold bind.
    specialize (IHT (bump p) Hs). specialize (PT (bump p)).
    destruct (_parse_T d (bump p)) as [p1 [t|x|]];
      [|done|apply IHT; unfold remaining in *; simpl in *; lia].
    destruct (PT _ _ Hs eq_refl) as (ts1 & Hc1 & Hd1).
    pose proof (derives_progress _ _ _ Hd1 eq_refl).
    pose proof (consumed_remaining _ _ _ Hc1) as Hr.
    change (remaining (bump p)) with (remaining p) in Hr.
    specialize (IHE' p1 (consumed_in_sync _ _ _ Hc1)).
    destruct (_parse_E_prime d p1) as [p2 [e|x|]]; try done.
    apply IHE'. lia.
  - rewrite parse_E_prime_step.
    destruct (current_token p) as [tok|] eqn:Hcur; [|done].
    destruct (TokenType.eqb (Token.type tok) PLUS); [|done].
    pose proof (remaining_advance p tok Hs Hcur) as Hr0.
    unfold bind.
    specialize (IHT (advance (bump (bump p))) (in_sync_advance _)).
    specialize (PT (advance (bump (bump p)))).
    change (remaining (advance (bump (bump p))))
      with (remaining (advance p)) in *.
    destruct (_parse_T d (advance (bump (bump p)))) as [p1 [t|x|]];
      [|done|apply IHT; lia].
    destruct (PT _ _ (in_sync_advance _) eq_refl) as (ts1 & Hc1 & Hd1).
    pose proof (derives_progress _ _ _ Hd1 eq_refl).
    pose proof (consumed_remaining _ _ _ Hc1) as Hr.
    change (remaining (advance (bump (bump p))))
      with (remaining (advance p)) in Hr.
    specialize (IHE' p1 (consumed_in_sync _ _ _ Hc1)).
    destruct (_parse_E_prime d p1) as [p2 [e|x|]]; try done.
    apply IHE'. lia.
  - rewrite parse_T_step. unfold bind.
    specialize (IHF (bump p) Hs). specialize (PF (bump p)).
    destruct (_parse_F d (bump p)) as [p1 [t|x|]];
      [|done|apply IHF; unfold remaining in *; simpl in *; lia].
    destruct (PF _ _ Hs eq_refl) as (ts1 & Hc1 & Hd1).
    pose proof (derives_progress _ _ _ Hd1 eq_refl).
    pose proof (consumed_remaining _ _ _ Hc1) as Hr.
    change (remaining (bump p)) with (remaining p) in Hr.
    specialize (IHT' p1 (consumed_in_sync _ _ _ Hc1)).
    destruct (_parse_T_prime d p1) as [p2 [e|x|]]; try done.
    apply IHT'. lia.
  - rewrite parse_T_prime_step.
    destruct (current_token p) as [tok|] eqn:Hcur; [|done].
    destruct (TokenType.eqb (Token.type tok) MULTIPLY); [|done].
    pose proof (remaining_advance p tok Hs Hcur) as Hr0.
    unfold bind.
    specialize (IHF (advance (bump (bump p))) (in_sync_advance _)).
    specialize (PF (advance (bump (bump p)))).
    change (remaining (advance (bump (bump p))))
      with (remaining (advance p)) in *.
    destruct (_parse_F d (advance (bump (bump p)))) as [p1 [t|x|]];
      [|done|apply IHF; lia].
    destruct (PF _ _ (in_sync_advance _) eq_refl) as (ts1 & Hc1 & Hd1).
    pose proof (derives_progress _ _ _ Hd1 eq_refl).
    pose proof (consumed_remaining _ _ _ Hc1) as Hr.
    change (remaining (advance (bump (bump p))))
      with (remaining (advance p)) in Hr.
    specialize (IHT' p1 (consumed_in_sync _ _ _ Hc1)).
    destruct (_parse_T_prime d p1) as [p2 [e|x|]]; try done.
    apply IHT'. lia.
  - rewrite parse_F_step.
    destruct (current_token p) as [tok|] eqn:Hcur; [|done].
    pose proof (remaining_advance p tok Hs Hcur) as Hr0.
    destruct (TokenType.eqb (Token.type tok) LPAREN).
    + unfold bind.
      specialize (IHE (advance (bump (bump p))) (in_sync_advance _)).
      change (remaining (advance (bump (bump p))))
        with (remaining (advance p)) in *.
      destruct (_parse_E d (advance (bump (bump p)))) as [p1 [t|x|]];
        [|done|apply IHE; lia].
      destruct (current_token p1) as [tok2|]; [|done].
      destruct (TokenType.eqb (Token.type tok2) RPAREN); done.
    + destruct (TokenType.eqb (Token.type tok) ID); done.
Qed.

(** A call that does not run out of call depth gives the same result at
    every larger depth. *)
Lemma routines_depth_mono (d : nat) :
  (forall p p' o d', _parse_E d p = (p', o) -> o <> Exhausted -> d <= d' ->
                     _parse_E d' p = (p', o))
  /\ (forall p p' o d', _parse_E_prime d p = (p', o) -> o <> Exhausted ->
                        d <= d' -> _parse_E_prime d' p = (p', o))
  /\ (forall p p' o d', _parse_T d p = (p', o) -> o <> Exhausted -> d <= d' ->
                        _parse_T d' p = (p', o))
  /\ (forall p p' o d', _parse_T_prime d p = (p', o) -> o <> Exhausted ->
                        d <= d' -> _parse_T_prime d' p = (p', o))
  /\ (forall p p' o d', _parse_F d p = (p', o) -> o <> Exhausted -> d <= d' ->
                        _parse_F d' p = (p', o)).
Proof.
  induction d as [|d (IHE & IHE' & IHT & IHT' & IHF)].
  { repeat split; intros p p' o d' H Ho; inversion H; by subst. }
  refine (conj _ (conj _ (conj _ (conj _ _))));
    intros p p' o [|d'] H Ho Hd; try lia.
  - rewrite parse_E_step in *. unfold bind in *.
    destruct (_parse_T d (bump p)) as [p1 [t|x|]] eqn:H1;
      [| |by inversion H; subst];
      rewrite (IHT _ _ _ d' H1) by (done || lia); [|done].
    destruct (_parse_E_prime d p1) as [p2 [e|x|]] eqn:H2;
      [| |by inversion H; subst];
      rewrite (IHE' _ _ _ d' H2) by (done || lia); done.
  - rewrite parse_E_prime_step in *.
    destruct (current_token p) as [tok|]; [|done].
    destruct (TokenType.eqb (Token.type tok) PLUS); [|done].
    unfold bind in *.
    destruct (_parse_T d (advance (bump (bump p)))) as [p1 [t|x|]] eqn:H1;
      [| |by inversion H; subst];
      rewrite (IHT _ _ _ d' H1) by (done || lia); [|done].
    destruct (_parse_E_prime d p1) as [p2 [e|x|]] eqn:H2;
      [| |by inversion H; subst];
      rewrite (IHE' _ _ _ d' H2) by (done || lia); done.
  - rewrite parse_T_step in *. unfold bind in *.
    destruct (_parse_F d (bump p)) as [p1 [t|x|]] eqn:H1;
      [| |by inversion H; subst];
      rewrite (IHF _ _ _ d' H1) by (done || lia); [|done].
    destruct (_parse_T_prime d p1) as [p2 [e|x|]] eqn:H2;
      [| |by inversion H; subst];
      rewrite (IHT' _ _ _ d' H2) by (done || lia); done.
  - rewrite parse_T_prime_step in *.
    destruct (current_token p) as [tok|]; [|done].
    destruct (TokenType.eqb (Token.type tok) MULTIPLY); [|done].
    unfold bind in *.
    destruct (_parse_F d (advance (bump (bump p)))) as [p1 [t|x|]] eqn:H1;
      [| |by inversion H; subst];
      rewrite (IHF _ _ _ d' H1) by (done || lia); [|done].
    destruct (_parse_T_prime d p1) as [p2 [e|x|]] eqn:H2;
      [| |by inversion H; subst];
      rewrite (IHT' _ _ _ d' H2) by (done || lia); done.
  - rewrite parse_F_step in *.
    destruct (current_token p) as [tok|]; [|done].
    destruct (TokenType.eqb (Token.type tok) LPAREN); [|done].
    unfold bind in *.
    destruct (_parse_E d (advance (bump (bump p)))) as [p1 [t|x|]] eqn:H1;
      [| |by inversion H; subst];
      rewrite (IHE _ _ _ d' H1) by (done || lia); done.
Qed.

End CallDepth.

(* ===================================================================== *)
(** ** [parse] as a whole *)
(* ===================================================================== *)

Section Parse.

Import Parser.

Lemma in_sync_started (self : Parser) (toks : list Token) :
  in_sync (started self toks).
Proof. unfold in_sync, started. simpl. by destruct toks. Qed.

Lemma parse_passed (d : nat) (self : Parser) (toks : list Token) :
  toks <> [] -> _perform_semantic_analysis toks = Return tt ->
  parse d self toks = handle (parse_body d (started self toks)).
Proof.
  intros Hne Hsem. unfold parse. destruct toks as [|first rest];
    [done|]. by rewrite Hsem.
Qed.

Lemma parse_cases (d : nat) (self : Parser) (toks : list Token) :
  (toks = []
   /\ snd (parse d self toks)
      = Raise (UnexpectedEndOfInputError "expression"))
  \/ (toks <> []
      /\ exists msg pos tok ctx,
          _perform_semantic_analysis toks
          = Raise (SemanticError msg pos tok ctx)
          /\ parse d self toks
             = (started self toks, Raise (SemanticError msg pos tok ctx)))
  \/ (toks <> [] /\ _perform_semantic_analysis toks = Return tt
      /\ parse d self toks
         = handle (parse_body d (started self toks))).
Proof.
  destruct toks as [|first rest] eqn:Htoks; [by left|]. rewrite <- Htoks.
  assert (Hne : toks <> []) by (by subst).
  right. pose proof (semantic_analysis_verdict toks Hne) as Hv.
  destruct (_perform_semantic_analysis toks) as [[]|e|] eqn:Hsem.
  - right. split; [done|]. split; [done|].
    by apply parse_passed.
  - left. split; [done|].
    assert (exists msg pos tok ctx, e = SemanticError msg pos tok ctx)
      as (msg & pos & tok & ctx & ->)
      by (inversion Hv; unfold consecutive_operators_error,
            starts_with_operator_error, ends_with_operator_error,
            unmatched_closing_error, unmatched_opening_error; eauto).
    exists msg, pos, tok, ctx. split; [done|].
    unfold parse. rewrite Htoks in *. by rewrite Hsem.
  - inversion Hv.
Qed.

(** The derivation phase from the start state. *)
Lemma derive_post (d : nat) (self : Parser) (toks : list Token)
    (p' : Parser) (o : Outcome ParseTreeNode) :
  derive d (started self toks) = (p', o) ->
  match o with
  | Exhausted => d < depth_for toks
  | Return root =>
      derives sE root toks
      /\ tokens p' = toks /\ parse_tree_root p' = Some root
  | Raise e =>
      tokens p' = toks
      /\ ((exists x, e = UnexpectedEndOfInputError x
                     /\ (toks = [] \/ eof_shape toks))
          \/ (exists msg tok expected,
                e = ParserSyntaxError msg (Some (Token.position tok))
                      (Some tok) expected
                /\ toks !! current_index p' = Some tok))
  end.
Proof.
  unfold derive, bind.
  pose proof (in_sync_started self toks) as Hs.
  destruct (routines_post d) as (PE & _).
  destruct (routines_enough_depth d) as (DE & _).
  specialize (PE (started self toks)). specialize (DE (started self toks) Hs).
  destruct (_parse_E d (started self toks)) as [p1 [root|e|]].
  - specialize (PE _ _ Hs eq_refl) as (ts & Hc & Hd).
    destruct Hc as (H1 & H2 & H3 & H4 & H5). simpl in H1, H4, H5.
    unfold set_parse_tree_root. cbn [current_index tokens current_token].
    rewrite H1.
    destruct (Nat.ltb_spec (current_index p1) (length toks)) as [Hlt|Hge];
      intros [= <- <-].
    + simpl. split; [done|]. right.
      unfold in_sync in H3. rewrite H1 in H3.
      destruct (toks !! current_index p1) as [tok|] eqn:Hlk.
      * rewrite H3. simpl. eauto.
      * apply lookup_ge_None in Hlk. lia.
    + simpl. split; [|done].
      rewrite drop_0, (drop_ge toks) in H5 by done.
      rewrite app_nil_r in H5. by subst.
  - specialize (PE _ _ Hs eq_refl) as (ts & Hc & Hr).
    destruct Hc as (H1 & H2 & H3 & H4 & H5). simpl in H1, H4, H5.
    intros [= <- <-]. split; [done|].
    destruct e as [| |msg pos [tok|] [expected|]|x| | | |]; simpl in Hr;
      try done.
    + right. destruct Hr as [Hcur ->]. exists msg, tok, (Some expected).
      split; [done|]. unfold in_sync in H3. by rewrite <- H1, <- H3.
    + left. exists x. split; [done|]. destruct Hr as [Hcur Hsh].
      unfold in_sync in H3. rewrite Hcur, H1 in H3. symmetry in H3.
      apply lookup_ge_None in H3.
      rewrite drop_0, (drop_ge toks) in H5 by done.
      rewrite app_nil_r in H5. subst ts.
      destruct Hsh as [[_ ->]|Hsh]; [by left | by right].
  - intros [= <- <-].
    destruct (Nat.lt_ge_cases d (depth_for toks)) as [|Hge]; [done|].
    destruct DE; [|done]. unfold remaining, depth_for in *. simpl. lia.
Qed.

Lemma derive_depth_mono (d d' : nat) (p p' : Parser)
    (o : Outcome ParseTreeNode) :
  derive d p = (p', o) -> o <> Exhausted -> d <= d' ->
  derive d' p = (p', o).
Proof.
  unfold derive, bind. intros H Ho Hd.
  destruct (routines_depth_mono d) as (ME & _).
  destruct (_parse_E d p) as [p1 [root|e|]] eqn:HE;
    [| |by inversion H; subst];
    by rewrite (ME _ _ _ d' HE).
Qed.

End Parse.

(* ===================================================================== *)
(** ** Evaluation *)
(* ===================================================================== *)

Section Evaluate.

Import ParseTreeNode.

Lemma leaves_terminal (rule : string) (kind : TokenType)
    (n : ParseTreeNode) (tok : Token) :
  terminal rule kind n tok -> leaves n = [tok].
Proof. intros (d & i & -> & _). done. Qed.

Lemma leaves_derives (X : Sym) (n : ParseTreeNode) (ts : list Token) :
  derives X n ts -> leaves n = ts.
Proof.
  induction 1; simpl in *;
    repeat match goal with
      | H : terminal _ _ _ _ |- _ => apply leaves_terminal in H; rewrite H
      end;
    rewrite ?IHderives, ?IHderives1, ?IHderives2, ?app_nil_r; done.
Qed.

(** [evaluate] on a tree built by the parser. *)
Lemma evaluate_derived (X : Sym) (n : ParseTreeNode) (ts : list Token) :
  derives X n ts ->
  forall n' o, evaluate n = (n', o) ->
               leaves n' = ts /\ evaluate_post X n' o.
Proof.
  induction 1 as [t e ts1 ts2 d i Ht IHt He IHe
                 |d i
                 |p tok t e ts1 ts2 d i Hp Ht IHt He IHe
                 |f t' ts1 ts2 d i Hf IHf Ht' IHt'
                 |d i
                 |m tok f t' ts1 ts2 d i Hm Hf IHf Ht' IHt'
                 |n tok d i Hn
                 |l ltok e r rtok ts d i Hl He IHe Hr];
    intros n' o Hev; simpl in Hev.
  - (* E -> T E' *)
    destruct (evaluate t) as [t1 o1].
    destruct (IHt _ _ eq_refl) as [L1 [(z1 & -> & Ev1)|(msg & ->)]].
    2:{ injection Hev as <- <-. simpl. rewrite L1, (leaves_derives _ _ _ He).
        rewrite app_nil_r. split; [done|]. right. eauto. }
    destruct (evaluate e) as [e1 o2].
    destruct (IHe _ _ eq_refl) as [L2 [(z2 & -> & Ev2)|(msg & ->)]];
      injection Hev as <- <-; simpl; rewrite L1, L2, app_nil_r;
      (split; [done|]).
    + left. exists (z1 + z2)%Z. split; [done|]. by constructor.
    + right. eauto.
  - (* E' -> eps *)
    injection Hev as <- <-. split; [done|]. left. exists 0%Z.
    split; [done|]. constructor.
  - (* E' -> + T E' *)
    pose proof (leaves_terminal _ _ _ _ Hp) as Lp.
    destruct (evaluate t) as [t1 o1].
    destruct (IHt _ _ eq_refl) as [L1 [(z1 & -> & Ev1)|(msg & ->)]].
    2:{ injection Hev as <- <-. simpl.
        rewrite Lp, L1, (leaves_derives _ _ _ He), app_nil_r.
        split; [done|]. right. eauto. }
    destruct (evaluate e) as [e1 o2].
    destruct (IHe _ _ eq_refl) as [L2 [(z2 & -> & Ev2)|(msg & ->)]];
      injection Hev as <- <-; simpl; rewrite Lp, L1, L2, app_nil_r;
      (split; [done|]).
    + left. exists (z1 + z2)%Z. split; [done|]. by econstructor.
    + right. eauto.
  - (* T -> F T' *)
    destruct (evaluate f) as [f1 o1].
    destruct (IHf _ _ eq_refl) as [L1 [(z1 & -> & Ev1)|(msg & ->)]].
    2:{ injection Hev as <- <-. simpl. rewrite L1, (leaves_derives _ _ _ Ht').
        rewrite app_nil_r. split; [done|]. right. eauto. }
    destruct (evaluate t') as [t1 o2].
    destruct (IHt' _ _ eq_refl) as [L2 [(z2 & -> & Ev2)|(msg & ->)]].
    2:{ injection Hev as <- <-; simpl; rewrite L1, L2, app_nil_r.
        split; [done|]. right. eauto. }
    simpl in Hev. destruct (Z.eqb_spec z2 1) as [->|Hne];
      injection Hev as <- <-; simpl; rewrite L1, L2, app_nil_r;
      (split; [done|]); left.
    + exists z1. split; [done|]. by constructor.
    + exists (z1 * z2)%Z. split; [done|]. by constructor.
  - (* T' -> eps *)
    injection Hev as <- <-. split; [done|]. left. exists 1%Z.
    split; [done|]. constructor.
  - (* T' -> * F T' *)
    pose proof (leaves_terminal _ _ _ _ Hm) as Lm.
    destruct (evaluate f) as [f1 o1].
    destruct (IHf _ _ eq_refl) as [L1 [(z1 & -> & Ev1)|(msg & ->)]].
    2:{ injection Hev as <- <-. simpl.
        rewrite Lm, L1, (leaves_derives _ _ _ Ht'), app_nil_r.
        split; [done|]. right. eauto. }
    destruct (evaluate t') as [t1 o2].
    destruct (IHt' _ _ eq_refl) as [L2 [(z2 & -> & Ev2)|(msg & ->)]];
      injection Hev as <- <-; simpl; rewrite Lm, L1, L2, app_nil_r;
      (split; [done|]).
    + left. exists (z1 * z2)%Z. split; [done|]. by econstructor.
    + right. eauto.
  - (* F -> id *)
    destruct Hn as (d0 & i0 & -> & Hk). simpl in Hev. rewrite Hk in Hev.
    simpl in Hev.
    destruct (PyStr.str_isdigit (Token.value tok)) eqn:Hdig.
    + destruct (PyStr.int (Token.value tok)) as [z|] eqn:Hint;
        injection Hev as <- <-; (split; [done|]).
      * left. exists z. split; [done|]. apply evaluated_F_id with (tok := tok).
        exists d0, i0. split; [done|]. split; [done|]. by left.
      * right. eauto.
    + injection Hev as <- <-. split; [done|]. left. exists 1%Z.
      split; [done|]. apply evaluated_F_id with (tok := tok).
      exists d0, i0. split; [done|]. split; [done|]. by right.
  - (* F -> ( E ) *)
    pose proof (leaves_terminal _ _ _ _ Hl) as Ll.
    pose proof (leaves_terminal _ _ _ _ Hr) as Lr.
    destruct (evaluate e) as [e1 o1].
    destruct (IHe _ _ eq_refl) as [L1 [(z1 & -> & Ev1)|(msg & ->)]];
      injection Hev as <- <-; simpl; rewrite Ll, L1, Lr, app_nil_r;
      (split; [done|]).
    + left. exists z1. split; [done|]. by econstructor.
    + right. eauto.
Qed.

End Evaluate.

Section Idempotence.

Import ParseTreeNode.

(** Induction on a tree with the hypothesis for every child. *)
Lemma ParseTreeNode_nested_ind (P : ParseTreeNode -> Prop) :
  (forall r cs t v d i, Forall P cs -> P (Node r cs t v d i)) ->
  forall n, P n.
Proof.
  intros H. fix IH 1. intros [r cs t v d i]. apply H.
  induction cs as [|c cs IHcs]; constructor; [apply IH | apply IHcs].
Qed.

Ltac use_equations :=
  repeat match goal with
    | H : ?x = _ |- context [?x] => rewrite H
    end.

(** A second [evaluate] returns what the first returned and leaves the
    tree as the first left it. *)
Lemma evaluate_evaluate (n : ParseTreeNode) :
  evaluate (fst (evaluate n)) = evaluate n.
Proof.
  induction n as [r cs t v d i IH] using ParseTreeNode_nested_ind.
  assert (H0 : forall c0 l, cs = c0 :: l ->
                 evaluate (fst (evaluate c0)) = evaluate c0).
  { intros c0 l ->. by inversion IH. }
  assert (H1 : forall c0 c1 l, cs = c0 :: c1 :: l ->
                 evaluate (fst (evaluate c1)) = evaluate c1).
  { intros c0 c1 l ->. inversion IH as [|? ? _ IH']. by inversion IH'. }
  assert (H2 : forall c0 c1 c2 l, cs = c0 :: c1 :: c2 :: l ->
                 evaluate (fst (evaluate c2)) = evaluate c2).
  { intros c0 c1 c2 l ->. inversion IH as [|? ? _ IH'].
    inversion IH' as [|? ? _ IH'']. by inversion IH''. }
  clear IH.
  destruct cs as [|c0 [|c1 [|c2 rest]]].
  all: try (specialize (H0 _ _ eq_refl); destruct (evaluate c0) as [c0' o0] eqn:E0;
            simpl in H0).
  all: try (specialize (H1 _ _ _ eq_refl); destruct (evaluate c1) as [c1' o1] eqn:E1;
            simpl in H1).
  all: try (specialize (H2 _ _ _ _ eq_refl); destruct (evaluate c2) as [c2' o2] eqn:E2;
            simpl in H2).
  all: simpl; rewrite ?E0, ?E1, ?E2; repeat case_match; simplify_eq/=;
    use_equations; simpl; use_equations; try done.
  all: unfold store, add_unless_none, mul_unless_none,
         mul_unless_none_or_one in *;
    repeat case_match; simplify_eq/=; use_equations; simpl;
    use_equations; try done.
Qed.

End Idempotence.

(** C8.  Evaluation is deterministic and idempotent: on every tree a second
    [evaluate] returns (or raises) what the first did and leaves the tree,
    hence every cached value, as the first call left it; so does any number
    of further calls, and the rendered string of the tree is the same after
    each of them. *)
Theorem evaluate_idempotent (n : ParseTreeNode) (prefix : string)
    (is_last : bool) (k : nat) :
  let first := ParseTreeNode.evaluate n in
  let second := ParseTreeNode.evaluate (fst first) in
  snd second = snd first
  /\ fst second = fst first
  /\ ParseTreeNode.get_tree_string (fst second) prefix is_last
     = ParseTreeNode.get_tree_string (fst first) prefix is_last
  /\ evaluate_times (S k) n = fst first
  /\ ParseTreeNode.evaluate (evaluate_times (S k) n)
     = (fst first, snd first)
  /\ ParseTreeNode.get_tree_string (evaluate_times (S k) n) prefix is_last
     = ParseTreeNode.get_tree_string (fst first) prefix is_last.
Proof.
  intros first second. subst first second.
  assert (Hk : evaluate_times (S k) n = fst (ParseTreeNode.evaluate n)).
  { induction k as [|k IH]; [done|].
    change (evaluate_times (S (S k)) n)
      with (fst (ParseTreeNode.evaluate (evaluate_times (S k) n))).
    by rewrite IH, evaluate_evaluate. }
  rewrite Hk, evaluate_evaluate.
  destruct (ParseTreeNode.evaluate n); done.
Qed.

(* ===================================================================== *)
(** ** The outcome of [parse] *)
(* ===================================================================== *)

Section ParseOutcome.

Import Parser.

(** An accepted token list: what [parse] has done when it returns. *)
Lemma parse_accepted (d : nat) (self : Parser) (toks : list Token)
    (p' : Parser) (b : bool) :
  parse d self toks = (p', Return b) ->
  b = true
  /\ toks <> []
  /\ _perform_semantic_analysis toks = Return tt
  /\ exists p1 root root' z,
       derive d (started self toks) = (p1, Return root)
       /\ derives sE root toks
       /\ ParseTreeNode.evaluate root = (root', Return (Some z))
       /\ evaluated sE root' z
       /\ ParseTreeNode.leaves root' = toks
       /\ parse_tree_root p' = Some root'
       /\ tokens p' = toks.
Proof.
  intros H.
  destruct (parse_cases d self toks)
    as [[-> Hr]|[(Hne & msg & pos & tok & ctx & Hsem & Hr)|(Hne & Hsem & Hr)]].
  - rewrite H in Hr. done.
  - rewrite H in Hr. done.
  - rewrite Hr in H. unfold parse_body, bind in H.
    destruct (derive d (started self toks)) as [p1 [root|e|]] eqn:Hd;
      [| simpl in H; by destruct (Errors.is_syntax_or_semantic e) | done].
    pose proof (derive_post _ _ _ _ _ Hd) as (Hder & Htok & Hroot).
    unfold evaluate_root in H.
    destruct (ParseTreeNode.evaluate root) as [root' o] eqn:Hev.
    destruct (evaluate_derived _ _ _ Hder _ _ Hev)
      as [Hl [(z & -> & Hz)|(m & ->)]]; [|done].
    simpl in H. injection H as <- <-.
    repeat split; try done.
    exists p1, root, root', z. done.
Qed.

(** [parse] never gives [Exhausted]: its handler turns the
    [RecursionError] of the derivation into [AttributeError]. *)
Lemma parse_never_exhausted (d : nat) (self : Parser) (toks : list Token) :
  snd (parse d self toks) <> Exhausted.
Proof.
  destruct (parse_cases d self toks)
    as [[-> Hr]|[(Hne & msg & pos & tok & ctx & Hsem & Hr)|(Hne & Hsem & Hr)]].
  - by rewrite Hr.
  - by rewrite Hr.
  - rewrite Hr. destruct (parse_body d (started self toks)) as [p1 [b|e|]];
      simpl; [done| |done].
    by destruct (Errors.is_syntax_or_semantic e).
Qed.

(** A derivation that the call depth [d] does not cut short is the same at
    every larger depth, and so is [parse]. *)
Lemma parse_depth_mono (d d' : nat) (self : Parser) (toks : list Token) :
  snd (derive d (started self toks)) <> Exhausted -> d <= d' ->
  parse d' self toks = parse d self toks.
Proof.
  intros Ho Hd.
  destruct (parse_cases d self toks)
    as [[-> Hr]|[(Hne & msg & pos & tok & ctx & Hsem & Hr)|(Hne & Hsem & Hr)]].
  - done.
  - rewrite Hr. unfold parse. destruct toks; [done|]. by rewrite Hsem.
  - rewrite Hr, (parse_passed _ _ _ Hne Hsem).
    unfold parse_body, bind.
    destruct (derive d (started self toks)) as [p1 o] eqn:Hder.
    by rewrite (derive_depth_mono _ d' _ _ _ Hder Ho Hd).
Qed.

(** A call depth of three levels per token and three more is enough for
    the derivation; [parse] is the same at every such depth. *)
Lemma parse_stable (d : nat) (self : Parser) (toks : list Token) :
  depth_for toks <= d ->
  snd (derive d (started self toks)) <> Exhausted
  /\ parse d self toks = parse (depth_for toks) self toks.
Proof.
  intros Hd.
  assert (H0 : snd (derive (depth_for toks) (started self toks))
               <> Exhausted).
  { destruct (derive (depth_for toks) (started self toks)) as [p1 o] eqn:Hder.
    pose proof (derive_post _ _ _ _ _ Hder) as Hpost.
    simpl. intros ->. lia. }
  split; [|by apply parse_depth_mono].
  destruct (derive d (started self toks)) as [p1 o] eqn:Hder.
  pose proof (derive_post _ _ _ _ _ Hder) as Hpost.
  simpl. intros ->. lia.
Qed.

End ParseOutcome.

(** C1.  When [parse] accepts a token list, the tree it leaves follows the
    evaluation rules at every node: [E' -> eps] is 0 and [E' -> + T E'] is
    [T + E']; [T' -> eps] is 1 and [T' -> * F T'] is [F * T']; [E] is
    [T + E']; [T] is [F * T'] unless [T'] is 1, and then [F]; [F] is its
    inner [E] or its [id] child; an [id] leaf is the integer of its text
    when the text is all digits and 1 otherwise.  The value of the root is
    the one [get_evaluation_result] reports. *)
Theorem evaluation_rules (depth : nat) (self : Parser.Parser)
    (toks : list Token) (p' : Parser.Parser) :
  Parser.parse depth self toks = (p', Return true) ->
  exists root z,
    Parser.parse_tree_root p' = Some root
    /\ evaluated sE root z
    /\ Parser.get_evaluation_result p' = (p', Some z).
Proof.
  intros H. apply parse_accepted in H
    as (_ & _ & _ & p1 & root & root' & z & _ & _ & Hev & Hz & _ & Hroot & _).
  exists root', z. repeat split; try done.
  unfold Parser.get_evaluation_result, Parser.evaluate_root. rewrite Hroot.
  pose proof (evaluate_evaluate root) as Hid. rewrite Hev in Hid.
  simpl in Hid. rewrite Hid. destruct p'; simpl in *. by subst.
Qed.

Lemma evaluation_rules_witness :
  exists root z,
    Parser.parse_tree_root (fst (Parser.parse 1000 Parser.new sample_tokens))
    = Some root
    /\ evaluated sE root z
    /\ Parser.get_evaluation_result
         (fst (Parser.parse 1000 Parser.new sample_tokens))
       = (fst (Parser.parse 1000 Parser.new sample_tokens), Some z).
Proof.
  apply (evaluation_rules 1000 Parser.new sample_tokens
           (fst (Parser.parse 1000 Parser.new sample_tokens))).
  vm_compute. reflexivity.
Defined.

(** C2.  The three examples: ["3+4*5"] gives the five tokens [3 + 4 * 5] and
    is accepted with value 23; ["(1+2)*3"] is accepted with value 9;
    ["a+b"] is accepted with value 2.  Each is accepted at every call depth
    from three levels per token and three more. *)
Theorem examples_accepted :
  snd (Lexer.tokenize Lexer.new "3+4*5")
  = Return [Token.new ID "3" 0; Token.new PLUS "+" 1; Token.new ID "4" 2;
            Token.new MULTIPLY "*" 3; Token.new ID "5" 4]
  /\ (forall input value,
        (input, value) ∈ [("3+4*5", 23%Z); ("(1+2)*3", 9%Z); ("a+b", 2%Z)] ->
        exists toks p' root,
          snd (Lexer.tokenize Lexer.new input) = Return toks
          /\ (forall depth,
                3 * length toks + 3 <= depth ->
                Parser.parse depth Parser.new toks = (p', Return true))
          /\ Parser.parse_tree_root p' = Some root
          /\ ParseTreeNode.value root = Some value
          /\ snd (Parser.get_evaluation_result p') = Some value).
Proof.
  split; [by vm_compute|].
  intros input value Hin.
  repeat (apply elem_of_cons in Hin as [Hin|Hin]; [injection Hin as -> ->|]).
  4: by apply elem_of_nil in Hin.
  all: match goal with
       | |- exists toks p' root,
              snd (Lexer.tokenize Lexer.new ?input) = Return toks /\ _ =>
           let o := eval vm_compute in (snd (Lexer.tokenize Lexer.new input)) in
           match o with
           | Return ?toks =>
               let p' := eval vm_compute in
                           (fst (Parser.parse (depth_for toks) Parser.new
                                   toks)) in
               match eval vm_compute in (Parser.parse_tree_root p') with
               | Some ?root => exists toks, p', root
               end
           end
       end.
  all: refine (conj _ (conj _ (conj _ (conj _ _))));
    try (vm_compute; reflexivity).
  all: intros depth Hd;
    match goal with
    | |- Parser.parse _ _ ?toks = _ =>
        destruct (parse_stable depth Parser.new toks Hd) as [_ ->]
    end; vm_compute; reflexivity.
Qed.

(* ===================================================================== *)
(** ** The leaves of an accepted tree *)
(* ===================================================================== *)

Section Leaves.

Import Scan.

Lemma filter_lstrip (cs : list ascii) :
  filter (fun c => PyStr.isspace c = false) (PyStr.lstrip_chars cs)
  = filter (fun c => PyStr.isspace c = false) cs.
Proof.
  induction cs as [|c cs IH]; [done|]. simpl.
  destruct (PyStr.isspace c) eqn:E; [|done].
  rewrite filter_cons. case_decide; [congruence | done].
Qed.

Lemma filter_rev (cs : list ascii) :
  filter (fun c => PyStr.isspace c = false) (rev cs)
  = rev (filter (fun c => PyStr.isspace c = false) cs).
Proof.
  induction cs as [|c cs IH]; [done|]. simpl.
  rewrite filter_app, IH, !filter_cons, filter_nil.
  case_decide; simpl; [done | by rewrite app_nil_r].
Qed.

Lemma filter_strip (cs : list ascii) :
  filter (fun c => PyStr.isspace c = false) (PyStr.strip_chars cs)
  = filter (fun c => PyStr.isspace c = false) cs.
Proof.
  unfold PyStr.strip_chars.
  rewrite filter_rev, filter_lstrip, filter_rev, filter_lstrip.
  apply rev_involutive.
Qed.

Lemma tokens_from_text (p : nat) (cs : list ascii) :
  String.concat "" (map Token.value (tokens_from p cs))
  = string_of_list_ascii (filter (fun c => PyStr.isspace c = false) cs).
Proof.
  revert p; induction cs as [|c cs IH]; intros p; [done|].
  cbn [tokens_from]. rewrite filter_cons.
  destruct (PyStr.isspace c) eqn:E.
  - case_decide; [congruence|]. apply IH.
  - case_decide; [|congruence]. cbn [map string_of_list_ascii].
    rewrite <- (IH (S p)).
    destruct (map Token.value (tokens_from (S p) cs)); done.
Qed.

End Leaves.

(** C6.  For an input that [tokenize] and then [parse] accept, the texts of
    the terminal leaves of the parse tree, read left to right and joined,
    are exactly the characters of the input that are not whitespace, in
    order. *)
Theorem leaves_reconstruct_input (depth : nat) (lexer : Lexer.Lexer)
    (self : Parser.Parser) (input : string) (toks : list Token)
    (p' : Parser.Parser) :
  snd (Lexer.tokenize lexer input) = Return toks ->
  Parser.parse depth self toks = (p', Return true) ->
  exists root,
    Parser.parse_tree_root p' = Some root
    /\ ParseTreeNode.leaves root = toks
    /\ leaf_text root
       = string_of_list_ascii
           (filter (fun c => PyStr.isspace c = false) (PyStr.chars input)).
Proof.
  intros Hlex H. apply parse_accepted in H
    as (_ & _ & _ & p1 & root & root' & z & _ & _ & _ & _ & Hl & Hroot & _).
  exists root'. split; [done|]. split; [done|].
  unfold leaf_text. rewrite Hl.
  pose proof (tokenize_spec lexer input) as Hspec. cbv zeta in Hspec.
  destruct (Lexer.tokenize lexer input) as [lexer' o]. simpl in Hlex. subst o.
  rewrite chars_strip in Hspec.
  destruct (PyStr.strip_chars (PyStr.chars input)) as [|c cs] eqn:Hcs; [done|].
  destruct Hspec as (_ & _ & _ & Hout).
  destruct (Scan.errors_from 0 (c :: cs)); [|done].
  assert (toks = Scan.tokens_from 0 (c :: cs)) as -> by congruence.
  by rewrite tokens_from_text, <- Hcs, filter_strip.
Qed.

Lemma leaves_reconstruct_input_witness :
  exists root,
    Parser.parse_tree_root (fst (Parser.parse 1000 Parser.new sample_tokens))
    = Some root
    /\ ParseTreeNode.leaves root = sample_tokens
    /\ leaf_text root
       = string_of_list_ascii
           (filter (fun c => PyStr.isspace c = false)
              (PyStr.chars "  2*(x+7) ")).
Proof.
  apply (leaves_reconstruct_input 1000 Lexer.new Parser.new "  2*(x+7) "
           sample_tokens (fst (Parser.parse 1000 Parser.new sample_tokens))).
  - vm_compute. reflexivity.
  - vm_compute. reflexivity.
Defined.

(* ===================================================================== *)
(** ** Termination and recursion depth *)
(* ===================================================================== *)

Section Termination.

Import Parser.

Lemma drop_cons_inv {A} (l : list A) (i : nat) (x : A) (r : list A) :
  drop i l = x :: r -> l !! i = Some x /\ drop (S i) l = r.
Proof.
  intros H. split.
  - rewrite <- (Nat.add_0_r i), <- lookup_drop, H. done.
  - replace (S i) with (i + 1) by lia. rewrite <- drop_drop, H. done.
Qed.

(** A routine that returns has moved the cursor over the terminals of its
    tree; for [E], [T] and [F] that is at least one token, and for [E']
    and [T'] it is at least one token unless the empty alternative was
    taken. *)
Lemma routines_progress (d : nat) (p p' : Parser) (node : ParseTreeNode) :
  in_sync p ->
  (_parse_E d p = (p', Return node) \/ _parse_T d p = (p', Return node)
   \/ _parse_F d p = (p', Return node)
   \/ ((_parse_E_prime d p = (p', Return node)
        \/ _parse_T_prime d p = (p', Return node))
       /\ ParseTreeNode.children node <> [])) ->
  current_index p < current_index p'.
Proof.
  intros Hs H.
  destruct (routines_post d) as (PE & PE' & PT & PT' & PF).
  destruct H as [H|[H|[H|[[H|H] Hc]]]].
  - apply PE in H as (ts & (_ & _ & _ & Hi & _) & Hd); [|done].
    pose proof (derives_progress _ _ _ Hd eq_refl). lia.
  - apply PT in H as (ts & (_ & _ & _ & Hi & _) & Hd); [|done].
    pose proof (derives_progress _ _ _ Hd eq_refl). lia.
  - apply PF in H as (ts & (_ & _ & _ & Hi & _) & Hd); [|done].
    pose proof (derives_progress _ _ _ Hd eq_refl). lia.
  - apply PE' in H as (ts & (_ & _ & _ & Hi & _) & Hd); [|done].
    inversion Hd; subst; [done|]. simpl in Hi. lia.
  - apply PT' in H as (ts & (_ & _ & _ & Hi & _) & Hd); [|done].
    inversion Hd; subst; [done|]. simpl in Hi. lia.
Qed.

(** The routine of [T] on an identifier that no [*] follows: it consumes
    the identifier, if the depth allows. *)
Lemma parse_T_identifier (d : nat) (p : Parser) (tok : Token) :
  in_sync p -> current_token p = Some tok -> Token.type tok = ID ->
  (forall nxt, tokens p !! (current_index p + 1) = Some nxt ->
               Token.type nxt <> MULTIPLY) ->
  snd (_parse_T d p) = Exhausted
  \/ exists p' node,
       _parse_T d p = (p', Return node) /\ consumed p p' [tok].
Proof.
  intros Hs Hcur Hk Hnext.
  destruct d as [|[|d]]; [by left|by left|]. right.
  rewrite parse_T_step. unfold bind.
  rewrite parse_F_step.
  change (current_token (bump p)) with (current_token p).
  rewrite Hcur, Hk. cbn [TokenType.eqb].
  rewrite parse_T_prime_step.
  set (p1 := advance (bump (bump (bump p)))).
  assert (Hc : consumed p p1 [tok]) by exact (consumed_advance p tok Hs Hcur).
  assert (Hno : forall nxt, current_token p1 = Some nxt ->
                  TokenType.eqb (Token.type nxt) MULTIPLY = false).
  { intros nxt Hn. pose proof (consumed_in_sync _ _ _ Hc) as Hs1.
    unfold in_sync in Hs1. rewrite Hn in Hs1. symmetry in Hs1.
    specialize (Hnext nxt Hs1).
    destruct (TokenType.eqb (Token.type nxt) MULTIPLY) eqn:E; [|done].
    by apply TokenType_eqb_eq in E. }
  destruct (current_token p1) as [nxt|] eqn:Hn.
  - rewrite (Hno nxt eq_refl). eauto.
  - eauto.
Qed.

Lemma plus_chain_head (pos n : nat) (nxt : Token) :
  head (plus_chain pos n) = Some nxt -> Token.type nxt <> MULTIPLY.
Proof. destruct n; simpl; [done|]. by intros [= <-]. Qed.

(** On [+1+1...+1] with [n] operators the routine of [E'] needs a call
    depth above [n]. *)
Lemma parse_E_prime_chain (n : nat) :
  forall d p pos,
    in_sync p ->
    drop (current_index p) (tokens p) = plus_chain pos n ->
    d <= n -> snd (_parse_E_prime d p) = Exhausted.
Proof.
  induction n as [|n IH]; intros d p pos Hs Hdrop Hd.
  { by assert (d = 0) as -> by lia. }
  destruct d as [|d]; [done|].
  simpl in Hdrop. apply drop_cons_inv in Hdrop as [Hplus Hdrop].
  apply drop_cons_inv in Hdrop as [Hone Hdrop].
  rewrite parse_E_prime_step.
  assert (Hcur : current_token p = Some (Token.new PLUS "+" pos))
    by (unfold in_sync in Hs; congruence).
  rewrite Hcur. cbn [Token.type Token.new TokenType.eqb].
  set (p0 := advance (bump (bump p))).
  assert (Hc0 : consumed p p0 [Token.new PLUS "+" pos])
    by exact (consumed_advance p _ Hs Hcur).
  pose proof (consumed_in_sync _ _ _ Hc0) as Hs0.
  assert (Hcur0 : current_token p0 = Some (Token.new ID "1" (pos + 1))).
  { unfold in_sync in Hs0. rewrite Hs0. simpl.
    by rewrite Nat.add_1_r. }
  destruct (parse_T_identifier d p0 _ Hs0 Hcur0 eq_refl)
    as [Hex|(p1 & t & HT & Hc1)].
  { intros nxt Hn. apply (plus_chain_head (pos + 2) n).
    rewrite <- Hdrop, head_lookup, lookup_drop, <- Hn. simpl.
    f_equal. lia. }
  { unfold bind. by destruct (_parse_T d p0) as [? [| |]]. }
  unfold bind. rewrite HT.
  assert (Hex : snd (_parse_E_prime d p1) = Exhausted).
  { apply (IH d p1 (pos + 2)); [by eapply consumed_in_sync| |lia].
    destruct Hc1 as (Ht & _ & _ & Hi & _). rewrite Ht, Hi. simpl.
    rewrite <- Hdrop. f_equal. lia. }
  by destruct (_parse_E_prime d p1) as [? [| |]].
Qed.





Lemma nesting_chain (n : nat) :
  forall pos cur, nesting_from cur (plus_chain pos n) = cur.
Proof. induction n as [|n IH]; intros pos cur; [done|]. simpl. apply IH. Qed.

Lemma nesting_sum_chain (n : nat) : nesting_depth (sum_chain n) = 0.
Proof. unfold nesting_depth, sum_chain. simpl. apply nesting_chain. Qed.

(** On [1+1+...+1] with [n] operators the derivation needs a call depth
    above [n + 1]: at a smaller one it ends in [RecursionError]. *)
Lemma derive_sum_chain_exhausted (n d : nat) (self : Parser) :
  d <= n + 1 ->
  snd (derive d (started self (sum_chain n))) = Exhausted.
Proof.
  intros Hd.
  assert (HE : snd (_parse_E d (started self (sum_chain n))) = Exhausted).
  { destruct d as [|d]; [done|].
    rewrite parse_E_step. unfold bind.
    pose proof (in_sync_started self (sum_chain n)) as Hs.
    destruct (parse_T_identifier d (bump (started self (sum_chain n)))
                (Token.new ID "1" 0) Hs eq_refl eq_refl)
      as [Hex|(p1 & t & HT & Hc1)].
    { intros nxt Hn. apply (plus_chain_head 1 n). rewrite <- Hn.
      by rewrite head_lookup. }
    { by destruct (_parse_T d _) as [? [| |]]. }
    rewrite HT.
    assert (Hex : snd (_parse_E_prime d p1) = Exhausted).
    { apply (parse_E_prime_chain n d p1 1); [by eapply consumed_in_sync| |lia].
      destruct Hc1 as (Ht & _ & _ & Hi & _). rewrite Ht, Hi. done. }
    by destruct (_parse_E_prime d p1) as [? [| |]]. }
  unfold derive, bind.
  by destruct (_parse_E d (started self (sum_chain n))) as [? [| |]].
Qed.



End Termination.

(** The identifier U+00B2 is a token for the lexer, and [parse] fails on it
    outside its error taxonomy: [isdigit()] accepts the text, [int()]
    rejects it, and the handler of [parse] raises [AttributeError]. *)
Lemma parse_superscript_two :
  snd (Lexer.tokenize Lexer.new superscript_two)
  = Return [Token.new ID superscript_two 0]
  /\ Parser._perform_semantic_analysis [Token.new ID superscript_two 0]
     = Return tt
  /\ snd (Parser.parse 1000 Parser.new [Token.new ID superscript_two 0])
     = Raise AttributeError.
Proof. repeat split; vm_compute; reflexivity. Qed.

(** C9, as stated.  No function of the parenthesis nesting depth bounds the
    recursion depth of the derivation: [1+1+...+1] has nesting depth 0 and
    needs a call depth that grows with the number of [+], because the
    routine of [E'] calls itself once per operator. *)
Lemma recursion_depth_not_bounded_by_nesting :
  ~ (exists bound : nat -> nat,
       forall (self : Parser.Parser) (toks : list Token),
         snd (Parser.derive (bound (nesting_depth toks)) (started self toks))
         <> Exhausted).
Proof.
  intros [bound H].
  apply (H Parser.new (sum_chain (bound 0))).
  rewrite nesting_sum_chain. apply derive_sum_chain_exhausted. lia.
Qed.

(** C9, amended.  [parse] terminates on every token list, whatever call
    depth the interpreter allows: it returns or raises.  A call depth of
    three levels per token and three more is enough for the mutual
    recursion of the five routines, and every larger depth gives the same
    result; the recursion is bounded because every routine of [E], [T] and
    [F] that returns has consumed at least one token, and so has every
    routine of [E'] and [T'] that took its operator alternative. *)
Theorem parse_terminates (self : Parser.Parser) (toks : list Token) :
  (forall depth, snd (Parser.parse depth self toks) <> Exhausted)
  /\ (forall depth,
        3 * length toks + 3 <= depth ->
        snd (Parser.derive depth (started self toks)) <> Exhausted
        /\ Parser.parse depth self toks
           = Parser.parse (3 * length toks + 3) self toks)
  /\ (forall d p p' node,
        in_sync p ->
        (Parser._parse_E d p = (p', Return node)
         \/ Parser._parse_T d p = (p', Return node)
         \/ Parser._parse_F d p = (p', Return node)
         \/ ((Parser._parse_E_prime d p = (p', Return node)
              \/ Parser._parse_T_prime d p = (p', Return node))
             /\ ParseTreeNode.children node <> [])) ->
        Parser.current_index p < Parser.current_index p').
Proof.
  split; [|split].
  - intros depth. apply parse_never_exhausted.
  - intros depth Hd. by apply parse_stable.
  - intros d p p' node. apply routines_progress.
Qed.

(* ===================================================================== *)
(** ** The failures of [parse] *)
(* ===================================================================== *)

Section AfterChecks.

Import Parser.








End AfterChecks.




(* ===================================================================== *)
(** ** The symbol table *)
(* ===================================================================== *)

Section TableKeys.

Lemma chars_append (s1 s2 : string) :
  PyStr.chars (s1 +:+ s2) = PyStr.chars s1 ++ PyStr.chars s2.
Proof. induction s1 as [|c s1 IH]; simpl; [done | by rewrite IH]. Qed.

Lemma chars_inj (s1 s2 : string) : PyStr.chars s1 = PyStr.chars s2 -> s1 = s2.
Proof.
  intros H. rewrite <- (string_of_list_ascii_of_string s1),
    <- (string_of_list_ascii_of_string s2). unfold PyStr.chars in H.
  by rewrite H.
Qed.

Lemma split_at_first {A} (x : A) (a1 a2 b1 b2 : list A) :
  a1 ++ x :: b1 = a2 ++ x :: b2 -> x ∉ a1 -> x ∉ a2 -> a1 = a2 /\ b1 = b2.
Proof.
  revert a2; induction a1 as [|y a1 IH]; intros [|z a2] H H1 H2; simpl in H.
  - by inversion H.
  - inversion H; subst. destruct H2. by left.
  - inversion H; subst. destruct H1. by left.
  - inversion H; subst. destruct (IH a2) as [-> ->]; try done.
    + intros ?. apply H1. by right.
    + intros ?. apply H2. by right.
Qed.

Lemma name_no_underscore (k : TokenType) :
  "_"%char ∉ rev (PyStr.chars (TokenType.name k)).
Proof.
  rewrite list_elem_of_In, <- in_rev.
  destruct k; simpl; intuition discriminate.
Qed.

Lemma name_inj (k1 k2 : TokenType) :
  TokenType.name k1 = TokenType.name k2 -> k1 = k2.
Proof. destruct k1, k2; simpl; congruence. Qed.

(** The key string determines the pair: no type name has an underscore. *)
Lemma key_inj (v1 v2 : string) (k1 k2 : TokenType) :
  SymbolTable.key v1 k1 = SymbolTable.key v2 k2 -> v1 = v2 /\ k1 = k2.
Proof.
  unfold SymbolTable.key. intros H. apply (f_equal PyStr.chars) in H.
  rewrite !chars_append in H. simpl in H.
  apply (f_equal (@rev ascii)) in H. rewrite !rev_app_distr in H.
  simpl in H. rewrite <- !app_assoc in H. simpl in H.
  apply split_at_first in H as [Hk Hv]; try apply name_no_underscore.
  split.
  - apply chars_inj. by rewrite <- (rev_involutive (PyStr.chars v1)), Hv,
      rev_involutive.
  - apply name_inj, chars_inj.
    by rewrite <- (rev_involutive (PyStr.chars _)), Hk, rev_involutive.
Qed.

End TableKeys.

Section TableInvariant.

Import SymbolTable.

Lemma sum_counts_insert_new (m : gmap string SymbolTableEntry) (s : string)
    (e : SymbolTableEntry) :
  m !! s = None ->
  map_fold (fun _ entry acc => SymbolTableEntry.count entry + acc) 0
    (<[s := e]> m)
  = SymbolTableEntry.count e
    + map_fold (fun _ entry acc => SymbolTableEntry.count entry + acc) 0 m.
Proof.
  intros H. rewrite map_fold_insert_L; [done| |done]. intros; lia.
Qed.

Lemma sum_counts_insert_old (m : gmap string SymbolTableEntry) (s : string)
    (e e' : SymbolTableEntry) :
  m !! s = Some e ->
  map_fold (fun _ entry acc => SymbolTableEntry.count entry + acc) 0
    (<[s := e']> m) + SymbolTableEntry.count e
  = SymbolTableEntry.count e'
    + map_fold (fun _ entry acc => SymbolTableEntry.count entry + acc) 0 m.
Proof.
  intros H.
  rewrite (map_fold_delete_L _ _ s e m); [| intros; lia | done].
  rewrite <- (insert_delete_eq m), sum_counts_insert_new
    by apply lookup_delete_eq.
  lia.
Qed.

Lemma is_valid_type (t : Token) :
  Token.is_valid t = false <-> Token.type t = INVALID.
Proof. unfold Token.is_valid. destruct (Token.type t); simpl; split; congruence. Qed.

Lemma entry_new_fields (t : Token) (e : SymbolTableEntry) :
  SymbolTableEntry.new t = Return e ->
  entry_matches e (Token.value t) (Token.type t) [t].
Proof.
  unfold SymbolTableEntry.new.
  destruct (SymbolTableEntry._get_token_attributes t); try done.
  intros [= <-]. done.
Qed.

Lemma occurrences_snoc (v : string) (k : TokenType) (toks : list Token)
    (t : Token) :
  occurrences v k (toks ++ [t])
  = occurrences v k toks
    ++ (if decide (Token.value t = v /\ Token.type t = k) then [t] else []).
Proof.
  unfold occurrences. rewrite filter_app, filter_cons, filter_nil.
  by case_decide.
Qed.

Lemma type_count_bump (m : gmap string nat) (k0 k : TokenType) :
  default 0 (<[TokenType.name k0
               := default 0 (m !! TokenType.name k0) + 1]> m
             !! TokenType.name k)
  = default 0 (m !! TokenType.name k) + (if decide (k0 = k) then 1 else 0).
Proof.
  case_decide as Hk.
  - subst. by rewrite lookup_insert_eq.
  - rewrite lookup_insert_ne; [lia|]. intros H. by apply name_inj in H.
Qed.

(** One call that returns keeps the invariant. *)
Lemma call_invariant (st : SymbolTable) (toks : list Token) (c : Call) :
  table_invariant st toks -> call_returns c ->
  table_invariant (call st c) (live_step toks c).
Proof.
  intros (Hent & Hkey & Htot & Huniq & Hsum & Htype) Hret.
  destruct c as [t|]; simpl.
  2:{ unfold table_invariant, get_entry, type_count, sum_counts. simpl.
      repeat split; try done.
    all: intros s e H; by rewrite lookup_empty in H. }
  unfold add_token.
  destruct (Token.is_valid t) eqn:Hvalid; simpl;
    [|by unfold table_invariant].
  destruct (Hret Hvalid) as [e0 He0].
  pose proof (entry_new_fields _ _ He0) as (Hv0 & Hk0 & Hc0 & Hp0).
  assert (Hlen : forall k, length (filter (fun u => Token.type u = k) (toks ++ [t]))
                 = length (filter (fun u => Token.type u = k) toks)
                   + (if decide (Token.type t = k) then 1 else 0)).
  { intros k. rewrite filter_app, length_app, filter_cons, filter_nil.
    by case_decide. }
  pose proof (Hent (Token.value t) (Token.type t)) as Hmine.
  unfold get_entry in Hmine, Hent.
  destruct (entries st !! key (Token.value t) (Token.type t)) as [e|] eqn:Hlk.
  - (* a further occurrence *)
    destruct (occurrences (Token.value t) (Token.type t) toks)
      as [|o occ] eqn:Hocc; [done|].
    destruct Hmine as (e1 & [= <-] & Hv & Hk & Hc & Hp).
    unfold table_invariant, get_entry, type_count, sum_counts. simpl.
    refine (conj _ (conj _ (conj _ (conj _ (conj _ _))))).
    + intros v k. rewrite occurrences_snoc. case_decide as Hvk.
      * destruct Hvk as [<- <-]. rewrite Hocc. simpl.
        rewrite lookup_insert_eq. eexists. split; [done|].
        unfold entry_matches. simpl. rewrite Hc, Hp, map_app, length_app.
        simpl. repeat split; (done || lia).
      * rewrite app_nil_r, lookup_insert_ne; [apply Hent|].
        intros H. apply key_inj in H. by apply Hvk.
    + intros s e'. destruct (decide (s = key (Token.value t) (Token.type t)))
        as [->|Hne].
      * rewrite lookup_insert_eq. intros [= <-]. simpl. by rewrite Hv, Hk.
      * rewrite lookup_insert_ne by done. apply Hkey.
    + rewrite length_app. simpl. lia.
    + rewrite map_size_insert_Some; [done|]. by eexists.
    + pose proof (sum_counts_insert_old (entries st) _ e
                    (SymbolTableEntry.add_occurrence e t) Hlk) as Hs.
      simpl in Hs. unfold sum_counts in Hsum. lia.
    + intros k. rewrite type_count_bump, Hlen. unfold type_count in Htype.
      by rewrite Htype.
  - (* the first occurrence *)
    rewrite He0.
    assert (Hocc : occurrences (Token.value t) (Token.type t) toks = []).
    { destruct (occurrences (Token.value t) (Token.type t) toks); [done|].
      by destruct Hmine as (? & ? & _). }
    unfold table_invariant, get_entry, type_count, sum_counts. simpl.
    refine (conj _ (conj _ (conj _ (conj _ (conj _ _))))).
    + intros v k. rewrite occurrences_snoc. case_decide as Hvk.
      * destruct Hvk as [<- <-]. rewrite Hocc. simpl.
        rewrite lookup_insert_eq. eexists. split; [done|].
        unfold entry_matches. by rewrite Hv0, Hk0, Hc0, Hp0.
      * rewrite app_nil_r, lookup_insert_ne; [apply Hent|].
        intros H. apply key_inj in H. by apply Hvk.
    + intros s e'. destruct (decide (s = key (Token.value t) (Token.type t)))
        as [->|Hne].
      * rewrite lookup_insert_eq. intros [= <-]. by rewrite Hv0, Hk0.
      * rewrite lookup_insert_ne by done. apply Hkey.
    + rewrite length_app. simpl. lia.
    + rewrite map_size_insert_None by done. lia.
    + rewrite sum_counts_insert_new by done. unfold sum_counts in Hsum.
      simpl in Hc0. lia.
    + intros k. rewrite type_count_bump, Hlen. unfold type_count in Htype.
      by rewrite Htype.
Qed.

(** The invariant after any sequence of calls that all return. *)
Lemma calls_invariant (l : list Call) :
  Forall call_returns l -> table_invariant (calls new l) (live l).
Proof.
  induction l as [|c l IH] using rev_ind; intros H.
  - unfold table_invariant, get_entry, type_count, sum_counts. simpl.
    repeat split; try done.
  all: intros s e Hs; by rewrite lookup_empty in Hs.
  - apply Forall_app in H as [Hl Hc]. apply Forall_cons in Hc as [Hc _].
    unfold calls, live. rewrite !fold_left_app. simpl.
    by apply call_invariant; [apply IH|].
Qed.

(** A token of kind [INVALID] leaves the table as it is. *)
Lemma add_invalid_token (st : SymbolTable) (t : Token) :
  Token.type t = INVALID -> add_token st t = (st, Return tt).
Proof.
  intros H. unfold add_token. apply is_valid_type in H. by rewrite H.
Qed.

End TableInvariant.

(** C7.  The claim fails on the code at the token the lexer makes of the
    character U+00B2: [add_token] counts the token and then raises the
    [ValueError] of [int()] before it has made the entry, so the table is
    left with [total_tokens = 1], no entry, [unique_tokens = 0] and a sum
    of counts of 0. *)
Theorem add_token_raise_breaks_totals :
  snd (Lexer.tokenize Lexer.new superscript_two)
  = Return [Token.new ID superscript_two 0]
  /\ Token.is_valid (Token.new ID superscript_two 0) = true
  /\ snd (SymbolTable.add_token SymbolTable.new
            (Token.new ID superscript_two 0))
     = Raise (ValueError ("invalid literal for int() with base 10: '"
                          +:+ superscript_two +:+ "'"))
  /\ SymbolTable.total_tokens
       (SymbolTable.calls SymbolTable.new
          [SymbolTable.AddToken (Token.new ID superscript_two 0)]) = 1
  /\ SymbolTable.sum_counts
       (SymbolTable.calls SymbolTable.new
          [SymbolTable.AddToken (Token.new ID superscript_two 0)]) = 0
  /\ SymbolTable.unique_tokens
       (SymbolTable.calls SymbolTable.new
          [SymbolTable.AddToken (Token.new ID superscript_two 0)]) = 0
  /\ SymbolTable.get_entry
       (SymbolTable.calls SymbolTable.new
          [SymbolTable.AddToken (Token.new ID superscript_two 0)])
       superscript_two ID = None.
Proof. repeat split; vm_compute; reflexivity. Qed.

(* ===================================================================== *)
(** ** Further properties of the lexer *)
(* ===================================================================== *)

Section LexerExtras.

Import Lexer Scan.

Lemma strip_nil_visible (cs : list ascii) :
  PyStr.strip_chars cs = [] <->
  filter (fun c => PyStr.isspace c = false) cs = [].
Proof.
  split.
  - intros H. by rewrite <- filter_strip, H.
  - intros H. unfold PyStr.strip_chars.
    assert (Hl : forall l : list ascii,
               filter (fun c => PyStr.isspace c = false) l = [] ->
               PyStr.lstrip_chars l = []).
    { induction l as [|c l IH]; [done|]. rewrite filter_cons. simpl.
      destruct (PyStr.isspace c); [|by case_decide].
      case_decide; [done|]. apply IH. }
    rewrite (Hl cs H). done.
Qed.

Lemma tokens_from_kinds (p : nat) (cs : list ascii) :
  map kind_and_text (tokens_from p cs)
  = map (fun c => (kind_of c, PyStr.of_char c))
      (filter (fun c => PyStr.isspace c = false) cs).
Proof.
  revert p; induction cs as [|c cs IH]; intros p; [done|].
  cbn [tokens_from]. rewrite filter_cons.
  destruct (PyStr.isspace c) eqn:E; case_decide; try discriminate;
    try contradiction.
  - apply IH.
  - cbn [map]. by rewrite IH.
Qed.

Lemma errors_from_visible (p : nat) (cs : list ascii) :
  map (fun e => match e with
                | LexicalError m _ c => (m, c)
                | _ => ("", "")
                end) (errors_from p cs)
  = map (fun c => ("Invalid character '" +:+ PyStr.of_char c +:+ "' found",
                   PyStr.of_char c))
      (filter (fun c => is_valid_character c = false)
         (filter (fun c => PyStr.isspace c = false) cs)).
Proof.
  revert p; induction cs as [|c cs IH]; intros p; [done|].
  cbn [errors_from]. rewrite filter_cons.
  destruct (PyStr.isspace c) eqn:E; case_decide; try discriminate;
    try contradiction.
  - apply IH.
  - cbn [orb]. rewrite filter_cons.
    destruct (is_valid_character c) eqn:V; case_decide; try discriminate;
      try contradiction.
    + apply IH.
    + cbn [map]. by rewrite IH.
Qed.

(** The outcome of [tokenize] without the positions. *)
Lemma tokenize_visible (self : Lexer) (input : string) :
  match snd (tokenize self input) with
  | Return toks =>
      visible input <> []
      /\ map kind_and_text toks
         = map (fun c => (kind_of c, PyStr.of_char c)) (visible input)
      /\ filter (fun c => is_valid_character c = false) (visible input) = []
  | Raise EmptyInputError => visible input = []
  | Raise (LexicalError m _ c) =>
      exists x rest,
        filter (fun c => is_valid_character c = false) (visible input)
        = x :: rest
        /\ m = "Invalid character '" +:+ PyStr.of_char x +:+ "' found"
        /\ c = PyStr.of_char x
  | _ => False
  end.
Proof.
  pose proof (tokenize_spec self input) as Hspec. cbv zeta in Hspec.
  destruct (tokenize self input) as [self' o]. simpl.
  rewrite chars_strip in Hspec. unfold visible.
  destruct (PyStr.strip_chars (PyStr.chars input)) as [|c0 cs] eqn:Hcs.
  { subst o. by apply strip_nil_visible. }
  destruct Hspec as (_ & _ & _ & ->).
  pose proof (errors_from_visible 0 (c0 :: cs)) as He.
  pose proof (tokens_from_kinds 0 (c0 :: cs)) as Ht.
  assert (Hf : filter (fun c => PyStr.isspace c = false) (c0 :: cs)
               = filter (fun c => PyStr.isspace c = false)
                   (PyStr.chars input))
    by (rewrite <- Hcs; apply filter_strip).
  rewrite Hf in He, Ht.
  assert (Hne : filter (fun c => PyStr.isspace c = false) (PyStr.chars input)
                <> []).
  { intros H. apply strip_nil_visible in H. congruence. }
  destruct (errors_from 0 (c0 :: cs)) as [|e es] eqn:Herr.
  - simpl in He. symmetry in He. apply map_eq_nil in He. done.
  - pose proof (errors_from_first _ _ _ _ Herr) as (i & x & _ & _ & -> & _).
    simpl in He.
    destruct (filter (fun c => is_valid_character c = false) _)
      as [|y rest]; [done|].
    simpl in He. injection He as Hm Hc _.
    exists y, rest. unfold error_at. by rewrite <- Hc.
Qed.

Lemma visible_no_space (cs : list ascii) :
  PyStr.strip_chars (filter (fun c => PyStr.isspace c = false) cs)
  = filter (fun c => PyStr.isspace c = false) cs.
Proof.
  assert (Hl : forall l : list ascii,
             Forall (fun c => PyStr.isspace c = false) l ->
             PyStr.lstrip_chars l = l).
  { intros [|c l] H; [done|]. apply Forall_cons in H as [H _].
    simpl. by rewrite H. }
  assert (Hf : Forall (fun c => PyStr.isspace c = false)
                 (filter (fun c => PyStr.isspace c = false) cs))
    by (apply Forall_forall; intros c Hc; by apply list_elem_of_filter in Hc as [? _]).
  unfold PyStr.strip_chars. rewrite (Hl _ Hf).
  rewrite Hl by (by apply Forall_rev). apply rev_involutive.
Qed.

Lemma tokens_from_renumber (p q : nat) (cs : list ascii) :
  imap (fun i t => Token.new (Token.type t) (Token.value t) (q + i))
    (tokens_from p cs)
  = tokens_from q (filter (fun c => PyStr.isspace c = false) cs).
Proof.
  revert p q; induction cs as [|c cs IH]; intros p q; [done|].
  cbn [tokens_from]. rewrite filter_cons.
  destruct (PyStr.isspace c) eqn:E; case_decide; try discriminate;
    try contradiction.
  - apply IH.
  - cbn [tokens_from]. rewrite E, imap_cons. f_equal.
    + unfold token_at. cbn. by rewrite Nat.add_0_r.
    + rewrite <- (IH (S p) (S q)). apply imap_ext. intros i t _. cbn.
      f_equal. lia.
Qed.

Lemma errors_from_visible_nil (p q : nat) (cs : list ascii) :
  errors_from p cs = [] ->
  errors_from q (filter (fun c => PyStr.isspace c = false) cs) = [].
Proof.
  rewrite !errors_from_nil. intros H. apply Forall_forall. intros c Hc.
  apply list_elem_of_filter in Hc as [_ Hc].
  by apply (proj1 (Forall_forall _ _) H).
Qed.

Lemma lstrip_head (cs : list ascii) (c : ascii) (r : list ascii) :
  PyStr.lstrip_chars cs = c :: r -> PyStr.isspace c = false.
Proof.
  induction cs as [|x cs IH]; [done|]. simpl.
  destruct (PyStr.isspace x) eqn:E; [done|]. by intros [= <- _].
Qed.

Lemma lstrip_suffix (cs : list ascii) :
  exists pre, cs = pre ++ PyStr.lstrip_chars cs.
Proof.
  induction cs as [|x cs [pre IH]]; [by exists []|]. simpl.
  destruct (PyStr.isspace x); [|by exists []].
  exists (x :: pre). simpl. by f_equal.
Qed.

(** A stripped string that is not empty starts and ends with a character
    that is not whitespace. *)
Lemma strip_ends (cs : list ascii) (c0 : ascii) (r : list ascii) :
  PyStr.strip_chars cs = c0 :: r ->
  PyStr.isspace c0 = false
  /\ exists c1, last (c0 :: r) = Some c1 /\ PyStr.isspace c1 = false.
Proof.
  unfold PyStr.strip_chars. intros H.
  destruct (PyStr.lstrip_chars (rev (PyStr.lstrip_chars cs)))
    as [|c1 r1] eqn:H1; [done|].
  pose proof (lstrip_head _ _ _ H1) as Hc1.
  assert (Hlast : last (c0 :: r) = Some c1).
  { rewrite <- H. simpl. by rewrite last_snoc. }
  split; [|by exists c1].
  destruct (lstrip_suffix (rev (PyStr.lstrip_chars cs))) as [pre Hpre].
  rewrite H1 in Hpre. apply (f_equal (@rev ascii)) in Hpre.
  rewrite rev_involutive, rev_app_distr in Hpre. simpl in H, Hpre.
  rewrite H in Hpre.
  destruct (PyStr.lstrip_chars cs) as [|y ys] eqn:Hy; [done|].
  simpl in Hpre. injection Hpre as -> _.
  by apply (lstrip_head _ _ _ Hy).
Qed.

Lemma tokens_from_bounds (p : nat) (cs : list ascii) :
  Forall (fun t => Token.line t = 1
                   /\ Token.column t = Token.position t + 1
                   /\ p <= Token.position t < p + length cs)
    (tokens_from p cs).
Proof.
  revert p; induction cs as [|c cs IH]; intros p; [constructor|].
  cbn [tokens_from].
  assert (Hrest : Forall (fun t => Token.line t = 1
                   /\ Token.column t = Token.position t + 1
                   /\ p <= Token.position t < p + length (c :: cs))
                    (tokens_from (S p) cs)).
  { eapply Forall_impl; [apply IH|]. simpl. intros t (? & ? & ?).
    repeat split; try done; lia. }
  destruct (PyStr.isspace c); [done|]. constructor; [|done].
  simpl. repeat split; lia.
Qed.

Lemma tokens_from_snoc (p : nat) (cs : list ascii) (c : ascii) :
  PyStr.isspace c = false ->
  tokens_from p (cs ++ [c])
  = tokens_from p cs ++ [token_at (p + length cs) c].
Proof.
  intros Hc. revert p; induction cs as [|x cs IH]; intros p.
  - simpl. by rewrite Hc, Nat.add_0_r.
  - cbn [app tokens_from length]. rewrite IH.
    replace (S p + length cs) with (p + S (length cs)) by lia.
    by destruct (PyStr.isspace x).
Qed.

Lemma count_kind_snoc (k : TokenType) (toks : list Token) (t : Token) :
  count_kind k (toks ++ [t])
  = count_kind k toks + (if decide (Token.type t = k) then 1 else 0).
Proof.
  unfold count_kind. rewrite filter_app, length_app, filter_cons.
  by case_decide.
Qed.

Lemma scan_invalid_count (p : nat) (cs : list ascii) :
  length (errors_from p cs) = count_kind INVALID (tokens_from p cs).
Proof.
  revert p; induction cs as [|c cs IH]; intros p; [done|].
  cbn [tokens_from errors_from].
  destruct (PyStr.isspace c) eqn:E; [apply IH|]. cbn [orb].
  unfold count_kind. rewrite filter_cons. cbn [token_at Token.new Token.type].
  pose proof (kind_of_invalid c E) as Hk.
  destruct (is_valid_character c) eqn:V.
  - case_decide as Hd; [|apply IH].
    unfold token_at in Hd. simpl in Hd. apply Hk in Hd. done.
  - case_decide as Hd; [simpl; f_equal; apply IH|].
    exfalso. apply Hd. unfold token_at. simpl. by apply Hk.
Qed.

Lemma count_token_lookup (stats : gmap string nat) (t : Token)
    (k : TokenType) :
  Lexer.count_token stats t !! TokenType.name k
  = if decide (Token.type t = k)
    then Some (default 0 (stats !! TokenType.name k) + 1)
    else stats !! TokenType.name k.
Proof.
  unfold Lexer.count_token.
  case_decide as Hk.
  - subst k. destruct (stats !! _) eqn:E; by rewrite lookup_insert_eq.
  - assert (TokenType.name (Token.type t) <> TokenType.name k)
      by (intros H; by apply name_inj in H).
    destruct (stats !! TokenType.name (Token.type t));
      by rewrite lookup_insert_ne.
Qed.

Lemma count_token_keys (stats : gmap string nat) (t : Token) (s : string) :
  is_Some (Lexer.count_token stats t !! s) ->
  is_Some (stats !! s) \/ s = TokenType.name (Token.type t).
Proof.
  unfold Lexer.count_token. intros H.
  destruct (decide (s = TokenType.name (Token.type t))) as [->|Hne];
    [by right|left].
  destruct (stats !! TokenType.name (Token.type t));
    by rewrite lookup_insert_ne in H.
Qed.

Lemma fold_count_lookup (toks : list Token) (stats : gmap string nat)
    (k : TokenType) :
  fold_left Lexer.count_token toks stats !! TokenType.name k
  = match count_kind k toks with
    | 0 => stats !! TokenType.name k
    | S n => Some (default 0 (stats !! TokenType.name k) + S n)
    end.
Proof.
  revert stats; induction toks as [|t toks IH] using rev_ind; intros stats;
    [done|].
  rewrite fold_left_app. cbn [fold_left].
  rewrite count_token_lookup, count_kind_snoc, IH.
  case_decide.
  - destruct (count_kind k toks); simpl; f_equal; lia.
  - rewrite Nat.add_0_r. done.
Qed.

Lemma fold_count_keys (toks : list Token) (stats : gmap string nat)
    (s : string) :
  is_Some (fold_left Lexer.count_token toks stats !! s) ->
  is_Some (stats !! s)
  \/ exists t, t ∈ toks /\ s = TokenType.name (Token.type t).
Proof.
  revert stats; induction toks as [|t toks IH] using rev_ind; intros stats;
    [by left|].
  rewrite fold_left_app. cbn [fold_left]. intros H.
  apply count_token_keys in H as [H| ->].
  - apply IH in H as [H|(t' & Ht' & ->)]; [by left|right].
    exists t'. split; [|done]. apply elem_of_app. by left.
  - right. exists t. split; [|done]. apply elem_of_app. right.
    by apply list_elem_of_singleton.
Qed.

End LexerExtras.

(** X1.  The kinds and texts of the tokens depend only on the characters of
    the input that are not whitespace: two inputs with the same such
    characters are both rejected as empty, or both rejected for the same
    invalid character, or both tokenized to lists with the same kinds and
    texts, whatever whitespace separates the characters. *)
Theorem tokenize_whitespace_insensitive (l1 l2 : Lexer.Lexer)
    (s1 s2 : string) :
  visible s1 = visible s2 ->
  match snd (Lexer.tokenize l1 s1), snd (Lexer.tokenize l2 s2) with
  | Return t1, Return t2 => map kind_and_text t1 = map kind_and_text t2
  | Raise EmptyInputError, Raise EmptyInputError => True
  | Raise (LexicalError m1 _ c1), Raise (LexicalError m2 _ c2) =>
      m1 = m2 /\ c1 = c2
  | _, _ => False
  end.
Proof.
  intros Hv.
  pose proof (tokenize_visible l1 s1) as H1.
  pose proof (tokenize_visible l2 s2) as H2.
  rewrite <- Hv in H2.
  destruct (snd (Lexer.tokenize l1 s1)) as [t1|[]|];
    destruct (snd (Lexer.tokenize l2 s2)) as [t2|[]|]; try done;
    repeat match goal with
      | H : _ /\ _ |- _ => destruct H
      | H : exists _, _ |- _ => destruct H
      | H : visible _ = [] |- _ => rewrite H in *
      end; subst; try done; try congruence.
  split; congruence.
Qed.

Lemma tokenize_whitespace_insensitive_witness :
  match snd (Lexer.tokenize Lexer.new "( a+ b)*3"),
        snd (Lexer.tokenize Lexer.new " (a + b) * 3 ") with
  | Return t1, Return t2 => map kind_and_text t1 = map kind_and_text t2
  | Raise EmptyInputError, Raise EmptyInputError => True
  | Raise (LexicalError m1 _ c1), Raise (LexicalError m2 _ c2) =>
      m1 = m2 /\ c1 = c2
  | _, _ => False
  end.
Proof.
  apply (tokenize_whitespace_insensitive Lexer.new Lexer.new
           "( a+ b)*3" " (a + b) * 3 ").
  vm_compute. reflexivity.
Defined.

(** X2.  Scanning the text of a returned token list gives the list back:
    when [tokenize] returns tokens, a further [tokenize] (of any lexer) of
    their joined texts returns tokens with the same kinds and the same
    texts, at the offsets 0, 1, 2, ... *)
Theorem tokenize_round_trip (l l' : Lexer.Lexer) (input : string)
    (toks : list Token) :
  snd (Lexer.tokenize l input) = Return toks ->
  snd (Lexer.tokenize l' (text_of toks)) = Return (renumber toks).
Proof.
  intros Hret.
  pose proof (tokenize_spec l input) as Hspec. cbv zeta in Hspec.
  destruct (Lexer.tokenize l input) as [l1 o]. simpl in Hret. subst o.
  rewrite chars_strip in Hspec.
  destruct (PyStr.strip_chars (PyStr.chars input)) as [|c0 cs] eqn:Hcs;
    [done|].
  destruct Hspec as (_ & _ & _ & Hout).
  destruct (Scan.errors_from 0 (c0 :: cs)) eqn:Herr; [|done].
  assert (toks = Scan.tokens_from 0 (c0 :: cs)) as -> by congruence.
  unfold text_of. rewrite tokens_from_text.
  set (vis := filter (fun c => PyStr.isspace c = false) (c0 :: cs)).
  pose proof (tokenize_spec l' (string_of_list_ascii vis)) as Hspec'.
  cbv zeta in Hspec'.
  destruct (Lexer.tokenize l' (string_of_list_ascii vis)) as [l2 o2]. simpl.
  rewrite chars_strip, chars_of_list in Hspec'. unfold vis in Hspec'.
  rewrite visible_no_space in Hspec'. fold vis in Hspec'.
  assert (Hvis : vis <> []).
  { unfold vis. rewrite <- Hcs, filter_strip. intros H.
    apply strip_nil_visible in H. congruence. }
  destruct vis as [|v0 vs] eqn:Hv; [done|].
  destruct Hspec' as (_ & _ & _ & ->). rewrite <- Hv.
  unfold vis. rewrite (errors_from_visible_nil 0 0 _ Herr).
  unfold renumber. by rewrite <- (tokens_from_renumber 0 0).
Qed.

Lemma tokenize_round_trip_witness :
  snd (Lexer.tokenize Lexer.new
         (text_of [Token.new ID "a" 0; Token.new PLUS "+" 2;
                   Token.new ID "7" 3]))
  = Return (renumber [Token.new ID "a" 0; Token.new PLUS "+" 2;
                      Token.new ID "7" 3]).
Proof.
  apply (tokenize_round_trip Lexer.new Lexer.new "  a +7 ").
  vm_compute. reflexivity.
Defined.

(** X3.  The offsets and columns of returned tokens: the first token is at
    offset 0 and the last one at the last offset of the stripped input
    (the input is stripped before the scan, so both ends hold a token);
    every token is on line 1 and its column is its offset plus one. *)
Theorem tokenize_offsets (self : Lexer.Lexer) (input : string)
    (toks : list Token) :
  snd (Lexer.tokenize self input) = Return toks ->
  (exists first, head toks = Some first /\ Token.position first = 0)
  /\ (exists final,
        last toks = Some final
        /\ Token.position final = String.length (PyStr.strip input) - 1)
  /\ Forall (fun t => Token.line t = 1
                      /\ Token.column t = Token.position t + 1
                      /\ Token.position t
                         < String.length (PyStr.strip input)) toks.
Proof.
  intros Hret.
  pose proof (tokenize_spec self input) as Hspec. cbv zeta in Hspec.
  destruct (Lexer.tokenize self input) as [l1 o]. simpl in Hret. subst o.
  rewrite chars_length. 
  destruct (PyStr.chars (PyStr.strip input)) as [|c0 cs] eqn:Hcs; [done|].
  destruct Hspec as (_ & _ & _ & Hout).
  destruct (Scan.errors_from 0 (c0 :: cs)) eqn:Herr; [|done].
  assert (toks = Scan.tokens_from 0 (c0 :: cs)) as -> by congruence.
  rewrite chars_strip in Hcs.
  destruct (strip_ends _ _ _ Hcs) as (H0 & c1 & Hlast & H1).
  split; [|split].
  - cbn [Scan.tokens_from]. rewrite H0. by eexists.
  - destruct (last_Some (c0 :: cs) c1) as [(pre & Hpre) _]; [done|].
    rewrite Hpre, tokens_from_snoc by done. rewrite last_snoc.
    eexists. split; [done|]. simpl. rewrite length_app. simpl. lia.
  - eapply Forall_impl; [apply tokens_from_bounds|].
    simpl. intros t (? & ? & ?). repeat split; try done; lia.
Qed.

Lemma tokenize_offsets_witness :
  (exists first,
      head [Token.new ID "a" 0; Token.new PLUS "+" 2; Token.new ID "7" 3]
      = Some first /\ Token.position first = 0)
  /\ (exists final,
        last [Token.new ID "a" 0; Token.new PLUS "+" 2; Token.new ID "7" 3]
        = Some final
        /\ Token.position final = String.length (PyStr.strip "  a +7 ") - 1)
  /\ Forall (fun t => Token.line t = 1
                      /\ Token.column t = Token.position t + 1
                      /\ Token.position t
                         < String.length (PyStr.strip "  a +7 "))
       [Token.new ID "a" 0; Token.new PLUS "+" 2; Token.new ID "7" 3].
Proof.
  apply (tokenize_offsets Lexer.new "  a +7 "). vm_compute. reflexivity.
Defined.

(** X4.  The lexer after [tokenize]: [has_errors] answers true exactly when
    the call raised a [LexicalError]; the scan does not stop at an invalid
    character, so the lexer's token list holds one token for every
    character that is not whitespace, of kind [INVALID] for the invalid
    ones, and as many [INVALID] tokens as errors were recorded. *)
Theorem tokenize_leaves_lexer (self : Lexer.Lexer) (input : string) :
  let self' := fst (Lexer.tokenize self input) in
  let outcome := snd (Lexer.tokenize self input) in
  (Lexer.has_errors self' = true
   <-> exists message position character,
         outcome = Raise (LexicalError message position character))
  /\ (Lexer.has_errors self' = false /\ visible input <> []
      -> outcome = Return (Lexer.tokens self'))
  /\ map kind_and_text (Lexer.tokens self')
     = map (fun c => (Scan.kind_of c, PyStr.of_char c)) (visible input)
  /\ length (Lexer.errors self')
     = count_kind INVALID (Lexer.tokens self').
Proof.
  cbv zeta.
  pose proof (tokenize_spec self input) as Hspec. cbv zeta in Hspec.
  unfold Lexer.has_errors.
  destruct (Lexer.tokenize self input) as [l1 o] eqn:Htok. simpl.
  rewrite chars_strip in Hspec.
  destruct (PyStr.strip_chars (PyStr.chars input)) as [|c0 cs] eqn:Hcs.
  - subst o. unfold Lexer.tokenize in Htok.
    rewrite chars_length, chars_strip, Hcs in Htok. simpl in Htok.
    injection Htok as <-. simpl.
    apply strip_nil_visible in Hcs. unfold visible. rewrite Hcs.
    repeat split; try done. by intros (? & ? & ? & ?). by intros [_ ?].
  - destruct Hspec as (_ & -> & -> & ->).
    rewrite tokens_from_kinds, scan_invalid_count. unfold visible.
    rewrite <- (filter_strip (PyStr.chars input)), Hcs.
    repeat split; try done.
    + rewrite <- scan_invalid_count.
      destruct (Scan.errors_from 0 (c0 :: cs)) as [|e es] eqn:Herr; [done|].
      intros _.
      destruct (errors_from_first _ _ _ _ Herr) as (i & x & _ & _ & -> & _).
      unfold Scan.error_at. by eexists _, _, _.
    + rewrite <- scan_invalid_count. intros (m & p & c & H).
      by destruct (Scan.errors_from 0 (c0 :: cs)).
    + rewrite <- scan_invalid_count. intros [H _].
      by destruct (Scan.errors_from 0 (c0 :: cs)).
Qed.

(** X5.  [get_token_statistics] counts the lexer's tokens by kind: the
    dictionary has a key for exactly the kinds that occur, and the value
    under a kind is the number of tokens of that kind. *)
Theorem token_statistics_counts (self : Lexer.Lexer) :
  (forall k,
      Lexer.get_token_statistics self !! TokenType.name k
      = match count_kind k (Lexer.tokens self) with
        | 0 => None
        | S n => Some (S n)
        end)
  /\ (forall s,
        is_Some (Lexer.get_token_statistics self !! s) ->
        exists t, t ∈ Lexer.tokens self
                  /\ s = TokenType.name (Token.type t)).
Proof.
  assert (Hfold : Lexer.get_token_statistics self
                  = fold_left Lexer.count_token (Lexer.tokens self) ∅)
    by (unfold Lexer.get_token_statistics; by destruct (Lexer.tokens self)).
  rewrite Hfold. split.
  - intros k. rewrite fold_count_lookup, lookup_empty. done.
  - intros s H. apply fold_count_keys in H as [H|H]; [|done].
    rewrite lookup_empty in H. by destruct H.
Qed.

(* ===================================================================== *)
(** ** The parser accepts the language of the grammar *)
(* ===================================================================== *)

Section Completeness.

Import Parser.












End Completeness.

(* ===================================================================== *)
(** ** Phrases of the grammar pass the pre-checks *)
(* ===================================================================== *)

Section PhraseShape.

Import Parser.

Lemma no_consecutive_app (ts1 ts2 : list Token) :
  ~ has_consecutive_operators ts1 -> ~ has_consecutive_operators ts2 ->
  (forall a b, last ts1 = Some a -> head ts2 = Some b ->
               is_op a -> is_op b -> False) ->
  ~ has_consecutive_operators (ts1 ++ ts2).
Proof.
  intros H1 H2 Hb (i & a & b & Ha & Hb' & Oa & Ob).
  destruct (decide (S i < length ts1)) as [Hlt|Hge].
  - rewrite lookup_app_l in Ha, Hb' by lia. apply H1. by exists i, a, b.
  - destruct (decide (length ts1 <= i)) as [Hle|Hgt].
    + rewrite lookup_app_r in Ha, Hb' by lia.
      replace (S i - length ts1) with (S (i - length ts1)) in Hb' by lia.
      apply H2. by exists (i - length ts1), a, b.
    + rewrite lookup_app_l in Ha by lia.
      rewrite lookup_app_r in Hb' by lia.
      replace (S i - length ts1) with 0 in Hb' by lia.
      apply (Hb a b); try done.
      * rewrite last_lookup. by replace (pred (length ts1)) with i by lia.
      * by rewrite head_lookup.
Qed.

Lemma never_negative_app (ts1 ts2 : list Token) :
  never_negative ts1 -> never_negative ts2 -> never_negative (ts1 ++ ts2).
Proof.
  intros H1 H2 j. rewrite take_app, paren_count_app.
  specialize (H1 j). specialize (H2 (j - length ts1)). lia.
Qed.

Lemma never_negative_single (t : Token) :
  Token.type t <> RPAREN -> never_negative [t].
Proof.
  intros H [|j]; simpl; [done|]. rewrite take_nil. simpl.
  unfold paren_delta. destruct (Token.type t); try done; lia.
Qed.

Lemma no_consecutive_single (t : Token) : ~ has_consecutive_operators [t].
Proof. intros (i & a & b & _ & Hb & _). by destruct i. Qed.

Lemma no_consecutive_nil : ~ has_consecutive_operators [].
Proof. by intros (i & a & b & Ha & _). Qed.

Lemma not_op (t : Token) (k : TokenType) :
  Token.type t = k -> TokenType.is_operator k = false -> ~ is_op t.
Proof. unfold is_op. intros -> H. by rewrite H. Qed.

Lemma phrase_shape_app (X Y Z : Sym) (ts1 ts2 : list Token) :
  phrase_shape X ts1 -> strict_sym X = false -> phrase_shape Y ts2 ->
  phrase_shape Z (ts1 ++ ts2).
Proof.
  intros (A1 & A2 & A3 & A4 & A5) HX (B1 & B2 & B3 & B4 & _).
  destruct (A5 HX) as (t1 & Hh & Hn).
  unfold phrase_shape. rewrite paren_count_app.
  refine (conj _ (conj _ (conj _ (conj _ _)))).
  - lia.
  - by apply never_negative_app.
  - apply no_consecutive_app; try done. intros a b Ha _ Oa _. by apply (A4 a).
  - intros t. rewrite last_app. destruct (last ts2) as [y|] eqn:E.
    + intros [= <-]. by apply B4.
    + apply A4.
  - intros _. exists t1. split; [|done]. by destruct ts1.
Qed.

Lemma phrase_shape_operator (X Y Z : Sym) (tok : Token)
    (ts1 ts2 : list Token) :
  is_op tok ->
  phrase_shape X ts1 -> strict_sym X = false -> phrase_shape Y ts2 ->
  strict_sym Z = true ->
  phrase_shape Z (tok :: ts1 ++ ts2).
Proof.
  intros Hop S1 HX S2 HZ.
  pose proof (phrase_shape_app X Y sE _ _ S1 HX S2)
    as (A1 & A2 & A3 & A4 & A5).
  destruct (A5 eq_refl) as (t1 & Hh & Hn).
  assert (Hk : Token.type tok <> LPAREN /\ Token.type tok <> RPAREN).
  { unfold is_op in Hop. by destruct (Token.type tok). }
  unfold phrase_shape.
  refine (conj _ (conj _ (conj _ (conj _ _)))).
  - simpl. rewrite A1. unfold paren_delta.
    destruct (Token.type tok); try done; by destruct Hk.
  - apply (never_negative_app [tok]); [|done].
    apply never_negative_single. by destruct Hk.
  - apply (no_consecutive_app [tok]); try done.
    + apply no_consecutive_single.
    + intros a b _ Hb _ Ob. rewrite Hh in Hb. injection Hb as <-. done.
  - intros t. destruct (ts1 ++ ts2) as [|x l] eqn:E; [done|].
    rewrite last_cons_cons. apply A4.
  - by rewrite HZ.
Qed.

Lemma phrase_shape_paren (X : Sym) (ltok rtok : Token) (ts : list Token) :
  Token.type ltok = LPAREN -> Token.type rtok = RPAREN ->
  phrase_shape sE ts ->
  phrase_shape X (ltok :: ts ++ [rtok]).
Proof.
  intros Hl Hr (A1 & A2 & A3 & A4 & A5).
  destruct (A5 eq_refl) as (t1 & Hh & Hn).
  unfold phrase_shape.
  refine (conj _ (conj _ (conj _ (conj _ _)))).
  - simpl. rewrite paren_count_app, A1. simpl. unfold paren_delta.
    rewrite Hl, Hr. lia.
  - intros [|j]; [done|]. simpl. rewrite take_app, paren_count_app.
    specialize (A2 j). unfold paren_delta at 1. rewrite Hl.
    assert (-1 <= paren_count (take (j - length ts) [rtok]))%Z; [|lia].
    destruct (j - length ts); simpl; [lia|]. rewrite take_nil. simpl.
    unfold paren_delta. rewrite Hr. lia.
  - apply (no_consecutive_app [ltok]).
    + apply no_consecutive_single.
    + apply no_consecutive_app; try done.
      * apply no_consecutive_single.
      * intros a b Ha _ Oa _. by apply (A4 a).
    + intros a b [= <-] _ Oa _. by apply (not_op _ _ Hl) in Oa.
  - intros t. change (ltok :: ts ++ [rtok]) with ((ltok :: ts) ++ [rtok]).
    rewrite last_snoc. intros [= <-]. by apply (not_op _ _ Hr).
  - intros _. exists ltok. split; [done|]. by apply (not_op _ _ Hl).
Qed.

Lemma denotes_shape (X : Sym) (ts : list Token) (z : Z) :
  denotes X ts z -> phrase_shape X ts.
Proof.
  induction 1 as [ts1 ts2 v1 v2 H1 IH1 H2 IH2
                 |
                 |tok ts1 ts2 v1 v2 Hk H1 IH1 H2 IH2
                 |ts1 ts2 v1 v2 H1 IH1 H2 IH2
                 |
                 |tok ts1 ts2 v1 v2 Hk H1 IH1 H2 IH2
                 |tok z Hk Hv
                 |ltok ts rtok z Hl H1 IH1 Hr].
  - by apply (phrase_shape_app sT sE').
  - unfold phrase_shape. repeat split; try done.
    + by intros [|j].
    + apply no_consecutive_nil.
  - apply (phrase_shape_operator sT sE'); try done.
    unfold is_op. by rewrite Hk.
  - by apply (phrase_shape_app sF sT').
  - unfold phrase_shape. repeat split; try done.
    + by intros [|j].
    + apply no_consecutive_nil.
  - apply (phrase_shape_operator sF sT'); try done.
    unfold is_op. by rewrite Hk.
  - unfold phrase_shape.
    refine (conj _ (conj _ (conj _ (conj _ _)))).
    + simpl. unfold paren_delta. rewrite Hk. done.
    + apply never_negative_single. by rewrite Hk.
    + apply no_consecutive_single.
    + intros t [= <-]. by apply (not_op _ _ Hk).
    + intros _. exists tok. split; [done|]. by apply (not_op _ _ Hk).
  - by apply phrase_shape_paren.
Qed.


End PhraseShape.

(* ===================================================================== *)
(** ** The value of an accepted expression *)
(* ===================================================================== *)

Section Denotation.

Import Parser.

Lemma evaluated_denotes (X : Sym) (n : ParseTreeNode) (z : Z) :
  evaluated X n z -> denotes X (ParseTreeNode.leaves n) z.
Proof.
  induction 1 as [t e tv ev d i Ht IHt He IHe
                 |d i
                 |p tok t e tv ev d i Hp Ht IHt He IHe
                 |f t' fv tv d i Hf IHf Ht' IHt' Hne
                 |f t' fv d i Hf IHf Ht' IHt'
                 |d i
                 |m tok f t' fv tv d i Hm Hf IHf Ht' IHt'
                 |n tok z d i Hn
                 |l ltok e r rtok z d i Hl He IHe Hr];
    cbn [ParseTreeNode.leaves]; rewrite ?app_nil_r; cbn [app].
  - by constructor.
  - constructor.
  - pose proof (leaves_terminal _ _ _ _ Hp) as Lp.
    cbn [ParseTreeNode.leaves] in Lp. rewrite Lp. cbn [app].
    destruct Hp as (? & ? & _ & Hk). by apply denotes_E'_plus.
  - by constructor.
  - rewrite <- (Z.mul_1_r fv). by constructor.
  - constructor.
  - pose proof (leaves_terminal _ _ _ _ Hm) as Lm.
    cbn [ParseTreeNode.leaves] in Lm. rewrite Lm. cbn [app].
    destruct Hm as (? & ? & _ & Hk). by apply denotes_T'_times.
  - destruct Hn as (d0 & i0 & -> & Hk & Hv). simpl.
    constructor; [done|]. unfold id_value.
    by destruct Hv as [[-> ->]|[-> ->]].
  - pose proof (leaves_terminal _ _ _ _ Hl) as Ll.
    pose proof (leaves_terminal _ _ _ _ Hr) as Lr.
    cbn [ParseTreeNode.leaves] in Ll, Lr. rewrite Ll, Lr. cbn [app].
    destruct Hl as (? & ? & _ & Hkl). destruct Hr as (? & ? & _ & Hkr).
    by apply denotes_F_paren.
Qed.


(** What an accepted token list is. *)
Lemma parse_denotes (depth : nat) (self : Parser) (toks : list Token)
    (p' : Parser) (b : bool) :
  parse depth self toks = (p', Return b) ->
  b = true
  /\ exists z, denotes sE toks z
               /\ get_evaluation_result p' = (p', Some z).
Proof.
  intros H. apply parse_accepted in H
    as (-> & _ & _ & p1 & root & root' & z & _ & _ & Hev & Hz & Hl & Hroot & _).
  split; [done|]. exists z. split.
  - rewrite <- Hl. by apply evaluated_denotes.
  - unfold get_evaluation_result, evaluate_root. rewrite Hroot.
    pose proof (evaluate_evaluate root) as Hid. rewrite Hev in Hid.
    simpl in Hid. rewrite Hid. destruct p'; simpl in *. by subst.
Qed.






End Denotation.

Section Readable.

Import Parser.


End Readable.

(** X6.  Only expressions of the grammar are accepted: when [parse]
    returns, at any call depth, it returns [True], the token list is
    derived by the grammar [E -> T E'], [E' -> + T E' | eps], [T -> F T'],
    [T' -> * F T' | eps], [F -> ( E ) | id], and the value
    [get_evaluation_result] reports is the arithmetic value of that
    derivation, digits standing for their number and every other
    identifier for 1. *)
Theorem parse_accepts_only_grammar (depth : nat) (self : Parser.Parser)
    (toks : list Token) (p' : Parser.Parser) (b : bool) :
  Parser.parse depth self toks = (p', Return b) ->
  b = true
  /\ exists z, denotes sE toks z
               /\ Parser.get_evaluation_result p' = (p', Some z).
Proof. apply parse_denotes. Qed.

Lemma parse_accepts_only_grammar_witness :
  true = true
  /\ exists z,
       denotes sE sum_tokens z
       /\ Parser.get_evaluation_result
            (fst (Parser.parse 1000 Parser.new sum_tokens))
          = (fst (Parser.parse 1000 Parser.new sum_tokens), Some z).
Proof.
  apply (parse_accepts_only_grammar 1000 Parser.new sum_tokens).
  vm_compute. reflexivity.
Defined.







(* ===================================================================== *)
(** ** Evaluation touches nothing but the cached values *)
(* ===================================================================== *)

Section EvaluateFrame.

Import ParseTreeNode.

Lemma evaluate_clear_values (n : ParseTreeNode) :
  clear_values (fst (evaluate n)) = clear_values n.
Proof.
  induction n as [r cs t v d i IH] using ParseTreeNode_nested_ind.
  assert (H0 : forall c0 l, cs = c0 :: l ->
                 clear_values (fst (evaluate c0)) = clear_values c0).
  { intros c0 l ->. by inversion IH. }
  assert (H1 : forall c0 c1 l, cs = c0 :: c1 :: l ->
                 clear_values (fst (evaluate c1)) = clear_values c1).
  { intros c0 c1 l ->. inversion IH as [|? ? _ IH']. by inversion IH'. }
  assert (H2 : forall c0 c1 c2 l, cs = c0 :: c1 :: c2 :: l ->
                 clear_values (fst (evaluate c2)) = clear_values c2).
  { intros c0 c1 c2 l ->. inversion IH as [|? ? _ IH'].
    inversion IH' as [|? ? _ IH'']. by inversion IH''. }
  clear IH.
  destruct cs as [|c0 [|c1 [|c2 rest]]].
  all: try (specialize (H0 _ _ eq_refl);
            destruct (evaluate c0) as [c0' o0] eqn:E0; simpl in H0).
  all: try (specialize (H1 _ _ _ eq_refl);
            destruct (evaluate c1) as [c1' o1] eqn:E1; simpl in H1).
  all: try (specialize (H2 _ _ _ _ eq_refl);
            destruct (evaluate c2) as [c2' o2] eqn:E2; simpl in H2).
  all: simpl; rewrite ?E0, ?E1, ?E2; unfold store, add_unless_none,
         mul_unless_none, mul_unless_none_or_one;
    repeat case_match; simplify_eq/=; rewrite ?H0, ?H1, ?H2; done.
Qed.

Lemma node_ids_clear_values (n : ParseTreeNode) :
  node_ids (clear_values n) = node_ids n.
Proof.
  induction n as [r cs t v d i IH] using ParseTreeNode_nested_ind.
  simpl. f_equal. induction IH as [|c cs Hc _ IHcs]; [done|].
  simpl. by rewrite Hc, IHcs.
Qed.

Lemma leaves_clear_values (n : ParseTreeNode) :
  leaves (clear_values n) = leaves n.
Proof.
  induction n as [r cs t v d i IH] using ParseTreeNode_nested_ind.
  simpl. f_equal. induction IH as [|c cs Hc _ IHcs]; [done|].
  simpl. by rewrite Hc, IHcs.
Qed.

End EvaluateFrame.

(** X10.  [evaluate] changes nothing of a tree but cached values: on every
    tree, whether the call returns or raises, the tree it leaves has the
    same rules, children, tokens, depths and node ids as before; so its
    terminal leaves and its node ids, read in pre-order, are the same. *)
Theorem evaluate_changes_values_only (n : ParseTreeNode) :
  let n' := fst (ParseTreeNode.evaluate n) in
  clear_values n' = clear_values n
  /\ ParseTreeNode.leaves n' = ParseTreeNode.leaves n
  /\ node_ids n' = node_ids n.
Proof.
  cbv zeta. pose proof (evaluate_clear_values n) as H.
  split; [done|]. split.
  - by rewrite <- leaves_clear_values, H, leaves_clear_values.
  - by rewrite <- node_ids_clear_values, H, node_ids_clear_values.
Qed.

(* ===================================================================== *)
(** ** Further properties of the symbol table *)
(* ===================================================================== *)

Section TableExtras.

Import SymbolTable.

(** Building the entry of a token raises exactly for an identifier whose
    digits [int()] rejects. *)
Lemma entry_new_outcome (t : Token) :
  (Token.type t = ID /\ id_value t = None
   /\ exists m, SymbolTableEntry.new t = Raise (ValueError m))
  \/ (readable t /\ exists e, SymbolTableEntry.new t = Return e).
Proof.
  unfold SymbolTableEntry.new, SymbolTableEntry._get_token_attributes,
    readable, id_value.
  destruct (Token.type t) eqn:Hk; simpl; try (right; split; [done|eauto]).
  destruct (PyStr.str_isdigit (Token.value t)).
  - destruct (PyStr.int (Token.value t)); [right|left]; eauto.
  - right. split; [done|].
    destruct (PyStr.str_isalpha (Token.value t)); [|eauto].
    destruct (PyStr.str_isupper (Token.value t)); [eauto|].
    destruct (PyStr.str_islower (Token.value t)); eauto.
Qed.

Lemma add_token_returns (st : SymbolTable) (t : Token) :
  call_returns (AddToken t) -> snd (add_token st t) = Return tt.
Proof.
  intros H. unfold add_token.
  destruct (Token.is_valid t) eqn:Hv; [|done]. simpl.
  destruct (entries st !! key (Token.value t) (Token.type t)); [done|].
  by destruct (H Hv) as [e ->].
Qed.

(** X11.  [add_token] followed by [get_entry], on any table.  A valid
    token is afterwards found under its value and kind: with one more
    occurrence when the pair had an entry, with a new entry otherwise; the
    entries of all other pairs are as before, and the total and the count
    of the token's kind have grown by one.  A token of kind [INVALID]
    leaves the table as it is.  [add_token] raises only when the pair has
    no entry yet and building one raises; the token is then counted in the
    total and no entry is made. *)
Theorem add_token_then_get_entry (st : SymbolTable) (t : Token) :
  let st' := fst (add_token st t) in
  match snd (add_token st t) with
  | Return _ =>
      if Token.is_valid t then
        (exists e',
            get_entry st' (Token.value t) (Token.type t) = Some e'
            /\ match get_entry st (Token.value t) (Token.type t) with
               | Some e => e' = SymbolTableEntry.add_occurrence e t
               | None => SymbolTableEntry.new t = Return e'
               end)
        /\ (forall v k,
              (v, k) <> (Token.value t, Token.type t) ->
              get_entry st' v k = get_entry st v k)
        /\ total_tokens st' = total_tokens st + 1
        /\ (forall k, type_count st' k
                      = type_count st k
                        + (if decide (Token.type t = k) then 1 else 0))
      else st' = st
  | Raise e =>
      get_entry st (Token.value t) (Token.type t) = None
      /\ SymbolTableEntry.new t = Raise e
      /\ entries st' = entries st
      /\ unique_tokens st' = unique_tokens st
      /\ total_tokens st' = total_tokens st + 1
  | Exhausted => False
  end.
Proof.
  cbv zeta. unfold add_token, get_entry, type_count.
  destruct (Token.is_valid t) eqn:Hv; [|done]. simpl.
  assert (Hother : forall (e : SymbolTableEntry) v k,
             (v, k) <> (Token.value t, Token.type t) ->
             <[key (Token.value t) (Token.type t) := e]> (entries st)
               !! key v k = entries st !! key v k).
  { intros e v k Hne. apply lookup_insert_ne. intros H.
    apply key_inj in H as [? ?]. subst. done. }
  destruct (entries st !! key (Token.value t) (Token.type t)) as [e|] eqn:Hlk;
    simpl.
  - refine (conj _ (conj _ (conj _ _))); try done.
    + exists (SymbolTableEntry.add_occurrence e t).
      by rewrite lookup_insert_eq.
    + intros v k. apply Hother.
    + intros k. apply type_count_bump.
  - destruct (entry_new_outcome t) as [(_ & _ & m & ->)|(_ & e & ->)]; simpl.
    + done.
    + refine (conj _ (conj _ (conj _ _))); try done.
      * exists e. by rewrite lookup_insert_eq.
      * intros v k. apply Hother.
      * intros k. apply type_count_bump.
Qed.

Lemma read_type_count_spec (st : SymbolTable) (k : TokenType) :
  snd (read_type_count st k) = type_count st k
  /\ (forall k', type_count (fst (read_type_count st k)) k'
                 = type_count st k')
  /\ entries (fst (read_type_count st k)) = entries st
  /\ total_tokens (fst (read_type_count st k)) = total_tokens st
  /\ unique_tokens (fst (read_type_count st k)) = unique_tokens st.
Proof.
  unfold read_type_count, type_count.
  destruct (token_types_count st !! TokenType.name k) eqn:E; simpl;
    rewrite ?E; repeat split; try done.
  intros k'. destruct (decide (k = k')) as [<-|Hne].
  - by rewrite lookup_insert_eq, E.
  - rewrite lookup_insert_ne; [done|]. intros H. by apply name_inj in H.
Qed.

Lemma count_kinds_total (toks : list Token) :
  Forall (fun t => grammar_kind (Token.type t) = true) toks ->
  length toks
  = count_kind ID toks + (count_kind PLUS toks + count_kind MULTIPLY toks)
    + (count_kind LPAREN toks + count_kind RPAREN toks).
Proof.
  unfold count_kind. induction 1 as [|t toks Ht _ IH]; [done|].
  rewrite !filter_cons. simpl. rewrite IH.
  destruct (Token.type t); try done;
    repeat case_decide; try done; simpl; lia.
Qed.

Lemma paren_count_kinds (toks : list Token) :
  paren_count toks
  = (Z.of_nat (count_kind LPAREN toks) - Z.of_nat (count_kind RPAREN toks))%Z.
Proof.
  unfold count_kind. induction toks as [|t toks IH]; [done|].
  rewrite !filter_cons. simpl. rewrite IH. unfold paren_delta.
  destruct (Token.type t); repeat case_decide; try done; simpl; lia.
Qed.

Lemma size_le_sum_counts (m : gmap string SymbolTableEntry) :
  (forall s e, m !! s = Some e -> 1 <= SymbolTableEntry.count e) ->
  size m
  <= map_fold (fun _ entry acc => SymbolTableEntry.count entry + acc) 0 m.
Proof.
  induction m as [|s e m Hs _ IH] using map_first_key_ind.
  - intros _. by rewrite map_size_empty.
  - intros H. rewrite map_size_insert_None, sum_counts_insert_new by done.
    pose proof (H s e (lookup_insert_eq _ _ _)).
    assert (size m
            <= map_fold
                 (fun _ entry acc => SymbolTableEntry.count entry + acc) 0 m).
    { apply IH. intros s' e' Hs'. apply (H s' e').
      rewrite lookup_insert_ne; [done|]. intros <-. congruence. }
    lia.
Qed.

Lemma invariant_unique_le_total (st : SymbolTable) (toks : list Token) :
  table_invariant st toks -> unique_tokens st <= total_tokens st.
Proof.
  intros (Hent & Hkey & Htot & Huniq & Hsum & _).
  rewrite Huniq, <- Hsum. apply size_le_sum_counts.
  intros s e Hs. pose proof (Hkey _ _ Hs) as ->.
  specialize (Hent (SymbolTableEntry.token_value e)
                (SymbolTableEntry.token_type e)).
  unfold get_entry in Hent.
  destruct (occurrences _ _ toks) as [|o occ]; [congruence|].
  destruct Hent as (e' & He' & _ & _ & Hc & _).
  assert (e' = e) as -> by congruence. rewrite Hc. simpl. lia.
Qed.

End TableExtras.

(* ===================================================================== *)
(** ** The analysis of the front ends *)
(* ===================================================================== *)

Section AnalysisSteps.

Import SymbolTable Analysis.

Lemma invariant_cleared (st : SymbolTable) : table_invariant (clear st) [].
Proof. exact (calls_invariant [] (Forall_nil_2 _)). Qed.

Lemma id_value_text (a b : Token) :
  Token.value a = Token.value b -> id_value a = id_value b.
Proof. unfold id_value. by intros ->. Qed.

(** The loop over the tokens: it runs to the end when every identifier is
    readable, and stops with the [ValueError] of the first one that is
    not. *)
Lemma add_tokens_cases (toks : list Token) :
  forall st seen,
    table_invariant st seen -> Forall readable seen ->
    Forall (fun t => Token.is_valid t = true) toks ->
    (Forall readable toks
     /\ snd (add_tokens st toks) = Return tt
     /\ table_invariant (fst (add_tokens st toks)) (seen ++ toks))
    \/ (exists t m,
          t ∈ toks /\ Token.type t = ID /\ id_value t = None
          /\ snd (add_tokens st toks) = Raise (ValueError m)).
Proof.
  induction toks as [|t toks IH]; intros st seen Hinv Hseen Hvalid.
  { left. by rewrite app_nil_r. }
  apply Forall_cons in Hvalid as [Hv Hvalid].
  destruct (entry_new_outcome t) as [(Hk & Hbad & m & Hnew)|(Hgood & e & Hnew)].
  - right. exists t, m. split; [apply elem_of_cons; by left|].
    split; [done|]. split; [done|].
    destruct Hinv as (Hent & _).
    specialize (Hent (Token.value t) (Token.type t)).
    destruct (occurrences (Token.value t) (Token.type t) seen)
      as [|o occ] eqn:Hocc.
    + cbn [add_tokens]. unfold add_token. rewrite Hv. simpl.
      unfold get_entry in Hent. by rewrite Hent, Hnew.
    + exfalso.
      assert (Ho : o ∈ occurrences (Token.value t) (Token.type t) seen)
        by (rewrite Hocc; apply elem_of_cons; by left).
      apply list_elem_of_filter in Ho as [[Hval Hty] Hin].
      apply (proj1 (Forall_forall _ _) Hseen) in Hin.
      apply Hin; [congruence|]. by rewrite (id_value_text o t).
  - assert (Hret : call_returns (AddToken t)) by (intros _; eauto).
    pose proof (call_invariant st seen (AddToken t) Hinv Hret) as Hinv'.
    pose proof (add_token_returns st t Hret) as Hsnd.
    simpl in Hinv'. rewrite Hv in Hinv'.
    cbn [add_tokens]. destruct (add_token st t) as [st1 o].
    simpl in Hsnd, Hinv'. subst o.
    destruct (IH st1 (seen ++ [t]) Hinv') as [(Hr & Hs & Hi)|Hbad];
      [apply Forall_app; split; [done|by constructor] | done | |].
    + left. split; [by constructor|]. split; [done|].
      by rewrite <- app_assoc in Hi.
    + right. destruct Hbad as (t' & m & Hin & ?). exists t', m.
      split; [|done]. apply elem_of_cons. by right.
Qed.

(** The tokens [tokenize] returns. *)
Lemma tokenize_returned (l : Lexer.Lexer) (s : string) (toks : list Token) :
  snd (Lexer.tokenize l s) = Return toks ->
  toks <> []
  /\ Forall (fun t => grammar_kind (Token.type t) = true) toks
  /\ length toks = length (visible s).
Proof.
  intros Hret. pose proof (tokenize_visible l s) as H. rewrite Hret in H.
  destruct H as (Hne & Hmap & Hvalid).
  split; [|split].
  - intros ->. simpl in Hmap. symmetry in Hmap.
    by apply map_eq_nil in Hmap.
  - apply Forall_forall. intros t Ht.
    apply (list_elem_of_fmap_2 kind_and_text) in Ht.
    change (kind_and_text <$> toks) with (map kind_and_text toks) in Ht.
    rewrite Hmap in Ht.
    change (map ?f ?l) with (f <$> l) in Ht.
    apply list_elem_of_fmap in Ht as (c & Hc & Hin).
    injection Hc as Hc _. rewrite Hc.
    assert (Hv : Lexer.is_valid_character c = true).
    { destruct (Lexer.is_valid_character c) eqn:E; [done|].
      exfalso. by apply (filter_nil_not_elem_of _ _ c Hvalid). }
    apply list_elem_of_filter in Hin as [Hsp _].
    pose proof (kind_of_invalid c Hsp) as Hi.
    unfold Scan.kind_of in *.
    destruct (Ascii.eqb c "+"), (Ascii.eqb c "*"), (Ascii.eqb c "("),
      (Ascii.eqb c ")"), (PyStr.isalnum c); try done.
    destruct Hi as [Hi _]. specialize (Hi eq_refl). congruence.
  - apply (f_equal length) in Hmap. by rewrite !length_map in Hmap.
Qed.

Lemma grammar_kind_valid (toks : list Token) :
  Forall (fun t => grammar_kind (Token.type t) = true) toks ->
  Forall (fun t => Token.is_valid t = true) toks.
Proof.
  intros H. eapply Forall_impl; [done|]. intros t. unfold Token.is_valid.
  by destruct (Token.type t).
Qed.

(** The table after the loop over returned tokens. *)
Lemma add_tokens_lexed (l : Lexer.Lexer) (s : string) (toks : list Token)
    (st : SymbolTable) :
  snd (Lexer.tokenize l s) = Return toks ->
  (Forall readable toks
   /\ snd (add_tokens (clear st) toks) = Return tt
   /\ table_invariant (fst (add_tokens (clear st) toks)) toks)
  \/ (exists t m,
        t ∈ toks /\ Token.type t = ID /\ id_value t = None
        /\ snd (add_tokens (clear st) toks) = Raise (ValueError m)).
Proof.
  intros Hret. destruct (tokenize_returned _ _ _ Hret) as (_ & Hk & _).
  apply (add_tokens_cases toks (clear st) []).
  - apply invariant_cleared.
  - constructor.
  - by apply grammar_kind_valid.
Qed.

End AnalysisSteps.

Section Statistics.

Import SymbolTable Analysis.

Ltac step_read :=
  match goal with
  | |- context [read_type_count ?s ?k] =>
      let R := fresh "R" in
      let S := fresh "S" in
      let E := fresh "E" in
      let T := fresh "T" in
      let U := fresh "U" in
      pose proof (read_type_count_spec s k) as (R & S & E & T & U);
      destruct (read_type_count s k) as [? ?]; cbn [fst snd] in R, S, E, T, U;
      repeat match goal with
        | Hs : forall k', type_count s k' = _ |- _ =>
            rewrite Hs in R; setoid_rewrite Hs in S
        end
  end.

Lemma get_statistics_spec (st : SymbolTable) :
  let st' := fst (get_statistics st) in
  let stats := snd (get_statistics st) in
  stat_total_tokens stats = total_tokens st
  /\ stat_unique_tokens stats = unique_tokens st
  /\ stat_token_types stats = token_types_count st
  /\ identifier_count stats = type_count st ID
  /\ operator_count stats = type_count st PLUS + type_count st MULTIPLY
  /\ delimiter_count stats = type_count st LPAREN + type_count st RPAREN
  /\ (forall k, type_count st' k = type_count st k)
  /\ entries st' = entries st
  /\ total_tokens st' = total_tokens st
  /\ unique_tokens st' = unique_tokens st.
Proof.
  cbv zeta. unfold get_statistics. repeat step_read. cbn [fst snd].
  cbn [stat_total_tokens stat_unique_tokens stat_token_types
       identifier_count operator_count delimiter_count].
  subst.
  refine (conj _ (conj _ (conj _ (conj _ (conj _ (conj _
            (conj _ (conj _ (conj _ _))))))))); try done; congruence.
Qed.

Lemma get_token_coverage_spec (st : SymbolTable) :
  let c := snd (get_token_coverage st) in
  has_identifiers c = (0 <? type_count st ID)
  /\ has_operators c
     = ((0 <? type_count st PLUS) || (0 <? type_count st MULTIPLY))
  /\ has_parentheses c
     = ((0 <? type_count st LPAREN) && (0 <? type_count st RPAREN))
  /\ parentheses_balanced c
     = (type_count st LPAREN =? type_count st RPAREN).
Proof.
  cbv zeta. unfold get_token_coverage.
  repeat (step_read || case_match; simplify_eq/=).
  all: cbn [fst snd has_identifiers has_operators has_parentheses
            parentheses_balanced];
    repeat match goal with
      | Hs : forall k', type_count ?s k' = _, H : (_ <? _) = _ |- _ =>
          rewrite !Hs in H
      | Hs : forall k', type_count ?s k' = _ |- context [type_count ?s _] =>
          rewrite !Hs
      end;
    repeat match goal with
      | H : (_ <? _) = _ |- _ => rewrite H
      end; done.
Qed.

End Statistics.

Section AnalysisFacts.

Import SymbolTable Analysis.

Lemma count_kind_app (k : TokenType) (l1 l2 : list Token) :
  count_kind k (l1 ++ l2) = count_kind k l1 + count_kind k l2.
Proof. unfold count_kind. by rewrite filter_app, length_app. Qed.

Lemma count_kind_positive (k : TokenType) (toks : list Token) :
  0 < count_kind k toks <-> exists t, t ∈ toks /\ Token.type t = k.
Proof.
  unfold count_kind. split.
  - destruct (filter _ toks) as [|t l] eqn:E; simpl; [lia|]. intros _.
    assert (Ht : t ∈ filter (fun t => Token.type t = k) toks)
      by (rewrite E; apply elem_of_cons; by left).
    apply list_elem_of_filter in Ht as [? ?]. by exists t.
  - intros (t & Hin & Hk).
    assert (Ht : t ∈ filter (fun t => Token.type t = k) toks)
      by (by apply list_elem_of_filter).
    destruct (filter _ toks); [by apply elem_of_nil in Ht|simpl; lia].
Qed.

(** An expression has an identifier. *)
Lemma denotes_identifier (X : Sym) (ts : list Token) (z : Z) :
  denotes X ts z -> strict_sym X = false -> 0 < count_kind ID ts.
Proof.
  induction 1 as [? ? ? ? ? IH1 ? _| | |? ? ? ? ? IH1 ? _| |
                  |tok ? Hk ?|? ? ? ? ? ? IH1 ?]; intros HX; try done.
  - rewrite count_kind_app. specialize (IH1 eq_refl). lia.
  - rewrite count_kind_app. specialize (IH1 eq_refl). lia.
  - unfold count_kind. rewrite filter_cons. case_decide; [simpl; lia|done].
  - change (ltok :: ts ++ [rtok]) with ([ltok] ++ ts ++ [rtok]).
    rewrite !count_kind_app. specialize (IH1 eq_refl). lia.
Qed.

(** What the analysis has done when it returns. *)
Lemma analyze_returned (depth : nat) (self self' : State) (s : string)
    (toks : list Token) (b : bool) :
  analyze depth self s = (self', Return (toks, b)) ->
  snd (Lexer.tokenize (lexer self) s) = Return toks
  /\ add_tokens (clear (symbol_table self)) toks
     = (symbol_table self', Return tt)
  /\ Parser.parse depth (parser self) toks = (parser self', Return b).
Proof.
  unfold analyze. intros H.
  destruct (Lexer.tokenize (lexer self) s) as [l1 [toks1|e|]]; try done.
  destruct (add_tokens (clear (symbol_table self)) toks1)
    as [st1 [[]|e|]] eqn:Hadd; try done.
  destruct (Parser.parse depth (parser self) toks1) as [p1 [b1|e|]]
    eqn:Hparse;
    try done.
  injection H as <- <- <-. simpl. by rewrite Hadd, Hparse.
Qed.


Lemma table_after_lexed (l : Lexer.Lexer) (s : string) (toks : list Token)
    (st0 st : SymbolTable) :
  snd (Lexer.tokenize l s) = Return toks ->
  add_tokens (clear st0) toks = (st, Return tt) ->
  table_invariant st toks.
Proof.
  intros Hlex Hadd.
  destruct (add_tokens_lexed l s toks st0 Hlex)
    as [(_ & _ & Hinv)|(t & m & _ & _ & _ & Hr)].
  - by rewrite Hadd in Hinv.
  - by rewrite Hadd in Hr.
Qed.

End AnalysisFacts.

(** X12.  What an accepted analysis means, at any call depth.  When the
    steps the front ends run (tokenize, clear the table, add every token,
    parse) all return,
    [parse] returned [True]; the token list has one token per character of
    the expression that is not whitespace and is an expression of the
    grammar, whose arithmetic value [get_evaluation_result] reports; and
    the symbol table describes exactly these tokens: every pair of a value
    and a kind has an entry with its occurrences, or none if it does not
    occur, and the totals agree. *)
Theorem analysis_accepted (depth : nat) (self self' : Analysis.State)
    (s : string) (toks : list Token) (b : bool) :
  Analysis.analyze depth self s = (self', Return (toks, b)) ->
  b = true
  /\ snd (Lexer.tokenize (Analysis.lexer self) s) = Return toks
  /\ length toks = length (visible s)
  /\ table_invariant (Analysis.symbol_table self') toks
  /\ exists z,
       denotes sE toks z
       /\ Parser.get_evaluation_result (Analysis.parser self')
          = (Analysis.parser self', Some z).
Proof.
  intros H. apply analyze_returned in H as (Hlex & Hadd & Hparse).
  apply parse_denotes in Hparse as (-> & z & Hden & Hval).
  destruct (tokenize_returned _ _ _ Hlex) as (_ & _ & Hlen).
  refine (conj _ (conj _ (conj _ (conj _ _)))); try done.
  - by eapply table_after_lexed.
  - by exists z.
Qed.

Lemma analysis_accepted_witness :
  true = true
  /\ snd (Lexer.tokenize (Analysis.lexer new_state) " 2+3 ") = Return sum_tokens
  /\ length sum_tokens = length (visible " 2+3 ")
  /\ table_invariant
       (Analysis.symbol_table (fst (Analysis.analyze 1000 new_state " 2+3 ")))
       sum_tokens
  /\ exists z,
       denotes sE sum_tokens z
       /\ Parser.get_evaluation_result
            (Analysis.parser (fst (Analysis.analyze 1000 new_state " 2+3 ")))
          = (Analysis.parser (fst (Analysis.analyze 1000 new_state " 2+3 ")),
             Some z).
Proof.
  apply (analysis_accepted 1000 new_state
           (fst (Analysis.analyze 1000 new_state " 2+3 ")) " 2+3 "
           sum_tokens true).
  vm_compute. reflexivity.
Defined.





(** X15.  The statistics of the table after the tokens of an expression
    were added: the total is the number of tokens; the identifier, operator
    and delimiter counts are the numbers of tokens of these kinds and add
    up to the total; there is at least one unique token and never more
    unique tokens than tokens, and [has_entries] answers true.  The reads
    [get_statistics] does on the [defaultdict] change no count, so a
    further call reports the same numbers. *)
Theorem statistics_of_added_tokens (l : Lexer.Lexer) (s : string)
    (toks : list Token) (st0 st : SymbolTable) :
  snd (Lexer.tokenize l s) = Return toks ->
  Analysis.add_tokens (SymbolTable.clear st0) toks = (st, Return tt) ->
  let stats := snd (SymbolTable.get_statistics st) in
  let again :=
    snd (SymbolTable.get_statistics (fst (SymbolTable.get_statistics st))) in
  SymbolTable.stat_total_tokens stats = length toks
  /\ SymbolTable.identifier_count stats = count_kind ID toks
  /\ SymbolTable.operator_count stats
     = count_kind PLUS toks + count_kind MULTIPLY toks
  /\ SymbolTable.delimiter_count stats
     = count_kind LPAREN toks + count_kind RPAREN toks
  /\ SymbolTable.identifier_count stats + SymbolTable.operator_count stats
     + SymbolTable.delimiter_count stats
     = SymbolTable.stat_total_tokens stats
  /\ 1 <= SymbolTable.stat_unique_tokens stats
       <= SymbolTable.stat_total_tokens stats
  /\ SymbolTable.has_entries st = true
  /\ SymbolTable.stat_total_tokens again
     = SymbolTable.stat_total_tokens stats
  /\ SymbolTable.stat_unique_tokens again
     = SymbolTable.stat_unique_tokens stats
  /\ SymbolTable.identifier_count again = SymbolTable.identifier_count stats
  /\ SymbolTable.operator_count again = SymbolTable.operator_count stats
  /\ SymbolTable.delimiter_count again = SymbolTable.delimiter_count stats.
Proof.
  intros Hlex Hadd. cbv zeta.
  pose proof (table_after_lexed _ _ _ _ _ Hlex Hadd) as Hinv.
  pose proof (invariant_unique_le_total _ _ Hinv) as Hle.
  destruct (tokenize_returned _ _ _ Hlex) as (Hne & Hkinds & _).
  pose proof (count_kinds_total _ Hkinds) as Hsum.
  pose proof Hinv as (Hent & _ & Htot & Huniq & _ & Htype).
  pose proof (get_statistics_spec st)
    as (A1 & A2 & _ & A4 & A5 & A6 & A7 & A8 & A9 & A10).
  pose proof (get_statistics_spec (fst (SymbolTable.get_statistics st)))
    as (B1 & B2 & _ & B4 & B5 & B6 & _).
  cbv zeta in *.
  rewrite B1, B2, B4, B5, B6, !A7, A9, A10, A1, A2, A4, A5, A6.
  rewrite !Htype, Htot. fold (count_kind ID toks) (count_kind PLUS toks)
    (count_kind MULTIPLY toks) (count_kind LPAREN toks)
    (count_kind RPAREN toks).
  assert (1 <= SymbolTable.unique_tokens st).
  { destruct toks as [|t toks]; [done|].
    specialize (Hent (Token.value t) (Token.type t)).
    unfold occurrences in Hent. rewrite filter_cons in Hent.
    case_decide as Hd; [|by destruct Hd].
    destruct Hent as (e & He & _). unfold SymbolTable.get_entry in He.
    rewrite Huniq.
    destruct (decide (size (SymbolTable.entries st) = 0)) as [Hz|]; [|lia].
    apply map_size_empty_inv in Hz. rewrite Hz in He.
    by rewrite lookup_empty in He. }
  assert (SymbolTable.has_entries st = true).
  { unfold SymbolTable.has_entries. apply Nat.ltb_lt. rewrite <- Huniq. lia. }
  repeat split; try done; lia.
Qed.

Lemma statistics_of_added_tokens_witness :
  SymbolTable.stat_total_tokens
    (snd (SymbolTable.get_statistics
            (fst (Analysis.add_tokens (SymbolTable.clear SymbolTable.new)
                    sum_tokens))))
  = length sum_tokens.
Proof.
  refine (proj1 (statistics_of_added_tokens Lexer.new " 2+3 " sum_tokens
                   SymbolTable.new
                   (fst (Analysis.add_tokens
                           (SymbolTable.clear SymbolTable.new) sum_tokens))
                   _ _)).
  - vm_compute. reflexivity.
  - vm_compute. reflexivity.
Defined.

(** X16.  The coverage the table reports after an accepted analysis (at
    any call depth): there
    is an identifier, the parentheses are balanced, parentheses are
    reported exactly when the expression has one, and operators exactly
    when it has a [+] or a [*]. *)
Theorem coverage_of_accepted (depth : nat) (self self' : Analysis.State)
    (s : string) (toks : list Token) (b : bool) :
  Analysis.analyze depth self s = (self', Return (toks, b)) ->
  let coverage :=
    snd (SymbolTable.get_token_coverage (Analysis.symbol_table self')) in
  SymbolTable.has_identifiers coverage = true
  /\ SymbolTable.parentheses_balanced coverage = true
  /\ (SymbolTable.has_parentheses coverage = true
      <-> exists t, t ∈ toks /\ Token.type t = LPAREN)
  /\ (SymbolTable.has_operators coverage = true
      <-> exists t, t ∈ toks /\ is_op t).
Proof.
  intros H. cbv zeta.
  apply analyze_returned in H as (Hlex & Hadd & Hparse).
  apply parse_denotes in Hparse as (_ & z & Hden & _).
  pose proof (table_after_lexed _ _ _ _ _ Hlex Hadd) as Hinv.
  destruct Hinv as (_ & _ & _ & _ & _ & Htype).
  pose proof (get_token_coverage_spec (Analysis.symbol_table self'))
    as (C1 & C2 & C3 & C4).
  cbv zeta in *. rewrite C1, C2, C3, C4, !Htype.
  fold (count_kind ID toks) (count_kind PLUS toks)
    (count_kind MULTIPLY toks) (count_kind LPAREN toks)
    (count_kind RPAREN toks).
  pose proof (denotes_identifier _ _ _ Hden eq_refl) as Hid.
  pose proof (denotes_shape _ _ _ Hden) as (Hbal & _).
  rewrite paren_count_kinds in Hbal.
  assert (Heq : count_kind LPAREN toks = count_kind RPAREN toks) by lia.
  split; [by apply Nat.ltb_lt|]. split; [by apply Nat.eqb_eq|]. split.
  - rewrite <- Heq, andb_diag, Nat.ltb_lt. apply count_kind_positive.
  - rewrite orb_true_iff, !Nat.ltb_lt, !count_kind_positive. unfold is_op.
    split.
    + intros [(t & ? & Hk)|(t & ? & Hk)]; exists t; by rewrite Hk.
    + intros (t & Hin & Hop).
      destruct (Token.type t) eqn:Hk; try done; [left|right]; by exists t.
Qed.

Lemma coverage_of_accepted_witness :
  SymbolTable.has_identifiers
    (snd (SymbolTable.get_token_coverage
            (Analysis.symbol_table
               (fst (Analysis.analyze 1000 new_state " 2+3 ")))))
  = true.
Proof.
  refine (proj1 (coverage_of_accepted 1000 new_state
                   (fst (Analysis.analyze 1000 new_state " 2+3 ")) " 2+3 "
                   sum_tokens true _)).
  vm_compute. reflexivity.
Defined.

(* ===================================================================== *)
(** ** Unique tokens are distinct characters *)
(* ===================================================================== *)

Section UniqueTokens.

Import SymbolTable Analysis.

Lemma key_of_char_inj : Inj (=) (=) key_of_char.
Proof.
  intros c1 c2 H. unfold key_of_char in H.
  apply key_inj in H as [H _]. by injection H.
Qed.

Lemma lexed_pairs (l : Lexer.Lexer) (s : string) (toks : list Token) :
  snd (Lexer.tokenize l s) = Return toks ->
  forall v k,
    (exists t, t ∈ toks /\ Token.value t = v /\ Token.type t = k)
    <-> exists c, c ∈ visible s /\ v = PyStr.of_char c /\ k = Scan.kind_of c.
Proof.
  intros Hret v k. pose proof (tokenize_visible l s) as H.
  rewrite Hret in H. destruct H as (_ & Hmap & _).
  change (map ?f ?x) with (f <$> x) in Hmap. split.
  - intros (t & Hin & <- & <-).
    apply (list_elem_of_fmap_2 kind_and_text) in Hin. rewrite Hmap in Hin.
    apply list_elem_of_fmap in Hin as (c & Hc & Hin).
    injection Hc as Hk Hv. by exists c.
  - intros (c & Hin & -> & ->).
    apply (list_elem_of_fmap_2
             (fun c => (Scan.kind_of c, PyStr.of_char c))) in Hin.
    rewrite <- Hmap in Hin.
    apply list_elem_of_fmap in Hin as (t & Ht & Hin).
    injection Ht as Hk Hv. by exists t.
Qed.

Lemma occurrences_nil (v : string) (k : TokenType) (toks : list Token) :
  occurrences v k toks = []
  <-> ~ exists t, t ∈ toks /\ Token.value t = v /\ Token.type t = k.
Proof.
  unfold occurrences. split.
  - intros H (t & Hin & Hv & Hk).
    by apply (filter_nil_not_elem_of _ _ t H).
  - intros H. destruct (filter _ toks) as [|t r] eqn:E; [done|].
    exfalso. apply H. exists t.
    assert (Ht : t ∈ filter (fun t => Token.value t = v /\ Token.type t = k)
                     toks) by (rewrite E; apply elem_of_cons; by left).
    apply list_elem_of_filter in Ht as [[? ?] ?]. done.
Qed.

Lemma entries_of_lexed (l : Lexer.Lexer) (s : string) (toks : list Token)
    (st : SymbolTable) :
  snd (Lexer.tokenize l s) = Return toks ->
  table_invariant st toks ->
  dom (entries st)
  = (list_to_set (key_of_char <$> remove_dups (visible s)) : gset string).
Proof.
  intros Hret (Hent & Hkey & _). apply set_eq. intros x.
  rewrite elem_of_dom, elem_of_list_to_set, list_elem_of_fmap.
  pose proof (lexed_pairs l s toks Hret) as Hpairs. split.
  - intros [e He]. pose proof (Hkey _ _ He) as ->.
    specialize (Hent (SymbolTableEntry.token_value e)
                  (SymbolTableEntry.token_type e)).
    unfold get_entry in Hent. rewrite He in Hent.
    destruct (occurrences _ _ toks) as [|o occ] eqn:Hocc; [done|].
    assert (Ho : exists t, t ∈ toks
                 /\ Token.value t = SymbolTableEntry.token_value e
                 /\ Token.type t = SymbolTableEntry.token_type e).
    { exists o.
      assert (Hin : o ∈ occurrences (SymbolTableEntry.token_value e)
                        (SymbolTableEntry.token_type e) toks)
        by (rewrite Hocc; apply elem_of_cons; by left).
      apply list_elem_of_filter in Hin as [[? ?] ?]. done. }
    apply (proj1 (Hpairs _ _)) in Ho as (c & Hin & -> & ->).
    exists c. split; [done|]. by apply elem_of_remove_dups.
  - intros (c & -> & Hin). apply (proj1 (elem_of_remove_dups _ _)) in Hin.
    assert (Ho : exists t, t ∈ toks /\ Token.value t = PyStr.of_char c
                 /\ Token.type t = Scan.kind_of c)
      by (apply (proj2 (Hpairs _ _)); by exists c).
    specialize (Hent (PyStr.of_char c) (Scan.kind_of c)).
    unfold get_entry in Hent.
    destruct (occurrences _ _ toks) as [|o occ] eqn:Hocc.
    + apply occurrences_nil in Hocc. by destruct Hocc.
    + destruct Hent as (e & He & _). by exists e.
Qed.

End UniqueTokens.

(** X17.  The totals of the table after the tokens of an expression were
    added, in terms of the expression: [total_tokens] is the number of its
    characters that are not whitespace, and [unique_tokens] the number of
    different ones among them. *)
Theorem unique_tokens_are_distinct_characters (l : Lexer.Lexer)
    (s : string) (toks : list Token) (st0 st : SymbolTable) :
  snd (Lexer.tokenize l s) = Return toks ->
  Analysis.add_tokens (SymbolTable.clear st0) toks = (st, Return tt) ->
  SymbolTable.total_tokens st = length (visible s)
  /\ SymbolTable.unique_tokens st = length (remove_dups (visible s)).
Proof.
  intros Hlex Hadd.
  pose proof (table_after_lexed _ _ _ _ _ Hlex Hadd) as Hinv.
  destruct (tokenize_returned _ _ _ Hlex) as (_ & _ & Hlen).
  pose proof (entries_of_lexed _ _ _ _ Hlex Hinv) as Hdom.
  destruct Hinv as (_ & _ & Htot & Huniq & _).
  split; [congruence|].
  rewrite Huniq, <- size_dom, Hdom, size_list_to_set, length_fmap; [done|].
  pose proof key_of_char_inj as Hinj.
  apply NoDup_fmap_2; [exact Hinj|]. apply NoDup_remove_dups.
Qed.

Lemma unique_tokens_are_distinct_characters_witness :
  SymbolTable.total_tokens
    (fst (Analysis.add_tokens (SymbolTable.clear SymbolTable.new)
            [Token.new ID "a" 0; Token.new PLUS "+" 1; Token.new ID "a" 2]))
  = length (visible "a+a")
  /\ SymbolTable.unique_tokens
       (fst (Analysis.add_tokens (SymbolTable.clear SymbolTable.new)
               [Token.new ID "a" 0; Token.new PLUS "+" 1;
                Token.new ID "a" 2]))
     = length (remove_dups (visible "a+a")).
Proof.
  apply (unique_tokens_are_distinct_characters Lexer.new "a+a"
           [Token.new ID "a" 0; Token.new PLUS "+" 1; Token.new ID "a" 2]
           SymbolTable.new).
  - vm_compute. reflexivity.
  - vm_compute. reflexivity.
Defined.

(* ===================================================================== *)
(** ** Node ids *)
(* ===================================================================== *)

Section NodeIds.

Import Parser.

Lemma node_ids_set_depth (n : ParseTreeNode) (d : nat) :
  node_ids (ParseTreeNode.set_depth n d) = node_ids n.
Proof. by destruct n. Qed.

Lemma node_ids_fresh (rule : string) (token : option Token) (p : Parser) :
  node_ids (fresh rule token p) = ids_after (node_counter p) 1.
Proof. unfold ids_after. simpl. by rewrite Nat.add_1_r. Qed.

Lemma ids_after_app (first n m : nat) :
  ids_after first n ++ ids_after (first + n) m = ids_after first (n + m).
Proof.
  unfold ids_after. by rewrite seq_app, map_app.
Qed.

Lemma ids_after_cons (first n : nat) (l : list (option nat)) :
  l = ids_after (first + 1) n ->
  Some (first + 1) :: l = ids_after first (1 + n).
Proof. intros ->. unfold ids_after. by rewrite Nat.add_1_r. Qed.

Lemma ids_after_snoc (first n : nat) :
  ids_after first n ++ [Some (first + n + 1)] = ids_after first (n + 1).
Proof.
  rewrite <- ids_after_app. unfold ids_after. simpl.
  by rewrite Nat.add_1_r.
Qed.

(** Every routine that returns has numbered the nodes of its tree. *)
Lemma routines_numbered (d : nat) :
  forall X p p' node,
    routine X d p = (p', Return node) -> numbered p p' node.
Proof.
  induction d as [|d IH]; intros X p p' node H; [by destruct X|].
  assert (IHsub : forall Y q q' n,
             routine Y d q = (q', Return n) ->
             exists k, node_counter q' = node_counter q + k
                       /\ node_ids n = ids_after (node_counter q) k)
    by (intros Y q q' n Hr; exact (IH Y q q' n Hr)).
  clear IH. unfold numbered.
  destruct X; cbn [routine] in H.
  - (* E *)
    rewrite parse_E_step in H. unfold bind in H.
    destruct (_parse_T d (bump p)) as [p1 [t|x|]] eqn:HT; try done.
    destruct (_parse_E_prime d p1) as [p2 [e|x|]] eqn:HE; try done.
    injection H as <- <-.
    apply (IHsub sT) in HT as (n1 & C1 & I1).
    apply (IHsub sE') in HE as (n2 & C2 & I2). simpl in C1, I1.
    exists (1 + (n1 + n2)). split; [lia|].
    cbn [node_ids flat_map]. rewrite !node_ids_set_depth, app_nil_r.
    apply ids_after_cons. by rewrite I1, I2, C1, ids_after_app.
  - (* E' *)
    rewrite parse_E_prime_step in H.
    assert (Heps : (bump p, Return (fresh "E'" None p)) = (p', Return node)
                   -> exists n, node_counter p' = node_counter p + n
                       /\ node_ids node = ids_after (node_counter p) n).
    { intros [= <- <-]. exists 1. by rewrite node_ids_fresh. }
    destruct (current_token p) as [tok|]; [|by apply Heps].
    destruct (TokenType.eqb (Token.type tok) PLUS); [|by apply Heps].
    unfold bind in H.
    destruct (_parse_T d (advance (bump (bump p)))) as [p1 [t|x|]] eqn:HT;
      try done.
    destruct (_parse_E_prime d p1) as [p2 [e|x|]] eqn:HE; try done.
    injection H as <- <-.
    apply (IHsub sT) in HT as (n1 & C1 & I1).
    apply (IHsub sE') in HE as (n2 & C2 & I2). simpl in C1, I1.
    exists (1 + (1 + (n1 + n2))). split; [lia|].
    cbn [node_ids flat_map app]. rewrite !node_ids_set_depth, app_nil_r.
    do 2 apply ids_after_cons. by rewrite I1, I2, C1, ids_after_app.
  - (* T *)
    rewrite parse_T_step in H. unfold bind in H.
    destruct (_parse_F d (bump p)) as [p1 [t|x|]] eqn:HT; try done.
    destruct (_parse_T_prime d p1) as [p2 [e|x|]] eqn:HE; try done.
    injection H as <- <-.
    apply (IHsub sF) in HT as (n1 & C1 & I1).
    apply (IHsub sT') in HE as (n2 & C2 & I2). simpl in C1, I1.
    exists (1 + (n1 + n2)). split; [lia|].
    cbn [node_ids flat_map]. rewrite !node_ids_set_depth, app_nil_r.
    apply ids_after_cons. by rewrite I1, I2, C1, ids_after_app.
  - (* T' *)
    rewrite parse_T_prime_step in H.
    assert (Heps : (bump p, Return (fresh "T'" None p)) = (p', Return node)
                   -> exists n, node_counter p' = node_counter p + n
                       /\ node_ids node = ids_after (node_counter p) n).
    { intros [= <- <-]. exists 1. by rewrite node_ids_fresh. }
    destruct (current_token p) as [tok|]; [|by apply Heps].
    destruct (TokenType.eqb (Token.type tok) MULTIPLY); [|by apply Heps].
    unfold bind in H.
    destruct (_parse_F d (advance (bump (bump p)))) as [p1 [t|x|]] eqn:HT;
      try done.
    destruct (_parse_T_prime d p1) as [p2 [e|x|]] eqn:HE; try done.
    injection H as <- <-.
    apply (IHsub sF) in HT as (n1 & C1 & I1).
    apply (IHsub sT') in HE as (n2 & C2 & I2). simpl in C1, I1.
    exists (1 + (1 + (n1 + n2))). split; [lia|].
    cbn [node_ids flat_map app]. rewrite !node_ids_set_depth, app_nil_r.
    do 2 apply ids_after_cons. by rewrite I1, I2, C1, ids_after_app.
  - (* F *)
    rewrite parse_F_step in H.
    destruct (current_token p) as [tok|]; [|done].
    destruct (TokenType.eqb (Token.type tok) LPAREN).
    + unfold bind in H.
      destruct (_parse_E d (advance (bump (bump p)))) as [p1 [e|x|]] eqn:HE;
        try done.
      destruct (current_token p1) as [tok2|]; [|done].
      destruct (TokenType.eqb (Token.type tok2) RPAREN); [|done].
      injection H as <- <-.
      apply (IHsub sE) in HE as (n1 & C1 & I1). simpl in C1, I1.
      exists (1 + (1 + (n1 + 1))). split; [simpl; lia|].
      cbn [node_ids flat_map app]. rewrite !node_ids_set_depth.
      do 2 apply ids_after_cons. by rewrite I1, C1, ids_after_snoc.
    + destruct (TokenType.eqb (Token.type tok) ID); [|done].
      injection H as <- <-. exists (1 + (1 + 0)). split; [simpl; lia|].
      cbn [node_ids flat_map app]. by do 2 apply ids_after_cons.
Qed.

(** The tree and the counter [parse] leaves when it returns. *)
Lemma parse_returned_state (depth : nat) (self : Parser)
    (toks : list Token) (p' : Parser) (b : bool) :
  parse depth self toks = (p', Return b) ->
  exists d p1 root,
    _parse_E d (started self toks) = (p1, Return root)
    /\ node_counter p' = node_counter p1
    /\ parse_tree_root p' = Some (fst (ParseTreeNode.evaluate root)).
Proof.
  intros H.
  destruct (parse_cases depth self toks)
    as [[-> Hr]|[(Hne & msg & pos & tok & ctx & Hsem & Hr)|(Hne & Hsem & Hr)]].
  - by rewrite H in Hr.
  - by rewrite H in Hr.
  - rewrite Hr in H. unfold parse_body, derive, bind in H.
    destruct (_parse_E depth (started self toks))
      as [p1 [root|e|]] eqn:HE;
      [|simpl in H; by destruct (Errors.is_syntax_or_semantic e)|done].
    exists depth, p1, root. split; [done|].
    unfold set_parse_tree_root in H. cbn [current_index tokens] in H.
    destruct (current_index p1 <? length (tokens p1)); [done|].
    unfold evaluate_root in H.
    destruct (ParseTreeNode.evaluate root) as [root' [v|e|]]; simpl in H.
    + by injection H as <- _.
    + by destruct (Errors.is_syntax_or_semantic e).
    + done.
Qed.

End NodeIds.

(** X18.  The node ids of an accepted expression: the nodes of the tree
    [parse] leaves when it returns, at any call depth, carry the ids 1, 2, ..., N in the order of a pre-order
    walk, where N is the parser's node counter; so the ids are pairwise
    different and N is the number of nodes. *)
Theorem node_ids_number_the_tree (depth : nat) (self : Parser.Parser)
    (toks : list Token) (p' : Parser.Parser) (b : bool) :
  Parser.parse depth self toks = (p', Return b) ->
  exists root,
    Parser.parse_tree_root p' = Some root
    /\ node_ids root = map Some (seq 1 (Parser.node_counter p'))
    /\ NoDup (node_ids root)
    /\ length (node_ids root) = Parser.node_counter p'.
Proof.
  intros H.
  apply parse_returned_state in H as (d & p1 & root & HE & Hc & Hroot).
  apply (routines_numbered d sE) in HE as (n & Hn & Hids). simpl in Hn, Hids.
  exists (fst (ParseTreeNode.evaluate root)). split; [done|].
  assert (Hsame : node_ids (fst (ParseTreeNode.evaluate root))
                  = map Some (seq 1 (Parser.node_counter p'))).
  { rewrite <- node_ids_clear_values, evaluate_clear_values,
      node_ids_clear_values, Hids, Hc, Hn. done. }
  rewrite Hsame. split; [done|]. split.
  - apply (NoDup_fmap_2 Some). apply NoDup_seq.
  - by rewrite length_map, length_seq.
Qed.

Lemma node_ids_number_the_tree_witness :
  exists root,
    Parser.parse_tree_root (fst (Parser.parse 1000 Parser.new sum_tokens))
    = Some root
    /\ node_ids root
       = map Some
           (seq 1 (Parser.node_counter
                     (fst (Parser.parse 1000 Parser.new sum_tokens))))
    /\ NoDup (node_ids root)
    /\ length (node_ids root)
       = Parser.node_counter (fst (Parser.parse 1000 Parser.new sum_tokens)).
Proof.
  apply (node_ids_number_the_tree 1000 Parser.new sum_tokens
           (fst (Parser.parse 1000 Parser.new sum_tokens)) true).
  vm_compute. reflexivity.
Defined.

(* ===================================================================== *)
(** ** The sign of a value *)
(* ===================================================================== *)

Section ValueSign.

Lemma int_digits_nonnegative (cs : list ascii) (acc z : Z) :
  (0 <= acc)%Z -> PyStr.int_digits acc cs = Some z -> (0 <= z)%Z.
Proof.
  revert acc; induction cs as [|c cs IH]; intros acc Hacc; simpl.
  - by intros [= <-].
  - destruct (PyStr.isdecimal c); [|done]. apply IH. lia.
Qed.

Lemma id_value_nonnegative (tok : Token) (z : Z) :
  id_value tok = Some z -> (0 <= z)%Z.
Proof.
  unfold id_value, PyStr.int.
  destruct (PyStr.str_isdigit (Token.value tok)); [|by intros [= <-]].
  destruct (PyStr.chars (Token.value tok)); [done|].
  by apply int_digits_nonnegative.
Qed.

Lemma denotes_nonnegative (X : Sym) (ts : list Token) (z : Z) :
  denotes X ts z -> (0 <= z)%Z.
Proof.
  induction 1; try lia; try nia. by eapply id_value_nonnegative.
Qed.

End ValueSign.

(** X19.  The value of an accepted expression is never negative, at any
    call depth: the
    identifiers stand for natural numbers, and the only operations are
    addition and multiplication. *)
Theorem accepted_value_nonnegative (depth : nat) (self : Parser.Parser)
    (toks : list Token) (z : Z) :
  accepted depth self toks z -> (0 <= z)%Z.
Proof.
  intros (p' & Hparse & Hval).
  apply parse_denotes in Hparse as (_ & z' & Hden & Hval').
  assert (z' = z) as -> by congruence.
  by eapply denotes_nonnegative.
Qed.

Lemma accepted_value_nonnegative_witness :
  accepted 1000 Parser.new sum_tokens 5 /\ (0 <= 5)%Z.
Proof.
  assert (H : accepted 1000 Parser.new sum_tokens 5)
    by (eexists; split; vm_compute; reflexivity).
  split; [exact H|].
  exact (accepted_value_nonnegative 1000 Parser.new sum_tokens 5 H).
Defined.
